(** * JRTPLIB: the TCP transmission core's supporting primitives

    A shallow embedding of
    - [rtpabortdescriptors.cpp]  (the abort-descriptor pair),
    - [rtptimeutilities.h]       (RTPTime, NTP conversion, sleeping),
    - [rtpkeyhashtable.h]        (the keyed hash container),
    - [rtptcptransmitter.h]      (the per-socket reassembler's state),
    with the properties of each stated and proved next to its model. *)

From Stdlib Require Import ZArith Lia Bool List Floats Uint63.
From stdpp Require Import base option list gmap.

Local Open Scope Z_scope.

(* ===================================================================== *)
(** * rtpabortdescriptors.cpp                                            *)
(* ===================================================================== *)

Module AbortDesc.

(** [SocketType m_descriptors[2]; bool m_init;] *)
Record RTPAbortDescriptors := mkAbortDesc {
  m_descriptors : Z * Z;
  m_init : bool
}.

(** The answers of the operating system to the calls of the winsock
    [Init], in the order of the calls.  A [socket]/[accept] answer is the
    new handle or [RTPSOCKERR]; the other answers are the calls' return
    values, [0] on success. *)
Record winsock_answers := mkAnswers {
  ans_socket_listen : Z;
  ans_bind_listen : Z;
  ans_getsockname : Z;
  ans_socket_conn : Z;
  ans_bind_conn : Z;
  ans_listen : Z;
  ans_connect : Z;
  ans_accept : Z
}.

(** The abort channel as the kernel holds it: the bytes written and not
    yet read, and counters of the calls made on it. *)
Record channel := mkChannel {
  buffered : nat;
  reads : nat;
  selects : nat
}.

(** What a call that may sleep in the kernel does. *)
Inductive outcome :=
| Returns (status : Z) (c : channel)
| Blocks (c : channel)
| OutOfFuel.

Section Model.

(** [rtperrors.h] and [rtpsocketutilinternal.h] are not part of the
    sources at hand: the codes they define are parameters. *)
Variable RTPSOCKERR : Z.
Variable ERR_RTP_ABORTDESC_ALREADYINIT : Z.
Variable ERR_RTP_ABORTDESC_NOTINIT : Z.
Variable ERR_RTP_ABORTDESC_CANTCREATEABORTDESCRIPTORS : Z.
Variable ERR_RTP_ABORTDESC_CANTCREATEPIPE : Z.

(** [RTPAbortDescriptors::RTPAbortDescriptors()] *)
Definition RTPAbortDescriptors_new : RTPAbortDescriptors :=
  mkAbortDesc (RTPSOCKERR, RTPSOCKERR) false.

(** The open handles of the process are a finite set; [socket], [accept]
    and [pipe] add the handle they return, [close] removes its argument. *)
Definition sys_open (h : Z) (os : gset Z) : gset Z :=
  if decide (h = RTPSOCKERR) then os else {[h]} ∪ os.

Definition RTPCLOSE (h : Z) (os : gset Z) : gset Z := os ∖ {[h]}.

Definition set_desc0 (d : RTPAbortDescriptors) (h : Z) : RTPAbortDescriptors :=
  mkAbortDesc (h, snd (m_descriptors d)) (m_init d).

Definition set_desc1 (d : RTPAbortDescriptors) (h : Z) : RTPAbortDescriptors :=
  mkAbortDesc (fst (m_descriptors d), h) (m_init d).

Definition set_init (d : RTPAbortDescriptors) (b : bool) : RTPAbortDescriptors :=
  mkAbortDesc (m_descriptors d) b.

(** [RTPAbortDescriptors::Init], [RTP_SOCKETTYPE_WINSOCK] variant. *)
Definition Init_winsock (a : winsock_answers) (d : RTPAbortDescriptors) (os : gset Z)
  : Z * RTPAbortDescriptors * gset Z :=
  if m_init d then (ERR_RTP_ABORTDESC_ALREADYINIT, d, os) else
  let listensock := ans_socket_listen a in
  let os := sys_open listensock os in
  if decide (listensock = RTPSOCKERR)
  then (ERR_RTP_ABORTDESC_CANTCREATEABORTDESCRIPTORS, d, os) else
  if negb (ans_bind_listen a =? 0)
  then (ERR_RTP_ABORTDESC_CANTCREATEABORTDESCRIPTORS, d, RTPCLOSE listensock os) else
  if negb (ans_getsockname a =? 0)
  then (ERR_RTP_ABORTDESC_CANTCREATEABORTDESCRIPTORS, d, RTPCLOSE listensock os) else
  let d := set_desc0 d (ans_socket_conn a) in
  let os := sys_open (ans_socket_conn a) os in
  if decide (fst (m_descriptors d) = RTPSOCKERR)
  then (ERR_RTP_ABORTDESC_CANTCREATEABORTDESCRIPTORS, d, RTPCLOSE listensock os) else
  if negb (ans_bind_conn a =? 0)
  then (ERR_RTP_ABORTDESC_CANTCREATEABORTDESCRIPTORS, d,
        RTPCLOSE (fst (m_descriptors d)) (RTPCLOSE listensock os)) else
  if negb (ans_listen a =? 0)
  then (ERR_RTP_ABORTDESC_CANTCREATEABORTDESCRIPTORS, d,
        RTPCLOSE (fst (m_descriptors d)) (RTPCLOSE listensock os)) else
  if negb (ans_connect a =? 0)
  then (ERR_RTP_ABORTDESC_CANTCREATEABORTDESCRIPTORS, d,
        RTPCLOSE (fst (m_descriptors d)) (RTPCLOSE listensock os)) else
  let d := set_desc1 d (ans_accept a) in
  let os := sys_open (ans_accept a) os in
  if decide (snd (m_descriptors d) = RTPSOCKERR)
  then (ERR_RTP_ABORTDESC_CANTCREATEABORTDESCRIPTORS, d,
        RTPCLOSE (fst (m_descriptors d)) (RTPCLOSE listensock os)) else
  let os := RTPCLOSE listensock os in
  (0, set_init d true, os).

(** [RTPAbortDescriptors::Init], unix variant.  [pipe_ret] is the value
    [pipe] returns; when it is not negative [fds] are the two new
    descriptors it stored in [m_descriptors], otherwise it opened nothing
    and left the array alone. *)
Definition Init_unix (pipe_ret : Z) (fds : Z * Z) (d : RTPAbortDescriptors) (os : gset Z)
  : Z * RTPAbortDescriptors * gset Z :=
  if m_init d then (ERR_RTP_ABORTDESC_ALREADYINIT, d, os) else
  if pipe_ret <? 0 then (ERR_RTP_ABORTDESC_CANTCREATEPIPE, d, os) else
  (0, mkAbortDesc fds true, {[snd fds]} ∪ ({[fst fds]} ∪ os)).

(** [RTPAbortDescriptors::Destroy] (both variants read the same). *)
Definition Destroy (d : RTPAbortDescriptors) (os : gset Z) : RTPAbortDescriptors * gset Z :=
  if negb (m_init d) then (d, os) else
  (mkAbortDesc (RTPSOCKERR, RTPSOCKERR) false,
   RTPCLOSE (snd (m_descriptors d)) (RTPCLOSE (fst (m_descriptors d)) os)).


(** [RTPAbortDescriptors::ReadSignallingByte]: a [read] of one byte from
    the readable descriptor.  The descriptor is in blocking mode, so the
    [read] of an empty channel does not return. *)
Definition ReadSignallingByte (d : RTPAbortDescriptors) (c : channel) : outcome :=
  if negb (m_init d) then Returns ERR_RTP_ABORTDESC_NOTINIT c else
  match buffered c with
  | O => Blocks (mkChannel O (S (reads c)) (selects c))
  | S n => Returns 0 (mkChannel n (S (reads c)) (selects c))
  end.

(** [RTPSelect] ([rtpselect.h]) is not part of the sources at hand: it is
    a parameter.  [RTPSelect k n] is what the [k]-th call made on the
    channel answers for a zero timeout when [n] bytes are buffered: the
    status it returns and the flag it stores in [isset]. *)
Variable RTPSelect : nat -> nat -> Z * bool.

(** The [while (!done)] loop of [ClearAbortSignal]; one unit of fuel
    per iteration. *)
Fixpoint ClearAbortSignal_loop (fuel : nat) (d : RTPAbortDescriptors) (c : channel) : outcome :=
  match fuel with
  | O => OutOfFuel
  | S fuel' =>
      let '(status, isset) := RTPSelect (selects c) (buffered c) in
      let c := mkChannel (buffered c) (reads c) (S (selects c)) in
      if status <? 0 then Returns status c else
      if negb isset then Returns 0 c (* done = true *) else
      match ReadSignallingByte d c with
      | Returns status c' =>
          if status <? 0 then Returns status c' else ClearAbortSignal_loop fuel' d c'
      | o => o
      end
  end.

(** [RTPAbortDescriptors::ClearAbortSignal] *)
Definition ClearAbortSignal (fuel : nat) (d : RTPAbortDescriptors) (c : channel) : outcome :=
  if negb (m_init d) then Returns ERR_RTP_ABORTDESC_NOTINIT c else
  ClearAbortSignal_loop fuel d c.

(** The select primitive reports readiness as it is: whenever a call
    succeeds, the flag is set exactly when a byte is buffered. *)
Definition select_accurate : Prop :=
  forall k n, 0 <= fst (RTPSelect k n) -> snd (RTPSelect k n) = negb (Nat.eqb n 0).

Definition select_succeeds : Prop :=
  forall k n, 0 <= fst (RTPSelect k n).

(** The handles the system returns are not open yet, and differ from
    one another. *)
Definition fresh_answers (a : winsock_answers) (os : gset Z) : Prop :=
  (ans_socket_listen a ∉ os) /\ (ans_socket_conn a ∉ os) /\ (ans_accept a ∉ os) /\
  ans_socket_conn a <> ans_socket_listen a /\
  ans_accept a <> ans_socket_listen a /\
  ans_accept a <> ans_socket_conn a.

(** Every step of the socket-pair construction succeeded. *)
Definition answers_ok (a : winsock_answers) : bool :=
  negb (ans_socket_listen a =? RTPSOCKERR) && (ans_bind_listen a =? 0) &&
  (ans_getsockname a =? 0) && negb (ans_socket_conn a =? RTPSOCKERR) &&
  (ans_bind_conn a =? 0) && (ans_listen a =? 0) && (ans_connect a =? 0) &&
  negb (ans_accept a =? RTPSOCKERR).

Lemma sys_open_fresh h os :
  h <> RTPSOCKERR -> sys_open h os = {[h]} ∪ os.
Proof. intros Hh. unfold sys_open. by rewrite decide_False. Qed.

Lemma sys_open_err os : sys_open RTPSOCKERR os = os.
Proof. unfold sys_open. by rewrite decide_True. Qed.

Lemma close_open h os : h ∉ os -> RTPCLOSE h ({[h]} ∪ os) = os.
Proof. unfold RTPCLOSE. set_solver. Qed.

Lemma Init_winsock_cases a d os :
  m_init d = false -> fresh_answers a os ->
  Init_winsock a d os =
    if answers_ok a
    then (0, mkAbortDesc (ans_socket_conn a, ans_accept a) true,
          {[ans_socket_conn a]} ∪ ({[ans_accept a]} ∪ os))
    else (ERR_RTP_ABORTDESC_CANTCREATEABORTDESCRIPTORS,
          snd (fst (Init_winsock a d os)), os).
Proof.
  intros Hi (F1 & F2 & F3 & N1 & N2 & N3).
  unfold Init_winsock, answers_ok. rewrite Hi.
  destruct a as [l b1 g c b2 li co ac]; simpl in *.
  destruct (decide (l = RTPSOCKERR)) as [->|Hl].
  { rewrite Z.eqb_refl, sys_open_err. done. }
  rewrite (proj2 (Z.eqb_neq _ _) Hl), sys_open_fresh by done; simpl.
  destruct (b1 =? 0); simpl; [|by rewrite close_open].
  destruct (g =? 0); simpl; [|by rewrite close_open].
  destruct (decide (c = RTPSOCKERR)) as [->|Hc].
  { rewrite Z.eqb_refl, sys_open_err; simpl. by rewrite close_open. }
  rewrite (proj2 (Z.eqb_neq _ _) Hc), sys_open_fresh by done; simpl.
  assert (Hroll : RTPCLOSE c (RTPCLOSE l ({[c]} ∪ ({[l]} ∪ os))) = os)
    by (unfold RTPCLOSE; set_solver).
  destruct (b2 =? 0); simpl; [|by rewrite Hroll].
  destruct (li =? 0); simpl; [|by rewrite Hroll].
  destruct (co =? 0); simpl; [|by rewrite Hroll].
  destruct (decide (ac = RTPSOCKERR)) as [->|Ha].
  { rewrite Z.eqb_refl, sys_open_err; simpl. by rewrite Hroll. }
  rewrite (proj2 (Z.eqb_neq _ _) Ha), sys_open_fresh by done; simpl.
  f_equal. unfold RTPCLOSE. set_solver.
Qed.

Lemma Init_winsock_keeps_uninit a d os :
  m_init d = false ->
  answers_ok a = false ->
  m_init (snd (fst (Init_winsock a d os))) = false.
Proof.
  intros Hi Hok. unfold Init_winsock. rewrite Hi.
  repeat (case_match; simpl; try done).
  unfold answers_ok in Hok.
  repeat match goal with
         | H : negb (_ =? _) = false |- _ => apply negb_false_iff in H; rewrite H in Hok
         | H : decide (_ = _) = right ?n |- _ =>
             simpl in n; rewrite (proj2 (Z.eqb_neq _ _) n) in Hok; clear H
         end.
  simpl in Hok. done.
Qed.

(** C4.  On an object that is not initialised, [Init] either succeeds,
    returns 0, sets [m_init] and leaves open, besides what was open,
    exactly the two descriptors of the pair; or it fails at some step,
    returns the error code kept for that (a negative one, so not 0),
    leaves [m_init] false, and the set of open handles is what it was
    before the call: every handle opened on the way (the listen socket,
    the connecting socket) has been closed.  It succeeds exactly when
    every step does.  This holds for the socket-pair variant and for the
    pipe variant. *)
Theorem Init_failure_rolls_back
    (a : winsock_answers) (pipe_ret : Z) (fds : Z * Z)
    (d : RTPAbortDescriptors) (os : gset Z) :
  m_init d = false ->
  ERR_RTP_ABORTDESC_CANTCREATEABORTDESCRIPTORS < 0 ->
  ERR_RTP_ABORTDESC_CANTCREATEPIPE < 0 ->
  fresh_answers a os ->
  fst fds ∉ os -> snd fds ∉ os ->
  (let '(status, d', os') := Init_winsock a d os in
   if answers_ok a
   then status = 0 /\ m_init d' = true /\
        m_descriptors d' = (ans_socket_conn a, ans_accept a) /\
        os' = {[ans_socket_conn a]} ∪ ({[ans_accept a]} ∪ os) /\
        (ans_socket_listen a ∉ os')
   else status = ERR_RTP_ABORTDESC_CANTCREATEABORTDESCRIPTORS /\ status < 0 /\
        m_init d' = false /\ os' = os) /\
  (let '(status, d', os') := Init_unix pipe_ret fds d os in
   if pipe_ret <? 0
   then status = ERR_RTP_ABORTDESC_CANTCREATEPIPE /\ status < 0 /\
        m_init d' = false /\ d' = d /\ os' = os
   else status = 0 /\ m_init d' = true /\ m_descriptors d' = fds /\
        os' = {[fst fds]} ∪ ({[snd fds]} ∪ os)).
Proof.
  intros Hi Hneg Hnegp Hfresh Hf1 Hf2. split.
  - pose proof (Init_winsock_cases a d os Hi Hfresh) as Hc.
    pose proof (Init_winsock_keeps_uninit a d os Hi) as Hk.
    destruct (Init_winsock a d os) as [[status d'] os'].
    destruct (answers_ok a); simpl in *.
    + inversion Hc; subst. repeat split; try done.
      destruct Hfresh as (F1 & F2 & F3 & N1 & N2 & N3). set_solver.
    + inversion Hc; subst. repeat split; try done. by apply Hk.
  - unfold Init_unix. rewrite Hi.
    destruct (pipe_ret <? 0); repeat split; try done.
    set_solver.
Qed.

Lemma loop_drains d :
  m_init d = true -> select_accurate -> select_succeeds ->
  forall fuel c, (buffered c < fuel)%nat ->
    ClearAbortSignal_loop fuel d c =
      Returns 0 (mkChannel 0 (reads c + buffered c) (S (selects c + buffered c))).
Proof.
  intros Hi Hacc Hok. induction fuel as [|fuel IH]; intros [n r k] Hlt; simpl in *; [lia|].
  pose proof (Hacc k n (Hok k n)) as Hset. pose proof (Hok k n) as Hst.
  destruct (RTPSelect k n) as [status isset]; simpl in *.
  rewrite (proj2 (Z.ltb_ge _ _) Hst). subst isset.
  destruct n as [|n]; simpl.
  - do 2 f_equal; lia.
  - unfold ReadSignallingByte. rewrite Hi; simpl.
    rewrite IH by (simpl; lia). simpl. do 2 f_equal; lia.
Qed.

Lemma loop_returns d :
  m_init d = true -> select_accurate ->
  forall fuel c, (buffered c < fuel)%nat ->
    exists s c', ClearAbortSignal_loop fuel d c = Returns s c' /\
      (reads c <= reads c')%nat /\
      (reads c' + buffered c' = reads c + buffered c)%nat /\
      (selects c' = S (selects c + (reads c' - reads c)))%nat /\
      (s = 0 /\ buffered c' = O /\ 0 <= fst (RTPSelect (pred (selects c')) O) \/
       s < 0 /\ s = fst (RTPSelect (pred (selects c')) (buffered c'))).
Proof.
  intros Hi Hacc. induction fuel as [|fuel IH]; intros [n r k] Hlt; simpl in *; [lia|].
  pose proof (Hacc k n) as Hset.
  destruct (RTPSelect k n) as [status isset] eqn:Hsel; simpl in *.
  destruct (status <? 0) eqn:Hs.
  { apply Z.ltb_lt in Hs. eexists _, _. split; [done|]. simpl.
    repeat split; try lia. right. rewrite Hsel. done. }
  apply Z.ltb_ge in Hs. rewrite (Hset Hs).
  destruct n as [|n]; simpl.
  - eexists _, _. split; [done|]. simpl. repeat split; try lia.
    left. rewrite Hsel. done.
  - unfold ReadSignallingByte. rewrite Hi; simpl.
    destruct (IH (mkChannel n (S r) (S k))) as (s & c' & -> & Hr & Hb & Hk & Hres); [simpl; lia|].
    simpl in *. eexists _, _. split; [done|]. repeat split; try lia.
Qed.

(** C5.  On an initialised channel holding [n] bytes, [ClearAbortSignal]
    returns (it never sits in a [read] of an empty channel, and [n+1]
    iterations are enough).  It returns either 0, and then the channel
    is empty, or a negative status, and then that status is the one the
    last readiness check returned.  Each iteration but the last read
    exactly one byte.  When no readiness check fails it makes [n] reads
    and [n+1] checks and returns 0; run again right after, it makes one
    check, reads nothing and returns 0. *)
Theorem ClearAbortSignal_drains (d : RTPAbortDescriptors) (c : channel) (fuel : nat) :
  m_init d = true -> select_accurate -> (buffered c < fuel)%nat ->
  (exists s c', ClearAbortSignal fuel d c = Returns s c' /\
      (reads c <= reads c')%nat /\
      (reads c' + buffered c' = reads c + buffered c)%nat /\
      (selects c' = S (selects c + (reads c' - reads c)))%nat /\
      (s = 0 /\ buffered c' = O \/
       s < 0 /\ s = fst (RTPSelect (pred (selects c')) (buffered c')))) /\
  (select_succeeds ->
     let c1 := mkChannel 0 (reads c + buffered c) (S (selects c + buffered c)) in
     ClearAbortSignal fuel d c = Returns 0 c1 /\
     ClearAbortSignal fuel d c1 = Returns 0 (mkChannel 0 (reads c1) (S (selects c1)))).
Proof.
  intros Hi Hacc Hlt. unfold ClearAbortSignal. rewrite Hi; simpl. split.
  - destruct (loop_returns d Hi Hacc fuel c Hlt) as (s & c' & Heq & Hr & Hb & Hk & Hres).
    exists s, c'. repeat split; try done.
    destruct Hres as [(-> & Hz & _)|Hres]; [by left|by right].
  - intros Hok. split.
    + by apply loop_drains.
    + rewrite loop_drains; try done; simpl; [|lia].
      do 2 f_equal; lia.
Qed.

(** ** The life cycle of the pair *)



(** X1.  A successful [Init] followed by [Destroy] gives back the
    object as the constructor made it and the set of open handles as it
    was; on the way a second [Init] is refused with
    [ERR_RTP_ABORTDESC_ALREADYINIT] and opens nothing, and a second
    [Destroy] does nothing.  For the socket-pair variant and for the
    pipe variant. *)
Theorem Init_Destroy_restores
    (a : winsock_answers) (pipe_ret : Z) (fds : Z * Z) (os : gset Z) :
  answers_ok a = true -> fresh_answers a os ->
  0 <= pipe_ret -> fst fds ∉ os -> snd fds ∉ os ->
  (exists d1 os1,
     Init_winsock a RTPAbortDescriptors_new os = (0, d1, os1) /\
     Init_winsock a d1 os1 = (ERR_RTP_ABORTDESC_ALREADYINIT, d1, os1) /\
     Destroy d1 os1 = (RTPAbortDescriptors_new, os) /\
     Destroy RTPAbortDescriptors_new os = (RTPAbortDescriptors_new, os)) /\
  (exists d1 os1,
     Init_unix pipe_ret fds RTPAbortDescriptors_new os = (0, d1, os1) /\
     Init_unix pipe_ret fds d1 os1 = (ERR_RTP_ABORTDESC_ALREADYINIT, d1, os1) /\
     Destroy d1 os1 = (RTPAbortDescriptors_new, os) /\
     Destroy RTPAbortDescriptors_new os = (RTPAbortDescriptors_new, os)).
Proof.
  intros Hok Hfresh Hp Hf1 Hf2. split.
  - pose proof (Init_winsock_cases a RTPAbortDescriptors_new os eq_refl Hfresh) as Hc.
    rewrite Hok in Hc. eexists _, _. split; [exact Hc|].
    destruct Hfresh as (F1 & F2 & F3 & N1 & N2 & N3).
    split; [done|]. split; [|done].
    unfold Destroy, RTPAbortDescriptors_new, RTPCLOSE. cbn. f_equal. set_solver.
  - unfold Init_unix at 1. cbn [m_init RTPAbortDescriptors_new].
    rewrite (proj2 (Z.ltb_ge _ _)) by done.
    eexists _, _. split; [done|]. split; [done|]. split; [|done].
    unfold Destroy, RTPAbortDescriptors_new, RTPCLOSE. cbn. f_equal. set_solver.
Qed.


End Model.

(** A run of the socket-pair [Init] in which [accept] fails: handles 3
    and 4 were opened on the way and are closed again. *)
Definition accept_fails : winsock_answers := mkAnswers 3 0 0 4 0 0 0 (-1).

Lemma Init_failure_rolls_back_witness :
  (let '(status, d', os') :=
     Init_winsock (-1) (-2) (-3) accept_fails (RTPAbortDescriptors_new (-1)) ∅ in
   if answers_ok (-1) accept_fails
   then status = 0 /\ m_init d' = true /\
        m_descriptors d' = (ans_socket_conn accept_fails, ans_accept accept_fails) /\
        os' = {[ans_socket_conn accept_fails]} ∪ ({[ans_accept accept_fails]} ∪ ∅) /\
        (ans_socket_listen accept_fails ∉ os')
   else status = -3 /\ status < 0 /\ m_init d' = false /\ os' = ∅) /\
  (let '(status, d', os') := Init_unix (-2) (-4) (-1) (5, 6) (RTPAbortDescriptors_new (-1)) ∅ in
   if -1 <? 0
   then status = -4 /\ status < 0 /\
        m_init d' = false /\ d' = RTPAbortDescriptors_new (-1) /\ os' = ∅
   else status = 0 /\ m_init d' = true /\ m_descriptors d' = (5, 6) /\
        os' = {[fst (5, 6)]} ∪ ({[snd (5, 6)]} ∪ ∅)).
Proof.
  apply (Init_failure_rolls_back (-1) (-2) (-3) (-4) accept_fails (-1) (5, 6)
           (RTPAbortDescriptors_new (-1)) ∅).
  - reflexivity.
  - lia.
  - lia.
  - repeat split; simpl; first [apply not_elem_of_empty | lia].
  - apply not_elem_of_empty.
  - apply not_elem_of_empty.
Defined.

(** A select primitive that never fails and reports readiness as it is. *)
Definition accurate_select (k n : nat) : Z * bool :=
  (if Nat.eqb n 0 then 0 else 1, negb (Nat.eqb n 0)).

Lemma ClearAbortSignal_drains_witness :
  let d := mkAbortDesc (5, 6) true in
  let c := mkChannel 3 0 0 in
  (exists s c', ClearAbortSignal (-5) accurate_select 4 d c = Returns s c' /\
      (reads c <= reads c')%nat /\
      (reads c' + buffered c' = reads c + buffered c)%nat /\
      (selects c' = S (selects c + (reads c' - reads c)))%nat /\
      (s = 0 /\ buffered c' = O \/
       s < 0 /\ s = fst (accurate_select (pred (selects c')) (buffered c')))) /\
  (select_succeeds accurate_select ->
     let c1 := mkChannel 0 (reads c + buffered c) (S (selects c + buffered c)) in
     ClearAbortSignal (-5) accurate_select 4 d c = Returns 0 c1 /\
     ClearAbortSignal (-5) accurate_select 4 d c1 =
       Returns 0 (mkChannel 0 (reads c1) (S (selects c1)))).
Proof.
  apply (ClearAbortSignal_drains (-5) accurate_select (mkAbortDesc (5, 6) true)
           (mkChannel 3 0 0) 4).
  - reflexivity.
  - intros k n _. reflexivity.
  - simpl. lia.
Defined.

(** Three bytes buffered: three reads, four readiness checks. *)
Example ClearAbortSignal_three_bytes :
  ClearAbortSignal (-5) accurate_select 10 (mkAbortDesc (5, 6) true) (mkChannel 3 0 0)
  = Returns 0 (mkChannel 0 3 4).
Proof. reflexivity. Qed.

(** A run of the socket-pair [Init] in which every step succeeds. *)
Definition all_succeed : winsock_answers := mkAnswers 3 0 0 4 0 0 0 5.

Lemma Init_Destroy_restores_witness :
  (exists d1 os1,
     Init_winsock (-1) (-2) (-3) all_succeed (RTPAbortDescriptors_new (-1)) ∅ = (0, d1, os1) /\
     Init_winsock (-1) (-2) (-3) all_succeed d1 os1 = (-2, d1, os1) /\
     Destroy (-1) d1 os1 = (RTPAbortDescriptors_new (-1), ∅) /\
     Destroy (-1) (RTPAbortDescriptors_new (-1)) ∅ = (RTPAbortDescriptors_new (-1), ∅)) /\
  (exists d1 os1,
     Init_unix (-2) (-4) 0 (5, 6) (RTPAbortDescriptors_new (-1)) ∅ = (0, d1, os1) /\
     Init_unix (-2) (-4) 0 (5, 6) d1 os1 = (-2, d1, os1) /\
     Destroy (-1) d1 os1 = (RTPAbortDescriptors_new (-1), ∅) /\
     Destroy (-1) (RTPAbortDescriptors_new (-1)) ∅ = (RTPAbortDescriptors_new (-1), ∅)).
Proof.
  apply (Init_Destroy_restores (-1) (-2) (-3) (-4) all_succeed 0 (5, 6) ∅).
  - reflexivity.
  - repeat split; simpl; first [apply not_elem_of_empty | lia].
  - lia.
  - apply not_elem_of_empty.
  - apply not_elem_of_empty.
Defined.


End AbortDesc.

(* ===================================================================== *)
(** * rtptimeutilities.h                                                 *)
(* ===================================================================== *)

Module TimeUtil.

Set Warnings "-inexact-float".

(** ** The C++ scalar types the header computes with *)

(** [double] is IEEE 754 binary64, the kernel's primitive [float].
    A decimal literal denotes the nearest double, in C++ and here. *)

Definition two32 : Z := Eval compute in 2 ^ 32.
Definition two63 : Z := Eval compute in 2 ^ 63.
Definition two64 : Z := Eval compute in 2 ^ 64.

(** Integer to [double]: the nearest double (ties to even); exact below
    [2^53]. *)
Definition Z2F (z : Z) : float :=
  if Z.abs z <? two63
  then (if z <? 0 then PrimFloat.opp (of_uint63 (of_Z (- z))) else of_uint63 (of_Z z))
  else SF2Prim (binary_normalize prec emax z 0 false).

(** The integer part of a finite double (rounding toward zero). *)
Definition trunc (x : float) : option Z :=
  match Prim2SF x with
  | S754_zero _ => Some 0
  | S754_finite s m e =>
      let a := if 0 <=? e then Z.shiftl (Zpos m) e else Z.shiftr (Zpos m) (- e) in
      Some (if s then - a else a)
  | S754_infinity _ | S754_nan => None
  end.

(** [double] to integer.  C++ truncates toward zero and leaves the
    conversion undefined when the integer part does not fit the target
    type.  The model follows x86-64 as GCC and Clang compile it:
    [cvttsd2si] to a 64-bit register, which yields the "integer
    indefinite" value [-2^63] for a NaN and for whatever does not fit 64
    bits; a 32-bit target keeps the low 32 bits. *)
Definition cvttsd2si (x : float) : Z :=
  match trunc x with
  | Some z => if (- two63 <=? z) && (z <? two63) then z else - two63
  | None => - two63
  end.

(** [(int64_t)x] *)
Definition cast_i64 (x : float) : Z := cvttsd2si x.

(** [(uint32_t)x] *)
Definition cast_u32 (x : float) : Z := cvttsd2si x mod two32.

(** [(uint64_t)x]: below [2^63] one [cvttsd2si]; from [2^63] on the
    conversion of [x - 2^63] with the top bit flipped. *)
Definition cast_u64 (x : float) : Z :=
  if (9223372036854775808 <=? x)%float
  then (cvttsd2si (x - 9223372036854775808)%float + two63) mod two64
  else cvttsd2si x mod two64.

(** [#define RTP_NTPTIMEOFFSET 2208988800UL] *)
Definition RTP_NTPTIMEOFFSET : Z := 2208988800.

(** [class RTPNTPTime { uint32_t msw,lsw; }] *)
Record RTPNTPTime := mkNTP { GetMSW : Z; GetLSW : Z }.

(** [class RTPTime { double m_t; }] *)
Record RTPTime := mkTime { m_t : float }.

(** [double GetDouble() const] *)
Definition GetDouble (t : RTPTime) : float := m_t t.

(** [bool IsZero() const] *)
Definition IsZero (t : RTPTime) : bool := (m_t t =? 0)%float.

(** [RTPTime::RTPTime(int64_t seconds, uint32_t microseconds)] *)
Definition RTPTime_of_parts (seconds microseconds : Z) : RTPTime :=
  if 0 <=? seconds
  then mkTime (Z2F seconds + 1e-6 * Z2F microseconds)%float
  else
    let possec := - seconds in
    mkTime (- (Z2F possec + 1e-6 * Z2F microseconds))%float.

(** The microseconds [RTPTime(RTPNTPTime)] computes from the least
    significant word:
    [x = (double)lsw; x /= (65536.0*65536.0); x *= 1000000.0;
     microsec = (uint32_t)x]. *)
Definition microsec_of_lsw (lsw : Z) : Z :=
  let x := Z2F lsw in
  let x := (x / (65536.0 * 65536.0))%float in
  let x := (x * 1000000.0)%float in
  cast_u32 x.

(** [RTPTime::RTPTime(RTPNTPTime ntptime)] *)
Definition RTPTime_of_NTP (ntptime : RTPNTPTime) : RTPTime :=
  if GetMSW ntptime <? RTP_NTPTIMEOFFSET
  then mkTime 0%float
  else
    let sec := (GetMSW ntptime - RTP_NTPTIMEOFFSET) mod two32 in
    let microsec := microsec_of_lsw (GetLSW ntptime) in
    mkTime (Z2F sec + 1e-6 * Z2F microsec)%float.

(** [int64_t RTPTime::GetSeconds() const] *)
Definition GetSeconds (t : RTPTime) : Z := cast_i64 (m_t t).

(** [uint32_t RTPTime::GetMicroSeconds() const] *)
Definition GetMicroSeconds (t : RTPTime) : Z :=
  let microsec :=
    if (0 <=? m_t t)%float
    then
      let sec := cast_i64 (m_t t) in
      cast_u32 (1e6 * (m_t t - Z2F sec) + 0.5)%float
    else
      let sec := cast_i64 (- m_t t)%float in
      cast_u32 (1e6 * ((- m_t t) - Z2F sec) + 0.5)%float in
  if 1000000 <=? microsec then 999999 else microsec.

(** The least significant word [GetNTPTime] computes from the
    microseconds:
    [x = microsec/1000000.0; x *= (65536.0*65536.0); lsw = (uint32_t)x]. *)
Definition lsw_of_microsec (microsec : Z) : Z :=
  let x := (Z2F microsec / 1000000.0)%float in
  let x := (x * (65536.0 * 65536.0))%float in
  cast_u32 x.

(** [RTPNTPTime RTPTime::GetNTPTime() const] *)
Definition GetNTPTime (t : RTPTime) : RTPNTPTime :=
  let sec := cast_u32 (m_t t) in
  let microsec := cast_u32 ((m_t t - Z2F sec) * 1e6)%float in
  let msw := (sec + RTP_NTPTIMEOFFSET) mod two32 in
  let lsw := lsw_of_microsec microsec in
  mkNTP msw lsw.

(** [operator-=], [operator+=] and the comparisons. *)
Definition sub_assign (a b : RTPTime) : RTPTime := mkTime (m_t a - m_t b)%float.
Definition add_assign (a b : RTPTime) : RTPTime := mkTime (m_t a + m_t b)%float.
Definition lt (a b : RTPTime) : bool := (m_t a <? m_t b)%float.
Definition gt (a b : RTPTime) : bool := (m_t b <? m_t a)%float.
Definition le (a b : RTPTime) : bool := (m_t a <=? m_t b)%float.
Definition ge (a b : RTPTime) : bool := (m_t b <=? m_t a)%float.

(** ** Clocks *)

(** [struct timespec] *)
Record timespec := mkTimespec { tv_sec : Z; tv_nsec : Z }.

(** [RTPTime_timespecToDouble] *)
Definition RTPTime_timespecToDouble (ts : timespec) : float :=
  (Z2F (tv_sec ts) + 1e-9 * Z2F (tv_nsec ts))%float.

(** What the two clocks read while one call of [CurrentTime] runs. *)
Record clocks := mkClocks { CLOCK_REALTIME : timespec; CLOCK_MONOTONIC : timespec }.

(** The function's two [static] variables. *)
Record clock_state := mkClockState { s_initialized : bool; s_startOffet : float }.

Definition clock_state_init : clock_state := mkClockState false 0%float.

(** [RTPTime::CurrentTime()], [RTP_HAVE_CLOCK_GETTIME] variant. *)
Definition CurrentTime (st : clock_state) (now : clocks) : RTPTime * clock_state :=
  if negb (s_initialized st) then
    let tSys := RTPTime_timespecToDouble (CLOCK_REALTIME now) in
    let tMono := RTPTime_timespecToDouble (CLOCK_MONOTONIC now) in
    (mkTime tSys, mkClockState true (tSys - tMono)%float)
  else
    let tMono0 := RTPTime_timespecToDouble (CLOCK_MONOTONIC now) in
    (mkTime (tMono0 + s_startOffet st)%float, st).

(** Successive calls, each with the clock readings of its moment. *)
Fixpoint CurrentTime_calls (st : clock_state) (samples : list clocks) : list RTPTime :=
  match samples with
  | [] => []
  | now :: rest =>
      let '(t, st') := CurrentTime st now in
      t :: CurrentTime_calls st' rest
  end.

(** ** Sleeping *)

Definition ns_of (ts : timespec) : Z := tv_sec ts * 1000000000 + tv_nsec ts.

Definition timespec_of_ns (ns : Z) : timespec :=
  mkTimespec (ns / 1000000000) (ns mod 1000000000).

Inductive errno_t := EINTR | EINVAL.

(** [errno == EINTR] *)
Definition is_EINTR (err : option errno_t) : bool :=
  match err with Some EINTR => true | _ => false end.

(** What one [nanosleep(&req,&rem)] does: the value returned, [errno]
    when it is -1, the content of [rem] after the call and the time
    slept, in nanoseconds.  [signal] is the time after which a signal
    handler runs, if one does.  An ill-formed request is refused; a
    signal arriving before the request has elapsed cuts the sleep short
    and stores what remains in [rem]; otherwise the whole request is
    slept and [rem] is left as it was. *)
Definition nanosleep (req rem : timespec) (signal : option Z)
  : Z * option errno_t * timespec * Z :=
  if (tv_sec req <? 0) || (tv_nsec req <? 0) || (999999999 <? tv_nsec req)
  then (-1, Some EINVAL, rem, 0)
  else
    match signal with
    | Some e =>
        if (0 <=? e) && (e <? ns_of req)
        then (-1, Some EINTR, timespec_of_ns (ns_of req - e), e)
        else (0, None, rem, ns_of req)
    | None => (0, None, rem, ns_of req)
    end.

(** The [do ... while (ret == -1 && errno == EINTR)] loop of [Wait].
    [signals] are the delays after which the signals of the run arrive,
    one per call of [nanosleep]; after the last no signal arrives.  The
    result is the time slept and the number of calls made. *)
Fixpoint Wait_loop (req rem : timespec) (signals : list Z) (slept : Z) (calls : nat)
  : Z * nat :=
  let '(ret, err, rem, dt) := nanosleep req rem (head signals) in
  let req := rem in
  match signals with
  | _ :: later =>
      if (ret =? -1) && is_EINTR err
      then Wait_loop req rem later (slept + dt) (S calls)
      else (slept + dt, S calls)
  | [] => (slept + dt, S calls)
  end.

(** The request [Wait] builds from the delay:
    [uint64_t sec = (uint64_t)delay.m_t;
     uint64_t nanosec = (uint32_t)(1e9*(delay.m_t-(double)sec));
     req.tv_sec = (time_t)sec; req.tv_nsec = ((long)nanosec);] *)
Definition Wait_request (delay : RTPTime) : timespec :=
  let sec := cast_u64 (m_t delay) in
  let nanosec := cast_u32 (1e9 * (m_t delay - Z2F sec))%float in
  mkTimespec (if sec <? two63 then sec else sec - two64) nanosec.

(** [RTPTime::Wait(const RTPTime &delay)]; [rem0] is what the local
    [rem] holds before the first call. *)
Definition Wait (delay : RTPTime) (rem0 : timespec) (signals : list Z) : Z * nat :=
  if (m_t delay <=? 0)%float then (0, O)
  else Wait_loop (Wait_request delay) rem0 signals 0 O.

(** ** Exact comparison *)

(** A finite double as an integer multiple of [2^-1074], the spacing of
    the smallest doubles. *)
Definition scaled (x : float) : option Z :=
  match Prim2SF x with
  | S754_zero _ => Some 0
  | S754_finite s m e =>
      let a := Z.pos m * 2 ^ (e + 1074) in
      Some (if s then - a else a)
  | S754_infinity _ | S754_nan => None
  end.

(** [|a - b| <= num/den] microseconds, decided on the exact values. *)
Definition within_usec (num den : Z) (a b : float) : bool :=
  match scaled a, scaled b with
  | Some p, Some q => Z.abs (p - q) * 1000000 * den <=? num * 2 ^ 1074
  | _, _ => false
  end.

(** ** Values of positive doubles *)

(** [pos_SF f v]: [f] is a positive double between [2^-52] and [2^65],
    worth [v] units of [2^-208]. *)
Definition pos_SF (f : spec_float) (v : Z) : Prop :=
  exists m e,
    f = S754_finite false m e /\ Zdigits2 (Z.pos m) = 53 /\
    -104 <= e <= 12 /\ v = Z.pos m * 2 ^ (e + 208).

Definition pos_double (x : float) (v : Z) : Prop := pos_SF (Prim2SF x) v.

(** [near v X]: [v] is [X] with a relative error of at most [2^-52],
    which is what one rounding to 53 bits can do. *)
Definition near (v X : Z) : Prop := (v - X) * 2 ^ 52 <= X /\ (X - v) * 2 ^ 52 <= X.

(** ** Properties *)

Lemma cast_u32_range x : 0 <= cast_u32 x < two32.
Proof. unfold cast_u32. apply Z.mod_pos_bound. reflexivity. Qed.


(** A fractional part that rounds up to a full second is capped; the
    sign is dropped. *)
Example GetMicroSeconds_examples :
  GetMicroSeconds (mkTime 0.9999996) = 999999 /\
  GetMicroSeconds (mkTime 1.5) = 500000 /\
  GetMicroSeconds (mkTime (-1.25)) = 250000 /\
  GetMicroSeconds (mkTime 0.4999995) = 500000.
Proof. vm_compute. repeat split. Qed.

Lemma CurrentTime_calls_initialized (offset : float) (samples : list clocks) :
  CurrentTime_calls (mkClockState true offset) samples
  = map (fun now => mkTime (RTPTime_timespecToDouble (CLOCK_MONOTONIC now) + offset)%float)
        samples.
Proof.
  induction samples as [|now rest IH]; simpl; [reflexivity|]. by rewrite IH.
Qed.

(** C3.  The first call of [CurrentTime] reads both clocks, keeps
    [offset = realtime - monotonic] and returns the realtime reading;
    every later call returns the monotonic reading of its moment plus
    that offset.  So what later calls return depends on the monotonic
    clock alone: runs that differ only in their later realtime readings
    return the same times. *)
Theorem CurrentTime_anchored (first : clocks) (rest : list clocks) :
  let tSys := RTPTime_timespecToDouble (CLOCK_REALTIME first) in
  let offset := (tSys - RTPTime_timespecToDouble (CLOCK_MONOTONIC first))%float in
  CurrentTime clock_state_init first = (mkTime tSys, mkClockState true offset) /\
  CurrentTime_calls clock_state_init (first :: rest)
  = mkTime tSys ::
    map (fun now => mkTime (RTPTime_timespecToDouble (CLOCK_MONOTONIC now) + offset)%float)
        rest /\
  (forall rest' : list clocks,
     map CLOCK_MONOTONIC rest' = map CLOCK_MONOTONIC rest ->
     CurrentTime_calls clock_state_init (first :: rest')
     = CurrentTime_calls clock_state_init (first :: rest)).
Proof.
  cbv zeta. split; [reflexivity|]. split.
  - simpl. by rewrite CurrentTime_calls_initialized.
  - intros rest' Hmono. simpl. rewrite !CurrentTime_calls_initialized. f_equal.
    revert rest' Hmono. induction rest as [|now rest IH]; intros [|now' rest'] Hmono;
      simpl in *; try done.
    inversion Hmono as [[Hhd Htl]]. rewrite Hhd. f_equal. by apply IH.
Qed.

(** The wall clock jumps back by years between the calls: the second
    result is one and a quarter second after the first all the same. *)
Example CurrentTime_ignores_wallclock_jump :
  CurrentTime_calls clock_state_init
    [mkClocks (mkTimespec 1700000000 500000000) (mkTimespec 100 0);
     mkClocks (mkTimespec 5 0) (mkTimespec 101 250000000)]
  = [mkTime 1700000000.5; mkTime 1700000001.75].
Proof. vm_compute. reflexivity. Qed.

Definition valid_request (req : timespec) : Prop :=
  0 <= tv_sec req /\ 0 <= tv_nsec req <= 999999999.

Lemma ns_of_timespec_of_ns (ns : Z) : ns_of (timespec_of_ns ns) = ns.
Proof.
  unfold ns_of, timespec_of_ns; simpl.
  pose proof (Z.div_mod ns 1000000000). lia.
Qed.

Lemma valid_timespec_of_ns (ns : Z) : 0 <= ns -> valid_request (timespec_of_ns ns).
Proof.
  intros Hns. unfold valid_request, timespec_of_ns; simpl.
  pose proof (Z.mod_pos_bound ns 1000000000).
  pose proof (Z.div_pos ns 1000000000). lia.
Qed.

Lemma nanosleep_valid (req rem : timespec) (signal : option Z) :
  valid_request req ->
  (exists e, signal = Some e /\ 0 <= e < ns_of req /\
     nanosleep req rem signal = (-1, Some EINTR, timespec_of_ns (ns_of req - e), e)) \/
  nanosleep req rem signal = (0, None, rem, ns_of req).
Proof.
  intros (Hs & Hn1 & Hn2). unfold nanosleep.
  rewrite (proj2 (Z.ltb_ge _ _) Hs), (proj2 (Z.ltb_ge _ _) Hn1); simpl.
  replace (999999999 <? tv_nsec req) with false by (symmetry; apply Z.ltb_ge; lia).
  destruct signal as [e|]; [|by right].
  destruct (0 <=? e) eqn:E1; simpl; [|by right].
  destruct (e <? ns_of req) eqn:E2; [|by right].
  apply Z.leb_le in E1. apply Z.ltb_lt in E2. left. exists e. done.
Qed.

Lemma Wait_loop_total (signals : list Z) :
  forall req rem slept calls, valid_request req ->
    exists n, Wait_loop req rem signals slept calls = (slept + ns_of req, n) /\
              (calls < n <= calls + S (length signals))%nat.
Proof.
  induction signals as [|e later IH]; intros req rem slept calls Hreq.
  - simpl. destruct (nanosleep_valid req rem None Hreq) as [(e & He & _)| ->]; [done|].
    exists (S calls). split; [done|lia].
  - cbn [Wait_loop head].
    destruct (nanosleep_valid req rem (Some e) Hreq) as [(e' & He & Hlt & Heq)|Heq];
      rewrite Heq.
    + inversion He; subst e'. simpl.
      destruct (IH (timespec_of_ns (ns_of req - e)) (timespec_of_ns (ns_of req - e))
                  (slept + e) (S calls)) as (n & -> & Hn).
      { apply valid_timespec_of_ns. lia. }
      exists n. rewrite ns_of_timespec_of_ns. split; [f_equal; lia|simpl; lia].
    + simpl. exists (S calls). split; [done|lia].
Qed.



(** One second and a half, cut short after 0.3 s and again after 0.2 s:
    three calls, 1.5 s slept.  A delay of zero or less: no call. *)
Example Wait_examples :
  Wait_request (mkTime 1.5) = mkTimespec 1 500000000 /\
  Wait (mkTime 1.5) (mkTimespec 0 0) [300000000; 200000000] = (1500000000, 3%nat) /\
  Wait (mkTime 1.5) (mkTimespec 0 0) [] = (1500000000, 1%nat) /\
  Wait (mkTime 0) (mkTimespec 0 0) [5] = (0, O) /\
  Wait (mkTime (-2.5)) (mkTimespec 0 0) [5] = (0, O).
Proof. vm_compute. repeat split. Qed.

(** ** Exact double arithmetic *)

(** The operations of the two NTP conversions that lose nothing are
    followed through the kernel's specification of binary64. *)

Lemma digits2_pos_size p : digits2_pos p = Pos.size p.
Proof. induction p; simpl; congruence. Qed.

Lemma Zdigits2_log2 m : 0 < m -> Zdigits2 m = Z.log2 m + 1.
Proof.
  destruct m as [|p|p]; try lia. intros _.
  destruct p; simpl; rewrite ?digits2_pos_size; lia.
Qed.

Lemma Zdigits2_spec m : 0 < m -> 2 ^ (Zdigits2 m - 1) <= m < 2 ^ Zdigits2 m.
Proof.
  intros Hm. rewrite (Zdigits2_log2 m Hm).
  replace (Z.log2 m + 1 - 1) with (Z.log2 m) by lia.
  replace (Z.log2 m + 1) with (Z.succ (Z.log2 m)) by lia.
  apply Z.log2_spec, Hm.
Qed.

Lemma Zdigits2_unique m d : 2 ^ (d - 1) <= m < 2 ^ d -> 0 < d -> Zdigits2 m = d.
Proof.
  intros Hm Hd.
  assert (0 < m) by (pose proof (Z.pow_pos_nonneg 2 (d - 1)); lia).
  rewrite Zdigits2_log2 by done.
  rewrite (Z.log2_unique m (d - 1)); [lia|lia|].
  replace (Z.succ (d - 1)) with d by lia. done.
Qed.

Lemma Zdigits2_pos m : 0 < m -> 0 < Zdigits2 m.
Proof. intros Hm. rewrite Zdigits2_log2 by done. pose proof (Z.log2_nonneg m). lia. Qed.

Lemma Zdigits2_shift m n : 0 < m -> 0 <= n -> Zdigits2 (m * 2 ^ n) = Zdigits2 m + n.
Proof.
  intros Hm Hn.
  assert (0 < 2 ^ n) by (apply Z.pow_pos_nonneg; lia).
  rewrite !Zdigits2_log2 by nia.
  rewrite Z.log2_mul_pow2 by lia. lia.
Qed.

Lemma Zdigits2_le m n : 0 < m -> m < 2 ^ n -> Zdigits2 m <= n.
Proof.
  intros Hm Hlt. pose proof (Zdigits2_spec m Hm) as [Hlo _].
  pose proof (Zdigits2_pos m Hm).
  destruct (Z_le_gt_dec (Zdigits2 m) n) as [|Hgt]; [done|].
  assert (2 ^ n <= 2 ^ (Zdigits2 m - 1)) by (apply Z.pow_le_mono_r; lia). lia.
Qed.

(** Shifting an exact mantissa right by [n] bits that are all zero. *)
Lemma shr_1_even k : 0 <= k ->
  shr_1 (Build_shr_record (k * 2) false false) = Build_shr_record k false false.
Proof.
  intros Hk. destruct k as [|p|p]; [done| |lia].
  replace (Z.pos p * 2) with (Z.pos p~0) by lia. done.
Qed.

Lemma iter_shr_1_exact p : forall k, 0 <= k ->
  SpecFloat.iter_pos shr_1 p (Build_shr_record (k * 2 ^ Z.pos p) false false)
  = Build_shr_record k false false.
Proof.
  induction p as [p IH|p IH|]; intros k Hk; cbn [SpecFloat.iter_pos].
  - replace (k * 2 ^ Z.pos p~1) with (k * 2 ^ Z.pos p * 2 ^ Z.pos p * 2).
    + assert (0 <= 2 ^ Z.pos p) by (apply Z.pow_nonneg; lia).
      rewrite shr_1_even by nia. rewrite IH by nia. apply IH, Hk.
    + replace (Z.pos p~1) with (Z.pos p + Z.pos p + 1) by lia.
      rewrite !Z.pow_add_r by lia. change (2 ^ 1) with 2. lia.
  - replace (k * 2 ^ Z.pos p~0) with (k * 2 ^ Z.pos p * 2 ^ Z.pos p).
    + assert (0 <= 2 ^ Z.pos p) by (apply Z.pow_nonneg; lia).
      rewrite IH by nia. apply IH, Hk.
    + replace (Z.pos p~0) with (Z.pos p + Z.pos p) by lia.
      rewrite Z.pow_add_r by lia. lia.
  - change (2 ^ 1) with 2. apply shr_1_even, Hk.
Qed.

Lemma shr_exact k e n : 0 <= k -> 0 <= n ->
  shr (Build_shr_record (k * 2 ^ n) false false) e n
  = (Build_shr_record k false false, e + n).
Proof.
  intros Hk Hn. destruct n as [|p|p]; [|cbn [shr]|lia].
  - cbn [shr]. rewrite Z.pow_0_r, Z.mul_1_r, Z.add_0_r. done.
  - rewrite iter_shr_1_exact by done. done.
Qed.

(** Rounding a mantissa [k * 2^n] whose [k] already has the width the
    format gives it: nothing is lost. *)
Lemma binary_round_aux_exact s m k e n :
  m = k * 2 ^ n -> 0 < k -> 0 <= n ->
  fexp prec emax (Zdigits2 k + n + e) = e + n ->
  e + n <= emax - prec ->
  binary_round_aux prec emax s m e loc_Exact = S754_finite s (Z.to_pos k) (e + n).
Proof.
  intros -> Hk Hn Hf He. unfold binary_round_aux, shr_fexp.
  rewrite Zdigits2_shift by done. rewrite Hf.
  replace (e + n - e) with n by lia.
  cbn [shr_record_of_loc]. rewrite shr_exact by lia.
  cbn [shr_m loc_of_shr_record round_nearest_even].
  replace (Zdigits2 k + (e + n)) with (Zdigits2 k + n + e) by lia. rewrite Hf.
  rewrite Z.sub_diag. cbn [shr shr_m].
  destruct k as [|p|p]; try lia.
  apply Z.leb_le in He. rewrite He. done.
Qed.

Lemma iter_xO p q : Z.pos (Pos.iter xO p q) = Z.pos p * 2 ^ Z.pos q.
Proof.
  induction q as [|q IH] using Pos.peano_ind.
  - cbn [Pos.iter]. lia.
  - rewrite Pos.iter_succ, Pos2Z.inj_xO, IH, Pos2Z.inj_succ, Z.pow_succ_r by lia. lia.
Qed.

Lemma fexp_normal e : -1021 <= e -> fexp prec emax e = e - 53.
Proof. intros He. unfold fexp, emin, prec, emax. lia. Qed.

(** An integer of at most 53 bits is a double: the mantissa is the
    integer shifted left to 53 bits. *)
Lemma binary_round_exact s p :
  let d := Zdigits2 (Z.pos p) in
  d <= 53 ->
  binary_round prec emax s p 0
  = S754_finite s (Z.to_pos (Z.pos p * 2 ^ (53 - d))) (d - 53).
Proof.
  intros d Hd. assert (0 < d) by (apply Zdigits2_pos; lia).
  unfold binary_round, shl_align. change (Z.pos (digits2_pos p)) with d.
  rewrite Z.add_0_r, fexp_normal, Z.sub_0_r by lia.
  destruct (d - 53) as [|q|q] eqn:E; [|lia|].
  - replace (53 - d) with 0 by lia.
    rewrite (binary_round_aux_exact s (Z.pos p) (Z.pos p) 0 0);
      rewrite ?fexp_normal; unfold prec, emax; fold d; try lia.
    rewrite Z.pow_0_r, Z.mul_1_r. done.
  - replace (53 - d) with (Z.pos q) by lia.
    rewrite (binary_round_aux_exact s _ (Z.pos p * 2 ^ Z.pos q) (Z.neg q) 0);
      rewrite ?iter_xO, ?Zdigits2_shift, ?fexp_normal; unfold prec, emax; fold d; try lia.
    rewrite Z.add_0_r. done.
Qed.

Lemma Z2F_exact z : 0 < z < 2 ^ 53 ->
  Prim2SF (Z2F z)
  = S754_finite false (Z.to_pos (z * 2 ^ (53 - Zdigits2 z))) (Zdigits2 z - 53).
Proof.
  intros Hz. unfold Z2F, two63.
  assert (z < 2 ^ 63) by (assert (2 ^ 53 < 2 ^ 63) by done; lia).
  destruct (Z.ltb_spec (Z.abs z) 9223372036854775808) as [_|]; [|lia].
  destruct (Z.ltb_spec z 0) as [|_]; [lia|].
  rewrite of_uint63_spec, of_Z_spec, Z.mod_small by (change wB with (2 ^ 63); lia).
  destruct z as [|p|p]; try lia. cbn [binary_normalize].
  apply binary_round_exact. apply Zdigits2_le; lia.
Qed.

Lemma div_eucl_div_mod a b : Z.div_eucl a b = (a / b, a mod b).
Proof. unfold Z.div, Z.modulo. destruct (Z.div_eucl a b). done. Qed.

(** Dividing a normal double by [2^32] lowers its exponent by 32. *)
Lemma div_two32_exact x m e :
  Prim2SF x = S754_finite false m e ->
  Zdigits2 (Z.pos m) = 53 -> -900 <= e <= 900 ->
  Prim2SF (x / (65536.0 * 65536.0)) = S754_finite false m (e - 32).
Proof.
  intros Hx Hd He. rewrite FloatAxioms.div_spec, Hx.
  change (Prim2SF (65536.0 * 65536.0)) with (S754_finite false 4503599627370496 (-20)).
  unfold SF64div, SFdiv, SFdiv_core_binary. rewrite Hd.
  change (Zdigits2 (Z.pos 4503599627370496)) with 53.
  rewrite fexp_normal, Z.min_l by lia.
  replace (e - -20 - (53 + e - (53 + -20) - 53)) with 53 by lia. cbv iota.
  rewrite Z.shiftl_mul_pow2, div_eucl_div_mod by lia.
  replace (Z.pos m * 2 ^ 53) with (Z.pos m * 2 * 4503599627370496) by lia.
  rewrite Z.div_mul, Z.mod_mul by lia.
  change (new_location 4503599627370496 0) with loc_Exact. cbn [xorb].
  rewrite (binary_round_aux_exact false _ (Z.pos m) _ 1);
    rewrite ?Hd, ?fexp_normal; unfold prec, emax; try lia.
  cbn [Z.to_pos]. f_equal. lia.
Qed.

(** The product with [1000000.0], before rounding. *)
Lemma mul_1e6_spec x m e :
  Prim2SF x = S754_finite false m e ->
  Prim2SF (x * 1000000.0)
  = binary_round_aux prec emax false (Z.pos m * 8589934592000000) (e + -33) loc_Exact.
Proof.
  intros Hx. rewrite FloatAxioms.mul_spec, Hx.
  change (Prim2SF 1000000.0) with (S754_finite false 8589934592000000 (-33)).
  done.
Qed.

(** The microseconds of a least significant word: every operation of
    the computation is exact, so the cast cuts the true quotient. *)
Lemma microsec_of_lsw_exact lsw :
  0 <= lsw < two32 -> microsec_of_lsw lsw = lsw * 1000000 / two32.
Proof.
  unfold two32. intros Hl.
  destruct (Z.eq_dec lsw 0) as [->|Hnz]; [by vm_compute|].
  assert (Hpos : 0 < lsw) by lia.
  set (d := Zdigits2 lsw).
  assert (Hd : 0 < d <= 32).
  { split; [by apply Zdigits2_pos|]. apply Zdigits2_le; [done|]. change (2 ^ 32) with 4294967296. lia. }
  set (q := lsw * 15625).
  assert (Hq : 0 < q < 2 ^ 46) by (change (2 ^ 46) with 70368744177664; lia).
  set (dq := Zdigits2 q).
  assert (Hdq : 0 < dq <= 46).
  { split; [apply Zdigits2_pos|apply Zdigits2_le]; lia. }
  assert (Hp1 : 0 < 2 ^ (53 - d)) by (apply Z.pow_pos_nonneg; lia).
  assert (Hp2 : 0 < 2 ^ (53 - dq)) by (apply Z.pow_pos_nonneg; lia).
  pose proof (Z2F_exact lsw) as H1. fold d in H1.
  specialize (H1 ltac:(change (2 ^ 53) with 9007199254740992; lia)).
  set (m1 := Z.to_pos (lsw * 2 ^ (53 - d))) in H1.
  assert (Hm1 : Z.pos m1 = lsw * 2 ^ (53 - d)) by (unfold m1; rewrite Z2Pos.id; nia).
  assert (Hd1 : Zdigits2 (Z.pos m1) = 53).
  { rewrite Hm1, Zdigits2_shift by lia. fold d. lia. }
  pose proof (div_two32_exact _ _ _ H1 Hd1 ltac:(lia)) as H2.
  pose proof (mul_1e6_spec _ _ _ H2) as H3.
  rewrite (binary_round_aux_exact false _ (q * 2 ^ (53 - dq)) _ (39 - d + dq)) in H3;
    rewrite ?Zdigits2_shift, ?fexp_normal; fold dq; unfold prec, emax; try lia.
  2:{ rewrite Hm1.
      assert (E : 2 ^ (53 - dq) * 2 ^ (39 - d + dq) = 2 ^ (53 - d) * 2 ^ 39).
      { rewrite <- !Z.pow_add_r by lia. f_equal. lia. }
      rewrite <- (Z.mul_assoc q), E. unfold q.
      change 8589934592000000 with (15625 * 2 ^ 39). ring. }
  unfold microsec_of_lsw, cast_u32, cvttsd2si, trunc. rewrite H3.
  destruct (Z.leb_spec 0 (d - 53 - 32 + -33 + (39 - d + dq))) as [|_]; [lia|].
  rewrite Z2Pos.id by nia. rewrite Z.shiftr_div_pow2 by lia.
  replace (- (d - 53 - 32 + -33 + (39 - d + dq))) with (26 + (53 - dq)) by lia.
  rewrite Z.pow_add_r by lia. rewrite Z.div_mul_cancel_r by lia.
  assert (E : lsw * 1000000 / 4294967296 = q / 2 ^ 26).
  { unfold q. replace 1000000 with (15625 * 64) by done.
    change 4294967296 with (2 ^ 26 * 64).
    rewrite Z.mul_assoc, Z.div_mul_cancel_r by lia. done. }
  rewrite E.
  assert (0 <= q / 2 ^ 26 < 1048576).
  { split; [apply Z.div_pos; lia|]. apply Z.div_lt_upper_bound; [done|].
    change (2 ^ 26 * 1048576) with 70368744177664.
    change (2 ^ 46) with 70368744177664 in Hq. lia. }
  unfold two63, two32.
  rewrite (proj2 (Z.leb_le _ _)), (proj2 (Z.ltb_lt _ _)) by lia.
  cbn [andb]. apply Z.mod_small. lia.
Qed.

(** ** Rounded double arithmetic *)

(** The division by [1000000.0] in [GetNTPTime] rounds; what follows
    bounds what the rounding can do. *)

(** Rounding to nearest keeps the mantissa or adds one. *)
Lemma round_nearest_even_near m l : m <= round_nearest_even m l <= m + 1.
Proof. destruct l as [|[]]; cbn [round_nearest_even]; try destruct (Z.even m); lia. Qed.

Lemma loc_of_shr_record_of_loc m l : loc_of_shr_record (shr_record_of_loc m l) = l.
Proof. by destruct l as [|[]]. Qed.

Lemma shr_m_record_of_loc m l : shr_m (shr_record_of_loc m l) = m.
Proof. by destruct l as [|[]]. Qed.

Lemma shr_m_shr_1 m r s : 0 <= m -> shr_m (shr_1 (Build_shr_record m r s)) = m / 2.
Proof.
  intros Hm. destruct m as [|[p|p|]|]; cbn [shr_1 shr_m]; try lia; try done.
  - apply Z.div_unique with 1; lia.
  - apply Z.div_unique with 0; lia.
Qed.

Lemma Zdigits2_53 m : 2 ^ 52 <= m < 2 ^ 53 -> Zdigits2 m = 53.
Proof. intros Hm. by apply Zdigits2_unique. Qed.

Lemma Zdigits2_54 m : 2 ^ 53 <= m < 2 ^ 54 -> Zdigits2 m = 54.
Proof. intros Hm. by apply Zdigits2_unique. Qed.

(** A mantissa of 53 bits stays; [2^53] is renormalised. *)
Lemma round_done s M e :
  2 ^ 52 <= M <= 2 ^ 53 -> -1000 <= e <= 900 ->
  (let '(mrs, e') := shr_fexp prec emax M e loc_Exact in
   match shr_m mrs with
   | 0 => S754_zero s
   | Z.pos m => if e' <=? emax - prec then S754_finite s m e' else S754_infinity s
   | Z.neg _ => S754_nan
   end)
  = if M <? 2 ^ 53 then S754_finite s (Z.to_pos M) e
    else S754_finite s 4503599627370496 (e + 1).
Proof.
  intros HM He. unfold shr_fexp.
  destruct (Z.ltb_spec M (2 ^ 53)) as [Hlt|Hge].
  - rewrite Zdigits2_53, fexp_normal by lia.
    replace (53 + e - 53 - e) with 0 by lia. cbn [shr shr_record_of_loc shr_m].
    destruct M as [|p|p]; try lia.
    rewrite (proj2 (Z.leb_le _ _)) by (unfold emax, prec; lia). done.
  - replace M with (2 ^ 53) by lia. change (Zdigits2 (2 ^ 53)) with 54.
    rewrite fexp_normal by lia. replace (54 + e - 53 - e) with 1 by lia.
    cbn. rewrite (proj2 (Z.leb_le _ _)) by (unfold emax, prec; lia). done.
Qed.

Lemma shr_m_shr_1_loc m l : 0 <= m -> shr_m (shr_1 (shr_record_of_loc m l)) = m / 2.
Proof. intros Hm. destruct l as [|[]]; by apply shr_m_shr_1. Qed.

(** Rounding a quotient of 53 or 54 bits: the mantissa kept is the
    quotient cut to 53 bits, or one more. *)
Lemma binary_round_aux_near Q e l :
  2 ^ 52 <= Q < 2 ^ 54 -> -900 <= e <= 800 ->
  exists n M0,
    0 <= n <= 1 /\ 2 ^ (52 + n) <= Q < 2 ^ (53 + n) /\
    Q / 2 ^ n <= M0 <= Q / 2 ^ n + 1 /\
    binary_round_aux prec emax false Q e l
    = if M0 <? 2 ^ 53 then S754_finite false (Z.to_pos M0) (e + n)
      else S754_finite false 4503599627370496 (e + n + 1).
Proof.
  intros HQ He. unfold binary_round_aux.
  destruct (Z_lt_le_dec Q (2 ^ 53)) as [Hlt|Hge].
  - exists 0, (round_nearest_even Q l).
    pose proof (round_nearest_even_near Q l) as Hr.
    rewrite Z.pow_0_r, Z.div_1_r, !Z.add_0_r.
    split; [lia|]. split; [lia|]. split; [done|].
    unfold shr_fexp at 1. rewrite Zdigits2_53, fexp_normal by lia.
    replace (53 + e - 53 - e) with 0 by lia. cbn [shr].
    rewrite shr_m_record_of_loc, loc_of_shr_record_of_loc.
    apply round_done; lia.
  - set (l' := loc_of_shr_record (shr_1 (shr_record_of_loc Q l))).
    exists 1, (round_nearest_even (Q / 2) l').
    pose proof (round_nearest_even_near (Q / 2) l') as Hr.
    assert (2 ^ 52 <= Q / 2 < 2 ^ 53).
    { split; [apply Z.div_le_lower_bound|apply Z.div_lt_upper_bound]; lia. }
    change (2 ^ 1) with 2.
    split; [lia|]. split; [change (52 + 1) with 53; change (53 + 1) with 54; lia|].
    split; [done|].
    unfold shr_fexp at 1. rewrite Zdigits2_54, fexp_normal by lia.
    replace (54 + e - 53 - e) with 1 by lia. cbn [shr SpecFloat.iter_pos].
    rewrite shr_m_shr_1_loc by lia. fold l'.
    apply round_done; lia.
Qed.

(** The quotient by [1000000.0], before rounding. *)
Lemma div_1e6_spec x m e :
  Prim2SF x = S754_finite false m e ->
  Zdigits2 (Z.pos m) = 53 -> -900 <= e <= 900 ->
  Prim2SF (x / 1000000.0)
  = binary_round_aux prec emax false
      (Z.pos m * 2 ^ 53 / 8589934592000000) (e - 20)
      (new_location 8589934592000000 ((Z.pos m * 2 ^ 53) mod 8589934592000000)).
Proof.
  intros Hx Hd He. rewrite FloatAxioms.div_spec, Hx.
  change (Prim2SF 1000000.0) with (S754_finite false 8589934592000000 (-33)).
  unfold SF64div, SFdiv, SFdiv_core_binary. rewrite Hd.
  change (Zdigits2 (Z.pos 8589934592000000)) with 53.
  rewrite fexp_normal, Z.min_l by lia.
  replace (e - -33 - (53 + e - (53 + -33) - 53)) with 53 by lia. cbv iota.
  rewrite Z.shiftl_mul_pow2, div_eucl_div_mod by lia. cbn [xorb].
  f_equal. lia.
Qed.

(** Multiplying a normal double by [2^32] raises its exponent by 32. *)
Lemma mul_two32_exact x m e :
  Prim2SF x = S754_finite false m e ->
  Zdigits2 (Z.pos m) = 53 -> -900 <= e <= 900 ->
  Prim2SF (x * (65536.0 * 65536.0)) = S754_finite false m (e + 32).
Proof.
  intros Hx Hd He. rewrite FloatAxioms.mul_spec, Hx.
  change (Prim2SF (65536.0 * 65536.0)) with (S754_finite false 4503599627370496 (-20)).
  unfold SF64mul, SFmul. cbn [xorb].
  rewrite (binary_round_aux_exact false _ (Z.pos m) _ 52);
    rewrite ?Hd, ?fexp_normal; unfold prec, emax; try lia.
  cbn [Z.to_pos]. f_equal. lia.
Qed.

(** The integer side of [lsw_of_microsec]: a 53-bit quotient of
    [microsec * 2^32 / 10^6], scaled by [2^g], cut or cut and bumped by
    one, still has the integer part of the true quotient.  The
    remainder of [microsec * 2^32] by [10^6] is a multiple of 64, hence
    at most [10^6 - 64], which leaves room for the bump as soon as
    [2^g] exceeds 15625. *)
Lemma quotient_near microsec d n Q M0 :
  0 < microsec < 1000000 -> 1 <= d <= 20 -> 0 <= n <= 1 ->
  Q = microsec * 2 ^ (53 - d) * 2 ^ 53 / 8589934592000000 ->
  Q / 2 ^ n <= M0 <= Q / 2 ^ n + 1 ->
  let L := microsec * two32 / 1000000 in
  L * 2 ^ (41 - d - n) <= M0 < (L + 1) * 2 ^ (41 - d - n).
Proof.
  intros Hu Hd Hn HQ HM L. unfold two32 in L.
  set (B := 2 ^ (41 - d - n)).
  assert (HB : 1048576 <= B).
  { change 1048576 with (2 ^ 20). apply Z.pow_le_mono_r; lia. }
  assert (HA : 2 ^ (53 - d) = 2 ^ (12 + n) * B).
  { unfold B. rewrite <- Z.pow_add_r by lia. f_equal. lia. }
  pose proof (Z.div_mod (microsec * 4294967296) 1000000 ltac:(lia)) as EL. fold L in EL.
  pose proof (Z.mod_pos_bound (microsec * 4294967296) 1000000 ltac:(lia)) as BL.
  set (r := (microsec * 4294967296) mod 1000000) in *.
  assert (Hr : r <= 999936).
  { assert (r = 64 * (microsec * 67108864 - L * 15625)) by lia. lia. }
  assert (HL : 0 <= L) by (apply Z.div_pos; lia).
  pose proof (Z.div_mod (microsec * 2 ^ (53 - d) * 2 ^ 53) 8589934592000000 ltac:(lia)) as EQ.
  rewrite <- HQ in EQ.
  pose proof (Z.mod_pos_bound (microsec * 2 ^ (53 - d) * 2 ^ 53) 8589934592000000 ltac:(lia)) as BQ.
  set (R := (microsec * 2 ^ (53 - d) * 2 ^ 53) mod 8589934592000000) in *.
  rewrite HA in EQ.
  assert (EP : microsec * B * 4294967296 = 1000000 * (L * B) + r * B) by lia.
  assert (HrB : 0 <= r * B <= 999936 * B) by nia.
  change (2 ^ 53) with 9007199254740992 in EQ.
  destruct (Z.eq_dec n 0) as [->|].
  - rewrite Z.pow_0_r, Z.div_1_r in HM. change (2 ^ (12 + 0)) with 4096 in EQ. lia.
  - replace n with 1 in * by lia. change (2 ^ 1) with 2 in HM.
    change (2 ^ (12 + 1)) with 8192 in EQ.
    pose proof (Z.div_mod Q 2 ltac:(lia)) as E2.
    pose proof (Z.mod_pos_bound Q 2 ltac:(lia)) as B2. lia.
Qed.

(** The cast of a positive double below [2^32], from its mantissa. *)
Lemma cast_u32_finite x m e v :
  Prim2SF x = S754_finite false m e -> e < 0 ->
  v * 2 ^ (- e) <= Z.pos m < (v + 1) * 2 ^ (- e) ->
  0 <= v < two32 ->
  cast_u32 x = v.
Proof.
  intros Hx He Hm Hv. unfold cast_u32, cvttsd2si, trunc. rewrite Hx.
  destruct (Z.leb_spec 0 e) as [|_]; [lia|].
  rewrite Z.shiftr_div_pow2 by lia.
  assert (E : Z.pos m / 2 ^ (- e) = v).
  { symmetry. apply Z.div_unique with (Z.pos m - v * 2 ^ (- e)); lia. }
  rewrite E. unfold two63, two32 in *.
  rewrite (proj2 (Z.leb_le _ _)), (proj2 (Z.ltb_lt _ _)) by lia.
  cbn [andb]. apply Z.mod_small. lia.
Qed.

Lemma quotient_microsec_lsw microsec :
  0 <= microsec < 1000000 -> 0 <= microsec * two32 / 1000000 < two32.
Proof.
  unfold two32. intros Hu. split; [apply Z.div_pos; lia|].
  apply Z.div_lt_upper_bound; lia.
Qed.

(** The least significant word of a microsecond count: the division by
    [1000000.0] rounds, but never across an integer once scaled by
    [2^32]. *)
Lemma lsw_of_microsec_exact microsec :
  0 <= microsec < 1000000 -> lsw_of_microsec microsec = microsec * two32 / 1000000.
Proof.
  intros Hu.
  destruct (Z.eq_dec microsec 0) as [->|Hnz]; [by vm_compute|].
  assert (Hpos : 0 < microsec < 1000000) by lia.
  set (d := Zdigits2 microsec).
  assert (Hd : 1 <= d <= 20).
  { split; [pose proof (Zdigits2_pos microsec); lia|].
    apply Zdigits2_le; [lia|]. change (2 ^ 20) with 1048576. lia. }
  assert (Hp1 : 0 < 2 ^ (53 - d)) by (apply Z.pow_pos_nonneg; lia).
  pose proof (Z2F_exact microsec) as H1. fold d in H1.
  specialize (H1 ltac:(change (2 ^ 53) with 9007199254740992; lia)).
  set (m1 := Z.to_pos (microsec * 2 ^ (53 - d))) in H1.
  assert (Hm1 : Z.pos m1 = microsec * 2 ^ (53 - d)) by (unfold m1; rewrite Z2Pos.id; nia).
  assert (Hd1 : Zdigits2 (Z.pos m1) = 53).
  { rewrite Hm1, Zdigits2_shift by lia. fold d. lia. }
  pose proof (Zdigits2_spec (Z.pos m1) ltac:(lia)) as Bm1. rewrite Hd1 in Bm1.
  change (2 ^ (53 - 1)) with 4503599627370496 in Bm1.
  change (2 ^ 53) with 9007199254740992 in Bm1.
  pose proof (div_1e6_spec _ _ _ H1 Hd1 ltac:(lia)) as H2.
  set (Q := Z.pos m1 * 2 ^ 53 / 8589934592000000) in H2.
  assert (HQ : 2 ^ 52 <= Q < 2 ^ 54).
  { change (2 ^ 52) with 4503599627370496. change (2 ^ 54) with 18014398509481984.
    unfold Q. change (2 ^ 53) with 9007199254740992.
    split; [apply Z.div_le_lower_bound|apply Z.div_lt_upper_bound]; lia. }
  destruct (binary_round_aux_near Q (d - 53 - 20)
              (new_location 8589934592000000 ((Z.pos m1 * 2 ^ 53) mod 8589934592000000))
              HQ ltac:(lia)) as (n & M0 & Hn & HQn & HM & E).
  rewrite E in H2. clear E.
  assert (Hp2 : 0 < 2 ^ n) by (apply Z.pow_pos_nonneg; lia).
  assert (HQ' : 2 ^ 52 <= Q / 2 ^ n < 2 ^ 53).
  { rewrite !(Z.add_comm _ n), !Z.pow_add_r in HQn by lia.
    split; [apply Z.div_le_lower_bound|apply Z.div_lt_upper_bound]; lia. }
  pose proof (quotient_near microsec d n Q M0 Hpos Hd Hn) as HL.
  rewrite <- Hm1 in HL. specialize (HL eq_refl HM). cbv zeta in HL.
  pose proof (quotient_microsec_lsw microsec Hu) as HLr.
  set (L := microsec * two32 / 1000000) in *.
  unfold lsw_of_microsec.
  destruct (Z.ltb_spec M0 (2 ^ 53)) as [Hlt|Hge].
  - assert (Hid : Z.pos (Z.to_pos M0) = M0) by (apply Z2Pos.id; lia).
    assert (Hd2 : Zdigits2 (Z.pos (Z.to_pos M0)) = 53) by (rewrite Hid; apply Zdigits2_53; lia).
    pose proof (mul_two32_exact _ _ _ H2 Hd2 ltac:(lia)) as H3.
    apply (cast_u32_finite _ _ _ L H3); [lia| |done].
    rewrite Hid. replace (- (d - 53 - 20 + n + 32)) with (41 - d - n) by lia. done.
  - assert (M0 = 2 ^ 53) by lia. subst M0.
    pose proof (mul_two32_exact _ _ _ H2 eq_refl ltac:(lia)) as H3.
    apply (cast_u32_finite _ _ _ L H3); [lia| |done].
    replace (- (d - 53 - 20 + n + 1 + 32)) with (41 - d - n - 1) by lia.
    replace (41 - d - n) with (41 - d - n - 1 + 1) in HL by lia.
    rewrite Z.pow_add_r in HL by lia. change (2 ^ 53) with (4503599627370496 * 2) in HL.
    change (2 ^ 1) with 2 in HL. lia.
Qed.

(** ** NTP conversion *)

Lemma quotient_microsec lsw :
  0 <= lsw < two32 -> 0 <= lsw * 1000000 / two32 <= 999999.
Proof.
  unfold two32. intros Hl. split; [apply Z.div_pos; lia|].
  assert (lsw * 1000000 / 4294967296 < 1000000); [|lia].
  apply Z.div_lt_upper_bound; lia.
Qed.

(** X3.  The most significant word [GetNTPTime] computes wraps around in its
    32 bits from [2^32 - 2208988800] seconds on, and such a word reads
    back as time zero. *)
Lemma GetNTPTime_wraps (t : RTPTime) :
  two32 - RTP_NTPTIMEOFFSET <= cast_u32 (m_t t) ->
  GetMSW (GetNTPTime t) = cast_u32 (m_t t) + RTP_NTPTIMEOFFSET - two32 /\
  RTPTime_of_NTP (GetNTPTime t) = mkTime 0.
Proof.
  intros Hs. pose proof (cast_u32_range (m_t t)) as Hr.
  unfold RTPTime_of_NTP, GetNTPTime, RTP_NTPTIMEOFFSET, two32 in *. cbn [GetMSW].
  assert (E : (cast_u32 (m_t t) + 2208988800) mod 4294967296
              = cast_u32 (m_t t) + 2208988800 - 4294967296).
  { symmetry. apply Z.mod_unique with 1; lia. }
  rewrite E. split; [done|].
  destruct (Z.ltb_spec (cast_u32 (m_t t) + 2208988800 - 4294967296) 2208988800); [done|lia].
Qed.

(** C6, as amended.  An NTP timestamp whose most significant word is
    below 2208988800 becomes time zero; any other becomes the time of
    [msw - 2208988800] seconds and [lsw * 10^6 / 2^32] microseconds, the
    quotient being the integer one: the fraction [lsw * 2^-32] is cut
    down to whole microseconds, not rounded to the nearest. *)
Theorem RTPTime_of_NTP_truncates (msw lsw : Z) :
  0 <= msw < two32 -> 0 <= lsw < two32 ->
  RTPTime_of_NTP (mkNTP msw lsw)
  = (if msw <? RTP_NTPTIMEOFFSET then mkTime 0
     else RTPTime_of_parts (msw - RTP_NTPTIMEOFFSET) (lsw * 1000000 / two32)) /\
  0 <= lsw * 1000000 / two32 <= 999999.
Proof.
  intros Hm Hl. split; [|by apply quotient_microsec].
  unfold RTPTime_of_NTP, RTPTime_of_parts, RTP_NTPTIMEOFFSET. cbn [GetMSW GetLSW].
  destruct (Z.ltb_spec msw 2208988800); [done|].
  rewrite microsec_of_lsw_exact by done.
  rewrite Z.mod_small by (unfold two32 in *; lia).
  destruct (Z.leb_spec 0 (msw - 2208988800)); [done|lia].
Qed.

Lemma RTPTime_of_NTP_truncates_witness :
  RTPTime_of_NTP (mkNTP 2208988801 2147483648) = RTPTime_of_parts 1 500000 /\
  0 <= 2147483648 * 1000000 / two32 <= 999999.
Proof.
  apply (RTPTime_of_NTP_truncates 2208988801 2147483648); vm_compute; split; congruence.
Defined.

(** At [msw = 2208988800], [lsw = 4294] the timestamp stands for
    [4294 * 2^-32] s, about 0.99977 microseconds.  The conversion
    yields zero, more than half a microsecond away, where one
    microsecond is the nearest. *)
Lemma RTPTime_of_NTP_not_nearest :
  let ntp := mkNTP 2208988800 4294 in
  let exact := (Z2F (GetMSW ntp - RTP_NTPTIMEOFFSET) + Z2F (GetLSW ntp) / 4294967296)%float in
  scaled exact = Some (4294 * 2 ^ (1074 - 32)) /\
  RTPTime_of_NTP ntp = mkTime 0 /\
  within_usec 1 2 (m_t (RTPTime_of_NTP ntp)) exact = false /\
  within_usec 1 2 (m_t (RTPTime_of_parts 0 1)) exact = true.
Proof. vm_compute. repeat split. Qed.

(** A microsecond count through both conversions: it comes back
    unchanged when [microsec * 2^32 / 10^6] is exact, and one lower
    otherwise. *)
Lemma microsec_round_trip microsec :
  0 <= microsec < 1000000 ->
  let back := microsec_of_lsw (lsw_of_microsec microsec) in
  0 <= back /\ microsec - 1 <= back <= microsec /\
  (back = microsec <-> microsec mod 15625 = 0).
Proof.
  intros Hu. cbv zeta. rewrite lsw_of_microsec_exact by done.
  assert (Hl : 0 <= microsec * two32 / 1000000 < two32).
  { unfold two32. split; [apply Z.div_pos; lia|]. apply Z.div_lt_upper_bound; lia. }
  rewrite microsec_of_lsw_exact by done. unfold two32 in *.
  set (l := microsec * 4294967296 / 1000000) in *.
  set (b := l * 1000000 / 4294967296).
  pose proof (Z.div_mod (microsec * 4294967296) 1000000 ltac:(lia)) as E1. fold l in E1.
  pose proof (Z.mod_pos_bound (microsec * 4294967296) 1000000 ltac:(lia)) as B1.
  pose proof (Z.div_mod (l * 1000000) 4294967296 ltac:(lia)) as E2. fold b in E2.
  pose proof (Z.mod_pos_bound (l * 1000000) 4294967296 ltac:(lia)) as B2.
  pose proof (Z.div_mod microsec 15625 ltac:(lia)) as E3.
  pose proof (Z.mod_pos_bound microsec 15625 ltac:(lia)) as B3.
  assert (Hb : microsec - 1 <= b <= microsec) by lia.
  split; [lia|]. split; [done|]. split.
  - intros ->. 
    assert ((microsec * 4294967296) mod 1000000 = 0) by lia.
    assert (microsec * 4294967296 = l * 1000000) by lia.
    assert (E : microsec * 67108864 = l * 15625) by lia.
    assert (Hg : Z.gcd 15625 67108864 = 1) by done.
    apply Z.mod_divide; [lia|]. apply Z.gauss with 67108864; [|done].
    exists l. lia.
  - intros Hz. 
    assert (Hm : microsec = 15625 * (microsec / 15625)) by lia.
    assert (l = 67108864 * (microsec / 15625)).
    { unfold l. rewrite Hm at 1.
      replace (15625 * (microsec / 15625) * 4294967296)
        with (67108864 * (microsec / 15625) * 1000000) by lia.
      apply Z.div_mul. lia. }
    lia.
Qed.




(** ** More on the NTP fraction *)

Lemma GetNTPTime_wraps_witness :
  two32 - RTP_NTPTIMEOFFSET <= cast_u32 (m_t (mkTime 2100000000)) /\
  GetMSW (GetNTPTime (mkTime 2100000000)) = 14021504 /\
  RTPTime_of_NTP (GetNTPTime (mkTime 2100000000)) = mkTime 0.
Proof.
  assert (H : two32 - RTP_NTPTIMEOFFSET <= cast_u32 (m_t (mkTime 2100000000)))
    by (vm_compute; congruence).
  split; [exact H|]. exact (GetNTPTime_wraps (mkTime 2100000000) H).
Defined.

(** X4.  The least significant word [GetNTPTime] computes grows with the
    microseconds, by at least 4294 for each: different microsecond
    counts never share a fraction, and the word fits its 32 bits. *)
Theorem lsw_of_microsec_increasing (a b : Z) :
  0 <= a -> a < b -> b < 1000000 ->
  0 <= lsw_of_microsec a /\
  lsw_of_microsec a + 4294 * (b - a) <= lsw_of_microsec b /\
  lsw_of_microsec b < two32.
Proof.
  intros Ha Hab Hb. rewrite !lsw_of_microsec_exact by lia.
  pose proof (quotient_microsec_lsw a ltac:(lia)) as Ra.
  pose proof (quotient_microsec_lsw b ltac:(lia)) as Rb.
  unfold two32 in *.
  pose proof (Z.div_mod (a * 4294967296) 1000000 ltac:(lia)) as Ea.
  pose proof (Z.mod_pos_bound (a * 4294967296) 1000000 ltac:(lia)) as Ba.
  pose proof (Z.div_mod (b * 4294967296) 1000000 ltac:(lia)) as Eb.
  pose proof (Z.mod_pos_bound (b * 4294967296) 1000000 ltac:(lia)) as Bb.
  lia.
Qed.

Lemma lsw_of_microsec_increasing_witness :
  0 <= lsw_of_microsec 1 /\
  lsw_of_microsec 1 + 4294 * (999999 - 1) <= lsw_of_microsec 999999 /\
  lsw_of_microsec 999999 < two32.
Proof. apply (lsw_of_microsec_increasing 1 999999); lia. Defined.

(** X5.  From a least significant word to microseconds and back: the word
    comes back at most 4295 units (one microsecond) lower, never higher,
    and the microseconds are below one second. *)
Theorem lsw_round_trip (lsw : Z) :
  0 <= lsw < two32 ->
  0 <= microsec_of_lsw lsw < 1000000 /\
  lsw - 4295 <= lsw_of_microsec (microsec_of_lsw lsw) <= lsw.
Proof.
  intros Hl. rewrite microsec_of_lsw_exact by done.
  pose proof (quotient_microsec lsw Hl) as Hu.
  rewrite lsw_of_microsec_exact by lia. unfold two32 in *.
  pose proof (Z.div_mod (lsw * 1000000) 4294967296 ltac:(lia)) as E1.
  pose proof (Z.mod_pos_bound (lsw * 1000000) 4294967296 ltac:(lia)) as B1.
  set (u := lsw * 1000000 / 4294967296) in *.
  pose proof (Z.div_mod (u * 4294967296) 1000000 ltac:(lia)) as E2.
  pose proof (Z.mod_pos_bound (u * 4294967296) 1000000 ltac:(lia)) as B2.
  lia.
Qed.

Lemma lsw_round_trip_witness :
  0 <= microsec_of_lsw 4294967295 < 1000000 /\
  4294967295 - 4295 <= lsw_of_microsec (microsec_of_lsw 4294967295) <= 4294967295.
Proof. apply (lsw_round_trip 4294967295). vm_compute. split; congruence. Defined.

(** ** Comparisons *)

Lemma SFcompare_swap x y : SFcompare y x = CompOpp <$> SFcompare x y.
Proof.
  destruct x as [sx|sx| |sx mx ex], y as [sy|sy| |sy my ey]; cbn; try done;
    try (by destruct sx); try (by destruct sy); try (by destruct sx, sy).
  destruct sx, sy; cbn; try done; rewrite (Z.compare_antisym ex ey);
    destruct (ex ?= ey); cbn; try done; f_equal;
    rewrite ?CompOpp_involutive, Pos.compare_cont_antisym; done.
Qed.

(** X6.  The comparison operators of [RTPTime] agree with one another:
    [a < b] is [b > a] and implies [a <= b] and excludes [b < a] and
    [b <= a]; [a <= b] together with [b <= a] makes the two times equal
    as numbers.  A NaN compares false with everything. *)
Theorem RTPTime_order (a b : RTPTime) :
  lt a b = gt b a /\ le a b = ge b a /\
  (lt a b = true -> le a b = true /\ lt b a = false /\ le b a = false) /\
  (le a b = true -> le b a = true -> (m_t a =? m_t b)%float = true) /\
  (Prim2SF (m_t a) = S754_nan ->
   lt a b = false /\ le a b = false /\ gt a b = false /\ ge a b = false).
Proof.
  unfold lt, gt, le, ge. split; [done|]. split; [done|].
  rewrite !FloatAxioms.ltb_spec, !FloatAxioms.leb_spec, FloatAxioms.eqb_spec.
  unfold SFltb, SFleb, SFeqb.
  rewrite (SFcompare_swap (Prim2SF (m_t a)) (Prim2SF (m_t b))).
  split; [|split].
  - destruct (SFcompare (Prim2SF (m_t a)) (Prim2SF (m_t b))) as [[]|]; by cbn.
  - destruct (SFcompare (Prim2SF (m_t a)) (Prim2SF (m_t b))) as [[]|]; by cbn.
  - intros ->. cbn. by destruct (Prim2SF (m_t b)).
Qed.

(** ** A request [nanosleep] refuses *)




(** ** Whole seconds *)

Lemma Prim2SF_inj x y : Prim2SF x = Prim2SF y -> x = y.
Proof. intros H. by rewrite <- (SF2Prim_Prim2SF x), H, SF2Prim_Prim2SF. Qed.

Lemma float_add_0 x s m e :
  Prim2SF x = S754_finite s m e -> (x + 0)%float = x.
Proof.
  intros Hx. apply Prim2SF_inj. rewrite FloatAxioms.add_spec, Hx.
  change (Prim2SF 0) with (S754_zero false). done.
Qed.

Lemma float_sub_self x s m e :
  Prim2SF x = S754_finite s m e -> (x - x)%float = 0%float.
Proof.
  intros Hx. apply Prim2SF_inj. rewrite FloatAxioms.sub_spec, Hx.
  change (Prim2SF 0) with (S754_zero false).
  unfold SF64sub, SFsub. by rewrite Z.sub_diag.
Qed.

Lemma float_opp_opp x : (- - x)%float = x.
Proof.
  apply Prim2SF_inj. rewrite !FloatAxioms.opp_spec. by destruct (Prim2SF x) as [[]|[]| |[] ? ?].
Qed.

(** The integer part of the double of an integer below [2^53]. *)
Lemma trunc_Z2F n : 0 < n < 2 ^ 53 ->
  trunc (Z2F n) = Some n /\ trunc (- Z2F n) = Some (- n).
Proof.
  intros Hn. unfold trunc. rewrite FloatAxioms.opp_spec, (Z2F_exact n Hn). cbn [SFopp negb].
  set (d := Zdigits2 n).
  assert (Hd : 0 < d <= 53) by (split; [apply Zdigits2_pos|apply Zdigits2_le]; lia).
  assert (Hp : 0 < 2 ^ (53 - d)) by (apply Z.pow_pos_nonneg; lia).
  rewrite Z2Pos.id by nia.
  assert (E : (if 0 <=? d - 53
               then Z.shiftl (n * 2 ^ (53 - d)) (d - 53)
               else Z.shiftr (n * 2 ^ (53 - d)) (- (d - 53))) = n).
  { destruct (Z.leb_spec 0 (d - 53)).
    - replace (d - 53) with 0 by lia. replace (53 - d) with 0 by lia.
      rewrite Z.shiftl_0_r, Z.pow_0_r. lia.
    - rewrite Z.shiftr_div_pow2 by lia. replace (- (d - 53)) with (53 - d) by lia.
      apply Z.div_mul. lia. }
  by rewrite E.
Qed.

Lemma cvttsd2si_Z2F n : 0 < n < 2 ^ 53 ->
  cvttsd2si (Z2F n) = n /\ cvttsd2si (- Z2F n) = - n.
Proof.
  intros Hn. destruct (trunc_Z2F n Hn) as [E1 E2]. unfold cvttsd2si. rewrite E1, E2.
  change (2 ^ 53) with 9007199254740992 in Hn. unfold two63.
  rewrite !(proj2 (Z.leb_le _ _)), !(proj2 (Z.ltb_lt _ _)) by lia. done.
Qed.

Lemma Z2F_positive n : 0 < n < 2 ^ 53 ->
  (0 <=? Z2F n)%float = true /\ (0 <=? - Z2F n)%float = false.
Proof.
  intros Hn. rewrite !FloatAxioms.leb_spec, FloatAxioms.opp_spec, (Z2F_exact n Hn).
  change (Prim2SF 0) with (S754_zero false). done.
Qed.

(** What [RTPTime(seconds, 0)] stores. *)
Lemma RTPTime_of_whole_seconds n : 0 < n < 2 ^ 53 ->
  RTPTime_of_parts n 0 = mkTime (Z2F n) /\
  RTPTime_of_parts (- n) 0 = mkTime (- Z2F n).
Proof.
  intros Hn. unfold RTPTime_of_parts.
  rewrite (proj2 (Z.leb_le 0 n)) by lia. rewrite (proj2 (Z.leb_gt 0 (- n))) by lia.
  rewrite Z.opp_involutive.
  change (1e-6 * Z2F 0)%float with 0%float.
  by rewrite (float_add_0 _ _ _ _ (Z2F_exact n Hn)).
Qed.

(** X8.  A whole number of seconds, of either sign, given to the constructor
    [RTPTime(seconds, microseconds)] with no microseconds, reads back
    through [GetSeconds] and [GetMicroSeconds] as it was given (up to
    [2^53], where doubles hold every integer). *)
Theorem whole_seconds_read_back (n : Z) :
  - 2 ^ 53 < n < 2 ^ 53 ->
  GetSeconds (RTPTime_of_parts n 0) = n /\
  GetMicroSeconds (RTPTime_of_parts n 0) = 0.
Proof.
  intros Hn. destruct (Z.lt_trichotomy n 0) as [Hneg|[->|Hpos]].
  - assert (Hm : 0 < - n < 2 ^ 53) by lia.
    destruct (RTPTime_of_whole_seconds _ Hm) as [_ E].
    rewrite Z.opp_involutive in E. rewrite E.
    destruct (cvttsd2si_Z2F _ Hm) as [C1 C2]. destruct (Z2F_positive _ Hm) as [_ P].
    unfold GetSeconds, GetMicroSeconds, cast_i64. cbn [m_t].
    rewrite P, float_opp_opp, C1, C2.
    rewrite (float_sub_self _ _ _ _ (Z2F_exact _ Hm)).
    split; [lia|]. by vm_compute.
  - by vm_compute.
  - assert (Hm : 0 < n < 2 ^ 53) by lia.
    destruct (RTPTime_of_whole_seconds _ Hm) as [E _]. rewrite E.
    destruct (cvttsd2si_Z2F _ Hm) as [C1 _]. destruct (Z2F_positive _ Hm) as [P _].
    unfold GetSeconds, GetMicroSeconds, cast_i64. cbn [m_t].
    rewrite P, C1. rewrite (float_sub_self _ _ _ _ (Z2F_exact _ Hm)).
    split; [done|]. by vm_compute.
Qed.

Lemma whole_seconds_read_back_witness :
  GetSeconds (RTPTime_of_parts (-1700000000) 0) = -1700000000 /\
  GetMicroSeconds (RTPTime_of_parts (-1700000000) 0) = 0.
Proof. apply (whole_seconds_read_back (-1700000000)). vm_compute. split; congruence. Defined.

(** X9.  A whole number of seconds that fits the most significant word goes
    to NTP format and back without any loss: [lsw] is 0 and the time
    that comes back is the one that went in. *)
Theorem whole_seconds_NTP_exact (n : Z) :
  0 <= n < two32 - RTP_NTPTIMEOFFSET ->
  GetNTPTime (RTPTime_of_parts n 0) = mkNTP (n + RTP_NTPTIMEOFFSET) 0 /\
  RTPTime_of_NTP (GetNTPTime (RTPTime_of_parts n 0)) = RTPTime_of_parts n 0.
Proof.
  unfold two32, RTP_NTPTIMEOFFSET. intros Hn.
  assert (E : GetNTPTime (RTPTime_of_parts n 0) = mkNTP (n + 2208988800) 0).
  { destruct (Z.eq_dec n 0) as [->|Hnz]; [by vm_compute|].
    assert (Hm : 0 < n < 2 ^ 53) by (change (2 ^ 53) with 9007199254740992; lia).
    destruct (RTPTime_of_whole_seconds _ Hm) as [-> _].
    destruct (cvttsd2si_Z2F _ Hm) as [C1 _].
    unfold GetNTPTime, cast_u32. cbn [m_t]. rewrite C1.
    rewrite (Z.mod_small n) by (unfold two32; lia).
    rewrite (float_sub_self _ _ _ _ (Z2F_exact _ Hm)).
    change (cvttsd2si (0 * 1e6) mod two32) with 0.
    change (lsw_of_microsec 0) with 0. f_equal.
    unfold RTP_NTPTIMEOFFSET, two32. apply Z.mod_small. lia. }
  split; [exact E|]. rewrite E.
  unfold RTPTime_of_NTP, RTPTime_of_parts, RTP_NTPTIMEOFFSET, two32. cbn [GetMSW GetLSW].
  rewrite (proj2 (Z.ltb_ge _ _)) by lia.
  replace (n + 2208988800 - 2208988800) with n by lia.
  rewrite Z.mod_small by lia.
  change (microsec_of_lsw 0) with 0.
  by rewrite (proj2 (Z.leb_le 0 n)) by lia.
Qed.

Lemma whole_seconds_NTP_exact_witness :
  GetNTPTime (RTPTime_of_parts 1700000000 0) = mkNTP 3908988800 0 /\
  RTPTime_of_NTP (GetNTPTime (RTPTime_of_parts 1700000000 0))
  = RTPTime_of_parts 1700000000 0.
Proof. apply (whole_seconds_NTP_exact 1700000000). vm_compute. split; congruence. Defined.

(** ** Rounding error of the operations *)

Lemma shr_m_shr_1_any r : 0 <= shr_m r -> shr_m (shr_1 r) = shr_m r / 2.
Proof. destruct r as [m r s]. apply shr_m_shr_1. Qed.

Lemma shr_m_iter p : forall r, 0 <= shr_m r ->
  shr_m (SpecFloat.iter_pos shr_1 p r) = shr_m r / 2 ^ Z.pos p.
Proof.
  assert (Hhalf : forall r, 0 <= shr_m r -> 0 <= shr_m (shr_1 r)).
  { intros r Hr. rewrite shr_m_shr_1_any by done. by apply Z.div_pos. }
  induction p as [p IH|p IH|]; intros r Hr; cbn [SpecFloat.iter_pos].
  - assert (0 < 2 ^ Z.pos p) by (apply Z.pow_pos_nonneg; lia).
    rewrite IH.
    + rewrite IH by by apply Hhalf. rewrite shr_m_shr_1_any by done.
      rewrite !Z.div_div by lia. f_equal.
      replace (Z.pos p~1) with (1 + Z.pos p + Z.pos p) by lia.
      rewrite !Z.pow_add_r by lia. change (2 ^ 1) with 2. lia.
    + rewrite IH by by apply Hhalf. apply Z.div_pos; [by apply Hhalf|done].
  - assert (0 < 2 ^ Z.pos p) by (apply Z.pow_pos_nonneg; lia).
    rewrite IH.
    + rewrite IH by done. rewrite Z.div_div by lia. f_equal.
      replace (Z.pos p~0) with (Z.pos p + Z.pos p) by lia.
      by rewrite Z.pow_add_r by lia.
    + rewrite IH by done. by apply Z.div_pos.
  - change (2 ^ 1) with 2. by apply shr_m_shr_1_any.
Qed.

Lemma pow2_lt_inv a b : 0 <= b -> 2 ^ a < 2 ^ b -> a < b.
Proof. intros Hb H. apply (Z.pow_lt_mono_r_iff 2); [lia|done|done]. Qed.

Lemma pow2_split a b : 0 <= a -> 0 <= b -> 2 ^ (a + b) = 2 ^ a * 2 ^ b.
Proof. intros. by apply Z.pow_add_r. Qed.

(** Rounding a mantissa of 53 bits or more: the mantissa kept is the
    given one cut to 53 bits, or one more. *)
Lemma binary_round_aux_cut m e :
  let n := Zdigits2 m - 53 in
  0 < m -> 0 <= n -> -1000 <= e + n <= 899 ->
  exists M0,
    m / 2 ^ n <= M0 <= m / 2 ^ n + 1 /\ 2 ^ 52 <= m / 2 ^ n < 2 ^ 53 /\
    binary_round_aux prec emax false m e loc_Exact
    = if M0 <? 2 ^ 53 then S754_finite false (Z.to_pos M0) (e + n)
      else S754_finite false 4503599627370496 (e + n + 1).
Proof.
  intros n Hm Hn He. unfold binary_round_aux.
  pose proof (Zdigits2_spec m Hm) as Hd.
  assert (Hq : 2 ^ 52 <= m / 2 ^ n < 2 ^ 53).
  { assert (0 < 2 ^ n) by (apply Z.pow_pos_nonneg; lia).
    replace (Zdigits2 m - 1) with (52 + n) in Hd by lia.
    replace (Zdigits2 m) with (53 + n) in Hd by lia.
    rewrite !pow2_split in Hd by lia.
    split; [apply Z.div_le_lower_bound|apply Z.div_lt_upper_bound]; lia. }
  unfold shr_fexp at 1. rewrite fexp_normal by lia.
  replace (Zdigits2 m + e - 53 - e) with n by lia.
  destruct n as [|p|p] eqn:En; [| |lia].
  - cbn [shr shr_record_of_loc shr_m loc_of_shr_record round_nearest_even].
    rewrite Z.pow_0_r, Z.div_1_r in Hq |- *. exists m.
    rewrite !Z.add_0_r.
    split; [lia|]. split; [done|]. apply round_done; lia.
  - cbn [shr]. rewrite shr_m_iter by (cbn; lia). cbn [shr_record_of_loc shr_m].
    set (l := loc_of_shr_record _).
    exists (round_nearest_even (m / 2 ^ Z.pos p) l).
    pose proof (round_nearest_even_near (m / 2 ^ Z.pos p) l).
    split; [done|]. split; [done|]. apply round_done; lia.
Qed.

(** The value of the result: within [2^-52] of the exact one. *)
Lemma round_near m e :
  0 < m -> 53 <= Zdigits2 m -> -104 <= e + (Zdigits2 m - 53) <= 11 ->
  -208 <= e ->
  exists v,
    pos_SF (binary_round_aux prec emax false m e loc_Exact) v /\
    near v (m * 2 ^ (e + 208)).
Proof.
  intros Hm Hd He He'.
  destruct (binary_round_aux_cut m e Hm) as (M0 & HM & Hq & ->); [lia|lia|].
  set (n := Zdigits2 m - 53) in *.
  assert (HT : 0 < 2 ^ n) by (apply Z.pow_pos_nonneg; lia).
  assert (HP : 0 < 2 ^ (e + 208)) by (apply Z.pow_pos_nonneg; lia).
  pose proof (Z.mul_div_le m (2 ^ n) HT) as Hlo.
  pose proof (Z.mul_succ_div_gt m (2 ^ n) HT) as Hhi.
  set (q := m / 2 ^ n) in *.
  assert (Hv : near (M0 * 2 ^ n * 2 ^ (e + 208)) (m * 2 ^ (e + 208))).
  { unfold near. split.
    - assert ((M0 * 2 ^ n - m) * 2 ^ 52 <= m) by nia.
      replace ((M0 * 2 ^ n * 2 ^ (e + 208) - m * 2 ^ (e + 208)) * 2 ^ 52)
        with ((M0 * 2 ^ n - m) * 2 ^ 52 * 2 ^ (e + 208)) by lia.
      apply Z.mul_le_mono_nonneg_r; lia.
    - assert ((m - M0 * 2 ^ n) * 2 ^ 52 <= m) by nia.
      replace ((m * 2 ^ (e + 208) - M0 * 2 ^ n * 2 ^ (e + 208)) * 2 ^ 52)
        with ((m - M0 * 2 ^ n) * 2 ^ 52 * 2 ^ (e + 208)) by lia.
      apply Z.mul_le_mono_nonneg_r; lia. }
  exists (M0 * 2 ^ n * 2 ^ (e + 208)). split; [|done].
  destruct (Z.ltb_spec M0 (2 ^ 53)) as [Hlt|Hge].
  - exists (Z.to_pos M0), (e + n). rewrite Z2Pos.id by lia.
    split; [done|]. split; [apply Zdigits2_53; lia|]. split; [lia|].
    replace (e + n + 208) with (n + (e + 208)) by lia.
    rewrite (pow2_split n (e + 208)) by lia. lia.
  - exists 4503599627370496%positive, (e + n + 1).
    split; [done|]. split; [done|]. split; [lia|].
    replace M0 with (2 ^ 53) by lia.
    replace (e + n + 1 + 208) with (1 + (n + (e + 208))) by lia.
    rewrite (pow2_split 1 (n + (e + 208))), (pow2_split n (e + 208)) by lia.
    change (2 ^ 1) with 2. change (2 ^ 53) with (2 ^ 52 * 2). lia.
Qed.

(** [binary_normalize] first widens a short mantissa to 53 bits. *)
Lemma normalize_near m e :
  0 < m -> -104 <= e + (Zdigits2 m - 53) <= 11 -> -208 <= e ->
  exists v,
    pos_SF (binary_normalize prec emax m e false) v /\
    near v (m * 2 ^ (e + 208)).
Proof.
  intros Hm He He'. destruct m as [|p|p]; try lia. cbn [binary_normalize].
  unfold binary_round, shl_align. change (Z.pos (digits2_pos p)) with (Zdigits2 (Z.pos p)).
  set (d := Zdigits2 (Z.pos p)) in *.
  rewrite fexp_normal by lia.
  destruct (d + e - 53 - e) as [|k|k] eqn:E.
  - apply round_near; fold d; lia.
  - apply round_near; fold d; lia.
  - assert (Hk : Z.pos k = 53 - d) by lia.
    assert (Hs : Zdigits2 (Z.pos (Pos.iter xO p k)) = 53).
    { rewrite iter_xO, Zdigits2_shift by lia. fold d. lia. }
    destruct (round_near (Z.pos (Pos.iter xO p k)) (d + e - 53)) as (v & Hv & Hn);
      rewrite ?Hs; try lia.
    exists v. split; [done|].
    replace (Z.pos p * 2 ^ (e + 208))
      with (Z.pos (Pos.iter xO p k) * 2 ^ (d + e - 53 + 208)); [done|].
    rewrite iter_xO, <- Z.mul_assoc, <- (pow2_split (Z.pos k)) by lia. f_equal. f_equal. lia.
Qed.

Lemma shl_align_fst m e e' : e' <= e ->
  Z.pos (fst (shl_align m e e')) = Z.pos m * 2 ^ (e - e').
Proof.
  intros He. unfold shl_align. destruct (e' - e) as [|k|k] eqn:E; cbn [fst]; try lia.
  - replace (e - e') with 0 by lia. lia.
  - rewrite iter_xO. f_equal. f_equal. lia.
Qed.

(** A mantissa of 53 bits brackets the value by powers of two. *)
Lemma pos_SF_bounds f v : pos_SF f v -> 0 < v /\ 2 ^ 156 <= v < 2 ^ 273.
Proof.
  intros (m & e & _ & Hd & He & ->).
  pose proof (Zdigits2_spec (Z.pos m) eq_refl) as Hm. rewrite Hd in Hm.
  assert (2 ^ 104 <= 2 ^ (e + 208)) by (apply Z.pow_le_mono_r; lia).
  assert (2 ^ (e + 208) <= 2 ^ 220) by (apply Z.pow_le_mono_r; lia).
  change (2 ^ 156) with (2 ^ 52 * 2 ^ 104). change (2 ^ 273) with (2 ^ 53 * 2 ^ 220).
  change (53 - 1) with 52 in Hm. split; [nia|]. split; [nia|].
  apply Z.lt_le_trans with (2 ^ 53 * 2 ^ (e + 208)); [|apply Z.mul_le_mono_nonneg_l; lia].
  apply Z.mul_lt_mono_pos_r; lia.
Qed.

(** From bounds on the value to bounds on the exponent. *)
Lemma exponent_bounds m e a b :
  0 < m -> -208 <= e -> 0 <= a -> 0 <= b ->
  2 ^ a <= m * 2 ^ (e + 208) < 2 ^ b ->
  a - 208 < Zdigits2 m + e <= b - 208.
Proof.
  intros Hm He Ha Hb [Hlo Hhi].
  pose proof (Zdigits2_spec m Hm) as [Hd1 Hd2].
  pose proof (Zdigits2_pos m Hm) as Hd.
  assert (HP : 0 < 2 ^ (e + 208)) by (apply Z.pow_pos_nonneg; lia).
  split.
  - assert (2 ^ a < 2 ^ (Zdigits2 m + (e + 208))).
    { rewrite (pow2_split (Zdigits2 m)) by lia. nia. }
    apply pow2_lt_inv in H; lia.
  - assert (2 ^ (Zdigits2 m - 1 + (e + 208)) < 2 ^ b).
    { rewrite (pow2_split (Zdigits2 m - 1)) by lia. nia. }
    apply pow2_lt_inv in H; lia.
Qed.

Lemma near_scale v X k : 0 <= k -> near v X -> near (v * k) (X * k).
Proof. unfold near. intros Hk [H1 H2]. split; nia. Qed.

(** A product of two positive doubles. *)
Lemma mul_pos x y vx vy :
  pos_double x vx -> pos_double y vy ->
  2 ^ 365 <= vx * vy < 2 ^ 479 ->
  exists v, pos_double (x * y) v /\ near (v * 2 ^ 208) (vx * vy).
Proof.
  intros (mx & ex & Hx & Dx & Ex & ->) (my & ey & Hy & Dy & Ey & ->) [Hlo Hhi].
  unfold pos_double. rewrite FloatAxioms.mul_spec, Hx, Hy.
  unfold SF64mul, SFmul. cbn [xorb]. rewrite Pos2Z.inj_mul.
  pose proof (Zdigits2_spec (Z.pos mx) eq_refl) as Bx. rewrite Dx in Bx.
  pose proof (Zdigits2_spec (Z.pos my) eq_refl) as By. rewrite Dy in By.
  change (53 - 1) with 52 in Bx, By.
  set (P := Z.pos mx * Z.pos my) in *.
  assert (HP : 2 ^ 104 <= P < 2 ^ 106).
  { change (2 ^ 104) with (2 ^ 52 * 2 ^ 52). change (2 ^ 106) with (2 ^ 53 * 2 ^ 53).
    unfold P. split; [apply Z.mul_le_mono_nonneg; lia|apply Z.mul_lt_mono_nonneg; lia]. }
  assert (HD : 105 <= Zdigits2 P <= 106).
  { split; [|apply Zdigits2_le; lia].
    pose proof (Zdigits2_spec P ltac:(lia)) as [_ HD].
    assert (2 ^ 104 < 2 ^ Zdigits2 P) by lia.
    apply pow2_lt_inv in H; [lia|]. pose proof (Zdigits2_pos P). lia. }
  assert (E : Z.pos mx * 2 ^ (ex + 208) * (Z.pos my * 2 ^ (ey + 208))
              = P * 2 ^ (ex + ey + 416)).
  { replace (ex + ey + 416) with (ex + 208 + (ey + 208)) by lia.
    rewrite (pow2_split (ex + 208) (ey + 208)) by lia. unfold P. lia. }
  rewrite E in Hlo, Hhi |- *.
  assert (HQ : 0 < 2 ^ (ex + ey + 416)) by (apply Z.pow_pos_nonneg; lia).
  assert (He : -157 < ex + ey < -41).
  { split.
    - assert (2 ^ 365 < 2 ^ (106 + (ex + ey + 416))) by (rewrite (pow2_split 106) by lia; nia).
      apply pow2_lt_inv in H; lia.
    - assert (2 ^ (104 + (ex + ey + 416)) < 2 ^ 479) by (rewrite (pow2_split 104) by lia; nia).
      apply pow2_lt_inv in H; lia. }
  destruct (round_near P (ex + ey)) as (v & Hv & Hn); try lia.
  exists v. split; [done|].
  replace (P * 2 ^ (ex + ey + 416)) with (P * 2 ^ (ex + ey + 208) * 2 ^ 208).
  - apply near_scale; [lia|done].
  - replace (ex + ey + 416) with (ex + ey + 208 + 208) by lia.
    rewrite (pow2_split (ex + ey + 208) 208) by lia. lia.
Qed.

(** What two aligned mantissas are worth. *)
Lemma aligned_value m e e' :
  e' <= e -> -208 <= e' ->
  Z.pos (fst (shl_align m e e')) * 2 ^ (e' + 208) = Z.pos m * 2 ^ (e + 208).
Proof.
  intros He He'. rewrite shl_align_fst by done.
  replace (e + 208) with (e - e' + (e' + 208)) by lia.
  rewrite (pow2_split (e - e')) by lia. lia.
Qed.

(** A sum of two positive doubles. *)
Lemma add_pos x y vx vy :
  pos_double x vx -> pos_double y vy -> vx + vy < 2 ^ 272 ->
  exists v, pos_double (x + y) v /\ near v (vx + vy).
Proof.
  intros Px Py Hhi.
  pose proof (pos_SF_bounds _ _ Px) as Bx. pose proof (pos_SF_bounds _ _ Py) as By.
  destruct Px as (mx & ex & Hx & Dx & Ex & Vx). destruct Py as (my & ey & Hy & Dy & Ey & Vy).
  unfold pos_double. rewrite FloatAxioms.add_spec, Hx, Hy.
  unfold SF64add, SFadd. cbn [cond_Zopp]. set (ez := Z.min ex ey).
  set (S := Z.pos (fst (shl_align mx ex ez)) + Z.pos (fst (shl_align my ey ez))).
  assert (HS : S * 2 ^ (ez + 208) = vx + vy).
  { unfold S. rewrite Z.mul_add_distr_r, !aligned_value by lia. lia. }
  assert (HSpos : 0 < S) by (unfold S; lia).
  destruct (exponent_bounds S ez 156 272) as [B1 B2]; try lia.
  assert (H53 : 53 <= Zdigits2 S).
  { pose proof (Zdigits2_spec (Z.pos mx) eq_refl) as Hm. rewrite Dx in Hm.
    pose proof (Zdigits2_spec S HSpos) as [_ HD].
    assert (2 ^ 52 <= S).
    { unfold S. rewrite (shl_align_fst mx) by lia.
      assert (1 <= 2 ^ (ex - ez)) by (apply (Z.pow_le_mono_r 2 0); lia).
      change (53 - 1) with 52 in Hm. nia. }
    assert (2 ^ 52 < 2 ^ Zdigits2 S) by lia.
    pose proof (Zdigits2_pos S HSpos).
    apply pow2_lt_inv in H0; lia. }
  destruct (normalize_near S ez) as (v & Hv & Hn); try lia.
  exists v. split; [done|]. by rewrite <- HS.
Qed.

(** A difference of two positive doubles, the larger first. *)
Lemma sub_pos x y vx vy :
  pos_double x vx -> pos_double y vy -> 2 ^ 156 <= vx - vy -> vx < 2 ^ 272 ->
  exists v, pos_double (x - y) v /\ near v (vx - vy).
Proof.
  intros Px Py Hlo Hhi.
  pose proof (pos_SF_bounds _ _ Py) as By.
  destruct Px as (mx & ex & Hx & Dx & Ex & Vx). destruct Py as (my & ey & Hy & Dy & Ey & Vy).
  unfold pos_double. rewrite FloatAxioms.sub_spec, Hx, Hy.
  unfold SF64sub, SFsub. cbn [cond_Zopp]. set (ez := Z.min ex ey).
  set (S := Z.pos (fst (shl_align mx ex ez)) - Z.pos (fst (shl_align my ey ez))).
  assert (HS : S * 2 ^ (ez + 208) = vx - vy).
  { unfold S. rewrite Z.mul_sub_distr_r, !aligned_value by lia. lia. }
  assert (HQ : 0 < 2 ^ (ez + 208)) by (apply Z.pow_pos_nonneg; lia).
  assert (HSpos : 0 < S) by (assert (0 < 2 ^ 156) by done; nia).
  destruct (exponent_bounds S ez 156 272) as [B1 B2]; try lia.
  destruct (normalize_near S ez) as (v & Hv & Hn); try lia.
  exists v. split; [done|]. by rewrite <- HS.
Qed.

(** The integer part of a positive double. *)
Lemma trunc_pos x v : pos_double x v ->
  trunc x = Some (v / 2 ^ 208) /\ trunc (- x) = Some (- (v / 2 ^ 208)).
Proof.
  intros (m & e & Hx & _ & He & ->). unfold trunc.
  rewrite FloatAxioms.opp_spec, Hx. cbn [SFopp negb].
  assert (E : (if 0 <=? e then Z.shiftl (Z.pos m) e else Z.shiftr (Z.pos m) (- e))
              = Z.pos m * 2 ^ (e + 208) / 2 ^ 208).
  { destruct (Z.leb_spec 0 e).
    - rewrite Z.shiftl_mul_pow2, (pow2_split e 208), Z.mul_assoc, Z.div_mul by lia. done.
    - rewrite Z.shiftr_div_pow2 by lia.
      replace 208 with (- e + (e + 208)) at 2 by lia.
      rewrite (pow2_split (- e)) by lia.
      assert (0 < 2 ^ (e + 208)) by (apply Z.pow_pos_nonneg; lia).
      assert (0 < 2 ^ (- e)) by (apply Z.pow_pos_nonneg; lia).
      rewrite Z.div_mul_cancel_r by lia. done. }
  by rewrite E.
Qed.

Lemma cvttsd2si_pos x v : pos_double x v -> v < 2 ^ 271 ->
  cvttsd2si x = v / 2 ^ 208 /\ cvttsd2si (- x) = - (v / 2 ^ 208).
Proof.
  intros Px Hv. destruct (trunc_pos x v Px) as [E1 E2].
  pose proof (pos_SF_bounds _ _ Px) as [Hpos _].
  assert (0 <= v / 2 ^ 208 < 2 ^ 63).
  { split; [apply Z.div_pos; lia|]. apply Z.div_lt_upper_bound; [lia|].
    change (2 ^ 208 * 2 ^ 63) with (2 ^ 271). lia. }
  unfold cvttsd2si. rewrite E1, E2. unfold two63.
  change (2 ^ 63) with 9223372036854775808 in H.
  rewrite !(proj2 (Z.leb_le _ _)), !(proj2 (Z.ltb_lt _ _)) by lia. done.
Qed.

Lemma leb_pos x v : pos_double x v ->
  (0 <=? x)%float = true /\ (0 <=? - x)%float = false.
Proof.
  intros (m & e & Hx & _). rewrite !FloatAxioms.leb_spec, FloatAxioms.opp_spec, Hx.
  change (Prim2SF 0) with (S754_zero false). done.
Qed.

Lemma Z2F_pos z : 0 < z < 2 ^ 53 -> pos_double (Z2F z) (z * 2 ^ 208).
Proof.
  intros Hz. unfold pos_double. rewrite (Z2F_exact z Hz).
  set (d := Zdigits2 z).
  assert (Hd : 0 < d <= 53) by (split; [apply Zdigits2_pos|apply Zdigits2_le]; lia).
  assert (Hp : 0 < 2 ^ (53 - d)) by (apply Z.pow_pos_nonneg; lia).
  eexists _, _. split; [done|]. rewrite Z2Pos.id by nia.
  split; [rewrite Zdigits2_shift by lia; fold d; lia|]. split; [lia|].
  replace 208 with (53 - d + (d - 53 + 208)) at 1 by lia.
  rewrite (pow2_split (53 - d)) by lia. lia.
Qed.

Lemma float_0_add x s m e :
  Prim2SF x = S754_finite s m e -> (0 + x)%float = x.
Proof.
  intros Hx. apply Prim2SF_inj. rewrite FloatAxioms.add_spec, Hx.
  change (Prim2SF 0) with (S754_zero false). done.
Qed.

Lemma float_sub_0 x s m e :
  Prim2SF x = S754_finite s m e -> (x - 0)%float = x.
Proof.
  intros Hx. apply Prim2SF_inj. rewrite FloatAxioms.sub_spec, Hx.
  change (Prim2SF 0) with (S754_zero false). done.
Qed.

Lemma div_between a b q : 0 < b -> q * b <= a < (q + 1) * b -> a / b = q.
Proof. intros Hb H. symmetry. apply Z.div_unique with (a - q * b); lia. Qed.

(** The three constants of the conversions. *)
Lemma pos_1e_6 : pos_double 1e-6 (4722366482869645 * 2 ^ 136).
Proof. exists 4722366482869645%positive, (-72). done. Qed.

Lemma pos_1e6 : pos_double 1e6 (1000000 * 2 ^ 208).
Proof. exists 8589934592000000%positive, (-33). done. Qed.

Lemma pos_half : pos_double 0.5 (2 ^ 207).
Proof. exists 4503599627370496%positive, (-53). done. Qed.

(** ** Seconds and microseconds *)

(** What [(double)seconds + 1e-6*(double)microseconds] is worth: the
    product and the sum are each rounded once. *)
Lemma stored_parts s u :
  0 <= s < 2 ^ 31 -> 0 < u < 1000000 ->
  exists vy vz,
    pos_double (Z2F s + 1e-6 * Z2F u) vz /\
    near (vy * 2 ^ 208) (4722366482869645 * 2 ^ 136 * (u * 2 ^ 208)) /\
    near vz (s * 2 ^ 208 + vy).
Proof.
  intros Hs Hu.
  assert (Pu : pos_double (Z2F u) (u * 2 ^ 208)).
  { apply Z2F_pos. change (2 ^ 53) with 9007199254740992. lia. }
  destruct (mul_pos _ _ _ _ pos_1e_6 Pu) as (vy & Py & Ny); [lia|].
  exists vy. destruct (Z.eq_dec s 0) as [->|Hnz].
  - exists vy. change (Z2F 0) with 0%float.
    destruct Py as (m & e & Hy & Hrest).
    rewrite (float_0_add _ _ _ _ Hy).
    split; [by exists m, e|]. split; [done|].
    pose proof (pos_SF_bounds _ vy (ex_intro _ m (ex_intro _ e (conj Hy Hrest)))).
    unfold near. lia.
  - assert (Ps : pos_double (Z2F s) (s * 2 ^ 208)).
    { apply Z2F_pos. change (2 ^ 53) with 9007199254740992. lia. }
    destruct (add_pos _ _ _ _ Ps Py) as (vz & Pz & Nz); [unfold near in Ny; lia|].
    by exists vz.
Qed.

(** The time [RTPTime(seconds, microseconds)] stores, and the fraction
    the getters take off it: both are within 0.48 microseconds of what
    was given. *)
Lemma fraction_of_parts s u :
  0 <= s < 2 ^ 31 -> 0 < u < 1000000 ->
  let z := (Z2F s + 1e-6 * Z2F u)%float in
  cvttsd2si z = s /\ cvttsd2si (- z) = - s /\
  exists vz vf,
    pos_double z vz /\ pos_double (z - Z2F s) vf /\
    (100 * u - 49) * 2 ^ 208 <= 100000000 * vf <= (100 * u + 49) * 2 ^ 208 /\
    (100 * (1000000 * s + u) - 48) * 2 ^ 208 <= 100000000 * vz
      <= (100 * (1000000 * s + u) + 48) * 2 ^ 208 /\
    Z.abs (1000000 * vz - (1000000 * s + u) * 2 ^ 208) * 2 ^ 52
      <= 1000000 * (s + 3) * 2 ^ 208.
Proof.
  intros Hs Hu z.
  destruct (stored_parts s u Hs Hu) as (vy & vz & Pz & Ny & Nz). fold z in Pz.
  unfold near in Ny, Nz.
  destruct (cvttsd2si_pos z vz Pz) as [C1 C2]; [lia|].
  assert (Hsec : vz / 2 ^ 208 = s) by (apply div_between; lia).
  rewrite Hsec in C1, C2. split; [done|]. split; [done|].
  exists vz.
  assert (exists vf, pos_double (z - Z2F s) vf /\ near vf (vz - s * 2 ^ 208))
    as (vf & Pf & Nf).
  { destruct (Z.eq_dec s 0) as [->|Hnz].
    - exists vz. change (Z2F 0) with 0%float.
      destruct Pz as (m & e & Hz & Hrest). rewrite (float_sub_0 _ _ _ _ Hz).
      split; [by exists m, e|]. unfold near. lia.
    - apply sub_pos; [done| |lia|lia].
      apply Z2F_pos. change (2 ^ 53) with 9007199254740992. lia. }
  unfold near in Nf. exists vf. split; [done|]. split; [done|]. split; [lia|]. split; lia.
Qed.

Lemma pos_1e9 : pos_double 1e9 (1000000000 * 2 ^ 208).
Proof. exists 8388608000000000%positive, (-23). done. Qed.

Lemma pos_two63 : pos_double 9223372036854775808 (2 ^ 63 * 2 ^ 208).
Proof. exists 4503599627370496%positive, 11. done. Qed.

(** Positive doubles compare as their values do. *)
Lemma SFcompare_pos f g vx vy :
  pos_SF f vx -> pos_SF g vy -> SFcompare f g = Some (vx ?= vy).
Proof.
  intros (mx & ex & -> & Dx & Ex & ->) (my & ey & -> & Dy & Ey & ->).
  cbn [SFcompare]. f_equal.
  pose proof (Zdigits2_spec (Z.pos mx) eq_refl) as Bx. rewrite Dx in Bx.
  pose proof (Zdigits2_spec (Z.pos my) eq_refl) as By. rewrite Dy in By.
  change (53 - 1) with 52 in Bx, By. change (2 ^ 53) with (2 ^ 52 * 2) in Bx, By.
  assert (Hx : 0 < 2 ^ (ex + 208)) by (apply Z.pow_pos_nonneg; lia).
  assert (Hy : 0 < 2 ^ (ey + 208)) by (apply Z.pow_pos_nonneg; lia).
  destruct (Z.compare_spec ex ey) as [->|Hlt|Hgt]; symmetry.
  - change (Pos.compare_cont Eq mx my) with (Z.pos mx ?= Z.pos my).
    destruct (Z.compare_spec (Z.pos mx) (Z.pos my)) as [E|Hlt|Hgt].
    + apply Z.compare_eq_iff. by rewrite E.
    + apply Z.compare_lt_iff. nia.
    + apply Z.compare_gt_iff. nia.
  - apply Z.compare_lt_iff.
    assert (2 * 2 ^ (ex + 208) <= 2 ^ (ey + 208)).
    { replace (ey + 208) with (1 + (ey - ex - 1) + (ex + 208)) by lia.
      rewrite (pow2_split (1 + (ey - ex - 1))), (pow2_split 1) by lia.
      assert (1 <= 2 ^ (ey - ex - 1)) by (apply (Z.pow_le_mono_r 2 0); lia).
      change (2 ^ 1) with 2. nia. }
    nia.
  - apply Z.compare_gt_iff.
    assert (2 * 2 ^ (ey + 208) <= 2 ^ (ex + 208)).
    { replace (ex + 208) with (1 + (ex - ey - 1) + (ey + 208)) by lia.
      rewrite (pow2_split (1 + (ex - ey - 1))), (pow2_split 1) by lia.
      assert (1 <= 2 ^ (ex - ey - 1)) by (apply (Z.pow_le_mono_r 2 0); lia).
      change (2 ^ 1) with 2. nia. }
    nia.
Qed.

Lemma compare_pos x y vx vy :
  pos_double x vx -> pos_double y vy ->
  (x <? y)%float = (vx <? vy) /\ (x <=? y)%float = (vx <=? vy).
Proof.
  intros Px Py. rewrite FloatAxioms.ltb_spec, FloatAxioms.leb_spec.
  unfold SFltb, SFleb. rewrite (SFcompare_pos _ _ _ _ Px Py).
  unfold Z.ltb, Z.leb. by destruct (vx ?= vy).
Qed.

Lemma compare_pos_0 x v : pos_double x v ->
  (x <? 0)%float = false /\ (x <=? 0)%float = false /\
  (0 <? x)%float = true /\ (0 <=? x)%float = true.
Proof.
  intros (m & e & Hx & _).
  rewrite !FloatAxioms.ltb_spec, !FloatAxioms.leb_spec, Hx.
  change (Prim2SF 0) with (S754_zero false). done.
Qed.

(** What the readers make of a fraction within 0.49 microseconds of [u]
    microseconds: [GetMicroSeconds] rounds and finds [u]; [GetNTPTime]
    cuts and finds [u] or [u - 1]; [Wait] cuts [1e9] times the fraction
    and finds [1000 * u] nanoseconds to within 500. *)
Lemma read_fraction f vf u :
  pos_double f vf -> 0 < u < 1000000 ->
  (100 * u - 49) * 2 ^ 208 <= 100000000 * vf <= (100 * u + 49) * 2 ^ 208 ->
  cvttsd2si (1e6 * f + 0.5) = u /\
  (cvttsd2si (f * 1e6) = u \/ cvttsd2si (f * 1e6) = u - 1) /\
  1000 * u - 500 <= cvttsd2si (1e9 * f) <= 1000 * u + 500.
Proof.
  intros Pf Hu Hf. split; [|split].
  - destruct (mul_pos _ _ _ _ pos_1e6 Pf) as (vg & Pg & Ng); [lia|]. unfold near in Ng.
    destruct (add_pos _ _ _ _ Pg pos_half) as (vh & Ph & Nh); [lia|]. unfold near in Nh.
    destruct (cvttsd2si_pos _ vh Ph) as [-> _]; [lia|].
    apply div_between; lia.
  - destruct (mul_pos _ _ _ _ Pf pos_1e6) as (vg & Pg & Ng); [lia|]. unfold near in Ng.
    destruct (cvttsd2si_pos _ vg Pg) as [-> _]; [lia|].
    destruct (Z_lt_le_dec vg (u * 2 ^ 208)).
    + right. apply div_between; lia.
    + left. apply div_between; lia.
  - destruct (mul_pos _ _ _ _ pos_1e9 Pf) as (vg & Pg & Ng); [lia|]. unfold near in Ng.
    destruct (cvttsd2si_pos _ vg Pg) as [-> _]; [lia|].
    assert (1000 * u - 500 <= vg / 2 ^ 208).
    { apply Z.div_le_lower_bound; lia. }
    assert (vg / 2 ^ 208 < 1000 * u + 500).
    { apply Z.div_lt_upper_bound; lia. }
    lia.
Qed.

(** X23.  Up to [2^31] seconds of either sign, the constructor
    [RTPTime(seconds, microseconds)] and the two getters are inverse:
    [GetSeconds] returns the seconds and [GetMicroSeconds] the
    microseconds that were given, for every microsecond count below one
    million.  The roundings on the way in and on the way out never add
    up to half a microsecond. *)
Theorem parts_read_back (s u : Z) :
  - 2 ^ 31 < s < 2 ^ 31 -> 0 <= u < 1000000 ->
  GetSeconds (RTPTime_of_parts s u) = s /\
  GetMicroSeconds (RTPTime_of_parts s u) = u.
Proof.
  intros Hs Hu. change (2 ^ 31) with 2147483648 in Hs.
  destruct (Z.eq_dec u 0) as [->|Hnz].
  { destruct (Z.lt_trichotomy s 0) as [Hneg|[->|Hpos]]; [| by vm_compute|].
    - assert (Hm : 0 < - s < 2 ^ 53) by (change (2 ^ 53) with 9007199254740992; lia).
      destruct (RTPTime_of_whole_seconds _ Hm) as [_ E].
      rewrite Z.opp_involutive in E. rewrite E.
      destruct (cvttsd2si_Z2F _ Hm) as [C1 C2]. destruct (Z2F_positive _ Hm) as [_ P].
      unfold GetSeconds, GetMicroSeconds, cast_i64. cbn [m_t].
      rewrite P, float_opp_opp, C1, C2.
      rewrite (float_sub_self _ _ _ _ (Z2F_exact _ Hm)).
      split; [lia|]. by vm_compute.
    - assert (Hm : 0 < s < 2 ^ 53) by (change (2 ^ 53) with 9007199254740992; lia).
      destruct (RTPTime_of_whole_seconds _ Hm) as [E _]. rewrite E.
      destruct (cvttsd2si_Z2F _ Hm) as [C1 _]. destruct (Z2F_positive _ Hm) as [P _].
      unfold GetSeconds, GetMicroSeconds, cast_i64. cbn [m_t].
      rewrite P, C1. rewrite (float_sub_self _ _ _ _ (Z2F_exact _ Hm)).
      split; [done|]. by vm_compute. }
  assert (Hu' : 0 < u < 1000000) by lia.
  assert (Hclamp : (if 1000000 <=? u mod two32 then 999999 else u mod two32) = u).
  { rewrite Z.mod_small by (unfold two32; lia). by rewrite (proj2 (Z.leb_gt _ _)) by lia. }
  unfold RTPTime_of_parts, GetSeconds, GetMicroSeconds, cast_i64, cast_u32.
  destruct (Z.leb_spec 0 s) as [Hpos|Hneg]; cbn [m_t].
  - assert (Hs' : 0 <= s < 2 ^ 31) by (change (2 ^ 31) with 2147483648; lia).
    destruct (fraction_of_parts s u Hs' Hu') as (C1 & _ & vz & vf & Pz & Pf & Hf & _).
    destruct (read_fraction _ vf u Pf Hu' Hf) as (C3 & _).
    destruct (leb_pos _ _ Pz) as [-> _]. by rewrite C1, C3.
  - assert (Hs' : 0 <= - s < 2 ^ 31) by (change (2 ^ 31) with 2147483648; lia).
    destruct (fraction_of_parts (- s) u Hs' Hu') as (C1 & C2 & vz & vf & Pz & Pf & Hf & _).
    destruct (read_fraction _ vf u Pf Hu' Hf) as (C3 & _).
    destruct (leb_pos _ _ Pz) as [_ ->]. rewrite float_opp_opp, C1, C2, C3.
    split; [lia|done].
Qed.

Lemma parts_read_back_witness :
  GetSeconds (RTPTime_of_parts (-1700000000) 999999) = -1700000000 /\
  GetMicroSeconds (RTPTime_of_parts (-1700000000) 999999) = 999999.
Proof. apply (parts_read_back (-1700000000) 999999); vm_compute; split; congruence. Defined.

(** Beyond [2^33] seconds a double no longer holds every microsecond. *)
Example microseconds_lost_past_2_33 :
  GetMicroSeconds (RTPTime_of_parts (2 ^ 33) 1) = 2.
Proof. by vm_compute. Qed.

(** ** Constructed times in NTP format *)

(** X24.  The NTP time of [RTPTime(seconds, microseconds)], while the
    seconds fit the most significant word: that word is the seconds
    plus the offset, and the least significant word is the fraction of
    the microseconds given, or of one less: [GetNTPTime] cuts the
    fraction it reads, where [GetMicroSeconds] rounds it.  Converting
    back gives the same seconds and at most two microseconds less. *)
Theorem NTP_of_parts (s u : Z) :
  0 <= s < two32 - RTP_NTPTIMEOFFSET -> 0 <= u < 1000000 ->
  exists m back,
    (m = u \/ (0 < u /\ m = u - 1)) /\
    GetNTPTime (RTPTime_of_parts s u)
    = mkNTP (s + RTP_NTPTIMEOFFSET) (m * two32 / 1000000) /\
    RTPTime_of_NTP (GetNTPTime (RTPTime_of_parts s u)) = RTPTime_of_parts s back /\
    0 <= back /\ u - 2 <= back <= u.
Proof.
  unfold two32, RTP_NTPTIMEOFFSET. intros Hs Hu.
  assert (exists m, (m = u \/ (0 < u /\ m = u - 1)) /\
            GetNTPTime (RTPTime_of_parts s u)
            = mkNTP (s + 2208988800) (lsw_of_microsec m))
    as (m & Hm & E).
  { assert (Hmsw : (s + RTP_NTPTIMEOFFSET) mod two32 = s + 2208988800).
    { unfold two32, RTP_NTPTIMEOFFSET. apply Z.mod_small. lia. }
    destruct (Z.eq_dec u 0) as [->|Hnz].
    - exists 0. split; [by left|].
      destruct (Z.eq_dec s 0) as [->|Hsz]; [by vm_compute|].
      assert (Hp : 0 < s < 2 ^ 53) by (change (2 ^ 53) with 9007199254740992; lia).
      destruct (RTPTime_of_whole_seconds _ Hp) as [-> _].
      destruct (cvttsd2si_Z2F _ Hp) as [C1 _].
      unfold GetNTPTime, cast_u32. cbn [m_t]. rewrite C1.
      rewrite (Z.mod_small s) by (unfold two32; lia).
      rewrite (float_sub_self _ _ _ _ (Z2F_exact _ Hp)), Hmsw.
      by change (cvttsd2si (0 * 1e6) mod two32) with 0.
    - assert (Hu' : 0 < u < 1000000) by lia.
      assert (Hs' : 0 <= s < 2 ^ 31) by (change (2 ^ 31) with 2147483648; lia).
      destruct (fraction_of_parts s u Hs' Hu') as (C1 & _ & vz & vf & Pz & Pf & Hf & _).
      destruct (read_fraction _ vf u Pf Hu' Hf) as (_ & C3 & _).
      unfold RTPTime_of_parts. rewrite (proj2 (Z.leb_le 0 s)) by lia.
      unfold GetNTPTime, cast_u32. cbn [m_t]. rewrite C1.
      rewrite (Z.mod_small s) by (unfold two32; lia). rewrite Hmsw.
      destruct C3 as [-> | ->]; [exists u|exists (u - 1)];
        (split; [lia|]);
        [rewrite (Z.mod_small u)|rewrite (Z.mod_small (u - 1))];
        (done || (unfold two32; lia)). }
  assert (Hm' : 0 <= m < 1000000) by lia.
  exists m, (microsec_of_lsw (lsw_of_microsec m)).
  pose proof (microsec_round_trip m Hm') as (Hb0 & Hb1 & _).
  split; [done|]. split; [by rewrite E, lsw_of_microsec_exact|].
  split; [|lia].
  rewrite E. unfold RTPTime_of_NTP, RTPTime_of_parts. cbn [GetMSW GetLSW].
  unfold RTP_NTPTIMEOFFSET, two32 in *.
  destruct (Z.ltb_spec (s + 2208988800) 2208988800); [lia|].
  replace (s + 2208988800 - 2208988800) with s by lia.
  rewrite Z.mod_small by lia.
  destruct (Z.leb_spec 0 s); [done|lia].
Qed.

Lemma NTP_of_parts_witness :
  exists m back,
    (m = 3 \/ (0 < 3 /\ m = 3 - 1)) /\
    GetNTPTime (RTPTime_of_parts 1700000000 3)
    = mkNTP (1700000000 + RTP_NTPTIMEOFFSET) (m * two32 / 1000000) /\
    RTPTime_of_NTP (GetNTPTime (RTPTime_of_parts 1700000000 3))
    = RTPTime_of_parts 1700000000 back /\
    0 <= back /\ 3 - 2 <= back <= 3.
Proof. apply (NTP_of_parts 1700000000 3); vm_compute; split; congruence. Defined.

(** One microsecond past 1700000000 s has no fraction left in NTP
    format; three microseconds keep two. *)
Example NTP_fraction_cut :
  GetNTPTime (RTPTime_of_parts 1700000000 1) = mkNTP 3908988800 0 /\
  GetNTPTime (RTPTime_of_parts 1700000000 3) = mkNTP 3908988800 (3 * two32 / 1000000) /\
  RTPTime_of_NTP (GetNTPTime (RTPTime_of_parts 1700000000 3))
  = RTPTime_of_parts 1700000000 2.
Proof. by vm_compute. Qed.

(** ** Constructed times compared and waited for *)

(** The value a constructed time stores, when it is not zero. *)
Lemma stored_value s u :
  0 <= s < 2 ^ 31 -> 0 <= u < 1000000 -> 0 < s + u ->
  exists vz,
    pos_double (m_t (RTPTime_of_parts s u)) vz /\
    (100 * (1000000 * s + u) - 48) * 2 ^ 208 <= 100000000 * vz
      <= (100 * (1000000 * s + u) + 48) * 2 ^ 208 /\
    Z.abs (1000000 * vz - (1000000 * s + u) * 2 ^ 208) * 2 ^ 52
      <= 1000000 * (s + 3) * 2 ^ 208.
Proof.
  intros Hs Hu Hnz. destruct (Z.eq_dec u 0) as [->|Huz].
  - assert (Hp : 0 < s < 2 ^ 53).
    { change (2 ^ 31) with 2147483648 in Hs. change (2 ^ 53) with 9007199254740992. lia. }
    destruct (RTPTime_of_whole_seconds _ Hp) as [-> _]. cbn [m_t].
    exists (s * 2 ^ 208). split; [by apply Z2F_pos|lia].
  - destruct (fraction_of_parts s u Hs) as (_ & _ & vz & vf & Pz & _ & _ & Hz); [lia|].
    exists vz. unfold RTPTime_of_parts. rewrite (proj2 (Z.leb_le 0 s)) by lia. done.
Qed.

(** X25.  Times constructed from seconds and microseconds compare as the
    microsecond counts they were made of: [operator<] and [operator<=]
    never mistake two of them, although each is stored rounded. *)
Theorem parts_order (s1 u1 s2 u2 : Z) :
  0 <= s1 < 2 ^ 31 -> 0 <= u1 < 1000000 ->
  0 <= s2 < 2 ^ 31 -> 0 <= u2 < 1000000 ->
  lt (RTPTime_of_parts s1 u1) (RTPTime_of_parts s2 u2)
  = (1000000 * s1 + u1 <? 1000000 * s2 + u2) /\
  le (RTPTime_of_parts s1 u1) (RTPTime_of_parts s2 u2)
  = (1000000 * s1 + u1 <=? 1000000 * s2 + u2).
Proof.
  intros Hs1 Hu1 Hs2 Hu2. unfold lt, le.
  destruct (Z.eq_dec (s1 + u1) 0) as [Z1|N1]; destruct (Z.eq_dec (s2 + u2) 0) as [Z2|N2].
  - replace s1 with 0 by lia. replace u1 with 0 by lia.
    replace s2 with 0 by lia. replace u2 with 0 by lia. by vm_compute.
  - replace s1 with 0 by lia. replace u1 with 0 by lia.
    destruct (stored_value s2 u2) as (v2 & P2 & B2); [done|done|lia|].
    change (m_t (RTPTime_of_parts 0 0)) with 0%float.
    destruct (compare_pos_0 _ _ P2) as (_ & _ & -> & ->).
    split; symmetry; [apply Z.ltb_lt|apply Z.leb_le]; lia.
  - replace s2 with 0 by lia. replace u2 with 0 by lia.
    destruct (stored_value s1 u1) as (v1 & P1 & B1); [done|done|lia|].
    change (m_t (RTPTime_of_parts 0 0)) with 0%float.
    destruct (compare_pos_0 _ _ P1) as (-> & -> & _).
    split; symmetry; [apply Z.ltb_ge|apply Z.leb_gt]; lia.
  - destruct (stored_value s1 u1) as (v1 & P1 & B1); [done|done|lia|].
    destruct (Z.eq_dec (1000000 * s1 + u1) (1000000 * s2 + u2)) as [E|NE].
    + assert (s1 = s2) as <- by lia. assert (u1 = u2) as <- by lia.
      destruct (compare_pos _ _ _ _ P1 P1) as [-> ->].
      by rewrite !Z.ltb_irrefl, !Z.leb_refl.
    + destruct (stored_value s2 u2) as (v2 & P2 & B2); [done|done|lia|].
      destruct (compare_pos _ _ _ _ P1 P2) as [-> ->].
      destruct (Z_lt_le_dec (1000000 * s1 + u1) (1000000 * s2 + u2)).
      * rewrite !(proj2 (Z.ltb_lt _ _)), !(proj2 (Z.leb_le _ _)) by lia. done.
      * rewrite !(proj2 (Z.ltb_ge _ _)), !(proj2 (Z.leb_gt _ _)) by lia. done.
Qed.

Lemma parts_order_witness :
  lt (RTPTime_of_parts 1700000000 999999) (RTPTime_of_parts 1700000001 0)
  = (1000000 * 1700000000 + 999999 <? 1000000 * 1700000001 + 0) /\
  le (RTPTime_of_parts 1700000000 999999) (RTPTime_of_parts 1700000001 0)
  = (1000000 * 1700000000 + 999999 <=? 1000000 * 1700000001 + 0).
Proof.
  apply (parts_order 1700000000 999999 1700000001 0); vm_compute; split; congruence.
Defined.

(** The request [Wait] makes of a constructed delay. *)
Lemma Wait_request_parts s u :
  0 <= s < 2 ^ 31 -> 0 <= u < 1000000 -> 0 < s + u ->
  (m_t (RTPTime_of_parts s u) <=? 0)%float = false /\
  exists ns,
    Wait_request (RTPTime_of_parts s u) = mkTimespec s ns /\
    0 <= ns <= 999999999 /\ 1000 * u - 500 <= ns <= 1000 * u + 500.
Proof.
  intros Hs Hu Hnz.
  destruct (stored_value s u Hs Hu Hnz) as (vz & Pz & Bz).
  destruct (compare_pos_0 _ _ Pz) as (_ & L0 & _). split; [done|].
  destruct (compare_pos _ _ _ _ pos_two63 Pz) as [_ L63].
  assert (Hbig : (2 ^ 63 * 2 ^ 208 <=? vz) = false) by (apply Z.leb_gt; lia).
  rewrite Hbig in L63.
  change (2 ^ 31) with 2147483648 in Hs.
  assert (Hmod : s mod two64 = s) by (apply Z.mod_small; unfold two64; lia).
  assert (Hsec : (if s <? two63 then s else s - two64) = s).
  { by rewrite (proj2 (Z.ltb_lt _ _)) by (unfold two63; lia). }
  unfold Wait_request, cast_u64, cast_u32. rewrite L63.
  destruct (Z.eq_dec u 0) as [->|Huz].
  - assert (Hp : 0 < s < 2 ^ 53) by (change (2 ^ 53) with 9007199254740992; lia).
    destruct (RTPTime_of_whole_seconds _ Hp) as [-> _]. cbn [m_t].
    destruct (cvttsd2si_Z2F _ Hp) as [-> _].
    rewrite Hmod, Hsec, (float_sub_self _ _ _ _ (Z2F_exact _ Hp)).
    change (cvttsd2si (1e9 * 0) mod two32) with 0.
    exists 0. split; [done|lia].
  - assert (Hu' : 0 < u < 1000000) by lia.
    assert (Hs' : 0 <= s < 2 ^ 31) by (change (2 ^ 31) with 2147483648; lia).
    destruct (fraction_of_parts s u Hs' Hu') as (C1 & _ & vz' & vf & _ & Pf & Hf & _).
    destruct (read_fraction _ vf u Pf Hu' Hf) as (_ & _ & C3).
    unfold RTPTime_of_parts. rewrite (proj2 (Z.leb_le 0 s)) by lia. cbn [m_t].
    rewrite C1, Hmod, Hsec.
    eexists. split; [done|].
    rewrite Z.mod_small by (unfold two32; lia). lia.
Qed.

(** X26.  [Wait] with a delay constructed from seconds and microseconds
    sleeps that long to within half a microsecond, whatever signals
    interrupt it, and calls [nanosleep] at most once more than there
    are signals. *)
Theorem Wait_parts (s u : Z) (rem0 : timespec) (signals : list Z) :
  0 <= s < 2 ^ 31 -> 0 <= u < 1000000 -> 0 < s + u ->
  exists slept calls,
    Wait (RTPTime_of_parts s u) rem0 signals = (slept, calls) /\
    Z.abs (slept - (1000000000 * s + 1000 * u)) <= 500 /\
    (1 <= calls <= S (length signals))%nat.
Proof.
  intros Hs Hu Hnz.
  destruct (Wait_request_parts s u Hs Hu Hnz) as (Hd & ns & Hreq & Hns & Hnear).
  unfold Wait. rewrite Hd, Hreq.
  destruct (Wait_loop_total signals (mkTimespec s ns) rem0 0 O) as (n & -> & Hn).
  { unfold valid_request. cbn [tv_sec tv_nsec]. lia. }
  exists (0 + ns_of (mkTimespec s ns)), n. split; [done|].
  unfold ns_of. cbn [tv_sec tv_nsec]. lia.
Qed.

Lemma Wait_parts_witness :
  exists slept calls,
    Wait (RTPTime_of_parts 2 500000) (mkTimespec 0 0) [300000000; 200000000]
    = (slept, calls) /\
    Z.abs (slept - (1000000000 * 2 + 1000 * 500000)) <= 500 /\
    (1 <= calls <= 3)%nat.
Proof.
  apply (Wait_parts 2 500000 (mkTimespec 0 0) [300000000; 200000000]);
    vm_compute; (split; congruence) || reflexivity.
Defined.

(** ** Reading any time, and differences *)

(** A difference of two doubles that are at least 1, the larger first:
    it is zero when they are equal. *)
Lemma sub_ge x y vx vy :
  pos_double x vx -> pos_double y vy ->
  2 ^ 208 <= vy -> vy <= vx -> vx < 2 ^ 272 ->
  (vx = vy /\ (x - y)%float = 0%float) \/
  (vy < vx /\ exists v, pos_double (x - y) v /\ near v (vx - vy)).
Proof.
  intros Px Py Hy Hxy Hx.
  destruct Px as (mx & ex & Ex & Dx & Rx & Vx). destruct Py as (my & ey & Ey & Dy & Ry & Vy).
  destruct (exponent_bounds (Z.pos mx) ex 208 272) as [Bx _]; try lia.
  destruct (exponent_bounds (Z.pos my) ey 208 272) as [By _]; try lia.
  set (ez := Z.min ex ey).
  set (S := Z.pos (fst (shl_align mx ex ez)) - Z.pos (fst (shl_align my ey ez))).
  assert (HS : S * 2 ^ (ez + 208) = vx - vy).
  { unfold S. rewrite Z.mul_sub_distr_r, !aligned_value by lia. lia. }
  assert (HQ : 2 ^ 156 <= 2 ^ (ez + 208)) by (apply Z.pow_le_mono_r; lia).
  assert (Hsub : Prim2SF (x - y) = binary_normalize prec emax S ez false).
  { rewrite FloatAxioms.sub_spec, Ex, Ey. done. }
  destruct (Z.eq_dec vx vy) as [E|NE].
  - left. split; [done|]. apply Prim2SF_inj. rewrite Hsub.
    assert (S = 0) as -> by nia. done.
  - right. split; [lia|]. apply (sub_pos x y vx vy); try lia.
    + by exists mx, ex.
    + by exists my, ey.
    + assert (1 <= S) by nia. nia.
Qed.

(** What the getters read off a positive double below [2^53]: the
    integer part, and microseconds that fall short of the fraction by
    less than one and exceed it by hardly more than a half. *)
Lemma read_double d vd :
  pos_double d vd -> vd < 2 ^ 53 * 2 ^ 208 ->
  let k := vd / 2 ^ 208 in
  let usec := cast_u32 (1e6 * (d - Z2F k) + 0.5) in
  let capped := if 1000000 <=? usec then 999999 else usec in
  cvttsd2si d = k /\ cvttsd2si (- d) = - k /\ 0 <= k < 2 ^ 53 /\
  0 <= capped <= 999999 /\
  - 2 ^ 208 < (1000000 * k + capped) * 2 ^ 208 - 1000000 * vd /\
  1000 * ((1000000 * k + capped) * 2 ^ 208 - 1000000 * vd) <= 501 * 2 ^ 208.
Proof.
  intros Pd Hd k usec capped.
  pose proof (pos_SF_bounds _ _ Pd) as [Hpos _].
  destruct (cvttsd2si_pos d vd Pd) as [C1 C2]; [lia|]. fold k in C1, C2.
  assert (Hk : k * 2 ^ 208 <= vd < (k + 1) * 2 ^ 208).
  { unfold k. pose proof (Z.mul_div_le vd (2 ^ 208) eq_refl).
    pose proof (Z.mul_succ_div_gt vd (2 ^ 208) eq_refl). lia. }
  assert (Hk53 : 0 <= k < 2 ^ 53).
  { split; [apply Z.div_pos; lia|]. apply Z.div_lt_upper_bound; lia. }
  split; [done|]. split; [done|]. split; [done|].
  assert (Hcases : (vd = k * 2 ^ 208 /\ (d - Z2F k)%float = 0%float) \/
                   exists vf, pos_double (d - Z2F k) vf /\ near vf (vd - k * 2 ^ 208)).
  { destruct (Z.eq_dec k 0) as [E|NE].
    - right. rewrite E. change (Z2F 0) with 0%float. exists vd.
      destruct Pd as (m & e & Hz & Hrest). rewrite (float_sub_0 _ _ _ _ Hz).
      split; [by exists m, e|]. unfold near. lia.
    - destruct (sub_ge d (Z2F k) vd (k * 2 ^ 208) Pd) as [[E Z]|[Hlt Hv]]; try lia.
      + apply Z2F_pos. lia.
      + by left.
      + by right. }
  destruct Hcases as [[E Z]|(vf & Pf & Nf)].
  - unfold capped, usec. rewrite Z.
    change (cast_u32 (1e6 * 0 + 0.5)) with 0. cbn. lia.
  - unfold near in Nf.
    destruct (mul_pos _ _ _ _ pos_1e6 Pf) as (vg & Pg & Ng).
    { pose proof (pos_SF_bounds _ _ Pf) as [_ [B1 B2]]. lia. }
    unfold near in Ng.
    destruct (add_pos _ _ _ _ Pg pos_half) as (vh & Ph & Nh); [lia|]. unfold near in Nh.
    destruct (cvttsd2si_pos _ vh Ph) as [C3 _]; [lia|].
    pose proof (pos_SF_bounds _ _ Ph) as [Hhpos _].
    assert (Hu : vh / 2 ^ 208 * 2 ^ 208 <= vh < (vh / 2 ^ 208 + 1) * 2 ^ 208).
    { pose proof (Z.mul_div_le vh (2 ^ 208) eq_refl).
      pose proof (Z.mul_succ_div_gt vh (2 ^ 208) eq_refl). lia. }
    assert (Hu0 : 0 <= vh / 2 ^ 208 <= 1000000).
    { split; [apply Z.div_pos; lia|]. 
      assert (vh / 2 ^ 208 < 1000001); [|lia]. apply Z.div_lt_upper_bound; lia. }
    assert (Husec : usec = vh / 2 ^ 208).
    { unfold usec, cast_u32. rewrite C3. apply Z.mod_small. unfold two32. lia. }
    unfold capped. rewrite Husec.
    destruct (Z.leb_spec 1000000 (vh / 2 ^ 208)); lia.
Qed.

(** The reading of a positive time: seconds and microseconds together,
    in microseconds. *)
Lemma reading_pos d vd :
  pos_double d vd -> vd < 2 ^ 53 * 2 ^ 208 ->
  let R := 1000000 * GetSeconds (mkTime d) + GetMicroSeconds (mkTime d) in
  GetSeconds (mkTime d) = vd / 2 ^ 208 /\
  0 <= GetMicroSeconds (mkTime d) <= 999999 /\
  - 2 ^ 208 < R * 2 ^ 208 - 1000000 * vd /\
  1000 * (R * 2 ^ 208 - 1000000 * vd) <= 501 * 2 ^ 208.
Proof.
  intros Pd Hd. destruct (read_double d vd Pd Hd) as (C1 & _ & _ & Hc & H1 & H2).
  destruct (leb_pos _ _ Pd) as [L _].
  unfold GetSeconds, GetMicroSeconds, cast_i64. cbn [m_t]. rewrite L, C1. done.
Qed.

(** X27.  Whatever positive double between [2^-52] and [2^53] seconds a
    time stores, [GetSeconds] and [GetMicroSeconds] together tell it to
    within a microsecond: they fall short of it by less than one
    microsecond and exceed it by at most 0.501.  The time of opposite
    sign has the opposite seconds and the same microseconds. *)
Theorem getters_within_a_microsecond (d : float) (v : Z) :
  pos_double d v -> v < 2 ^ 53 * 2 ^ 208 ->
  let R := 1000000 * GetSeconds (mkTime d) + GetMicroSeconds (mkTime d) in
  - 2 ^ 208 < R * 2 ^ 208 - 1000000 * v /\
  1000 * (R * 2 ^ 208 - 1000000 * v) <= 501 * 2 ^ 208 /\
  GetSeconds (mkTime (- d)) = - GetSeconds (mkTime d) /\
  GetMicroSeconds (mkTime (- d)) = GetMicroSeconds (mkTime d).
Proof.
  intros Pd Hd R. destruct (reading_pos d v Pd Hd) as (_ & _ & H1 & H2).
  split; [done|]. split; [done|].
  destruct (read_double d v Pd Hd) as (C1 & C2 & _).
  destruct (leb_pos _ _ Pd) as [L1 L2].
  unfold GetSeconds, GetMicroSeconds, cast_i64. cbn [m_t].
  rewrite L1, L2, float_opp_opp, C1, C2. done.
Qed.

Lemma getters_within_a_microsecond_witness :
  let R := 1000000 * GetSeconds (mkTime 1.5) + GetMicroSeconds (mkTime 1.5) in
  - 2 ^ 208 < R * 2 ^ 208 - 1000000 * (3 * 2 ^ 207) /\
  1000 * (R * 2 ^ 208 - 1000000 * (3 * 2 ^ 207)) <= 501 * 2 ^ 208 /\
  GetSeconds (mkTime (- 1.5)) = - GetSeconds (mkTime 1.5) /\
  GetMicroSeconds (mkTime (- 1.5)) = GetMicroSeconds (mkTime 1.5).
Proof.
  apply (getters_within_a_microsecond 1.5 (3 * 2 ^ 207)).
  - exists 6755399441055744%positive, (-52). done.
  - done.
Defined.

(** X28.  The difference of two constructed times, the later first,
    reads back as the difference of their microsecond counts, to within
    one microsecond. *)
Theorem difference_read_back (s1 u1 s2 u2 : Z) :
  0 <= s1 < 2 ^ 31 -> 0 <= u1 < 1000000 ->
  0 <= s2 < 2 ^ 31 -> 0 <= u2 < 1000000 ->
  1000000 * s2 + u2 <= 1000000 * s1 + u1 ->
  let t := sub_assign (RTPTime_of_parts s1 u1) (RTPTime_of_parts s2 u2) in
  Z.abs (1000000 * GetSeconds t + GetMicroSeconds t
         - ((1000000 * s1 + u1) - (1000000 * s2 + u2))) <= 1.
Proof.
  intros Hs1 Hu1 Hs2 Hu2 Hle. unfold sub_assign.
  destruct (Z.eq_dec (1000000 * s2 + u2) (1000000 * s1 + u1)) as [E|NE].
  { assert (s2 = s1) as -> by lia. assert (u2 = u1) as -> by lia.
    destruct (Z.eq_dec (s1 + u1) 0) as [Z1|N1].
    - replace s1 with 0 by lia. replace u1 with 0 by lia. by vm_compute.
    - destruct (stored_value s1 u1) as (v1 & (m & e & Hx & _) & _); [done|done|lia|].
      rewrite (float_sub_self _ _ _ _ Hx).
      change (GetSeconds (mkTime 0)) with 0. change (GetMicroSeconds (mkTime 0)) with 0.
      lia. }
  destruct (stored_value s1 u1) as (v1 & P1 & B1 & A1); [done|done|lia|].
  assert (exists vd,
            pos_double (m_t (RTPTime_of_parts s1 u1) - m_t (RTPTime_of_parts s2 u2)) vd /\
            Z.abs (1000000 * vd
                   - ((1000000 * s1 + u1) - (1000000 * s2 + u2)) * 2 ^ 208) * 2 ^ 52
            <= 1000000 * (2 * s1 + 8) * 2 ^ 208)
    as (vd & Pd & Bd).
  { destruct (Z.eq_dec (s2 + u2) 0) as [Z2|N2].
    - replace s2 with 0 by lia. replace u2 with 0 by lia.
      change (m_t (RTPTime_of_parts 0 0)) with 0%float.
      destruct P1 as (m & e & Hx & Hrest). rewrite (float_sub_0 _ _ _ _ Hx).
      exists v1. split; [by exists m, e|]. lia.
    - destruct (stored_value s2 u2) as (v2 & P2 & B2 & A2); [done|done|lia|].
      destruct (sub_pos _ _ _ _ P1 P2) as (vd & Pd & Nd); [lia|lia|].
      exists vd. split; [done|]. unfold near in Nd. lia. }
  cbv zeta.
  destruct (reading_pos _ vd Pd) as (_ & _ & R1 & R2); [lia|].
  cbv zeta in R1, R2. lia.
Qed.

Lemma difference_read_back_witness :
  let t := sub_assign (RTPTime_of_parts 1700000001 250000)
                      (RTPTime_of_parts 1700000000 750000) in
  Z.abs (1000000 * GetSeconds t + GetMicroSeconds t
         - ((1000000 * 1700000001 + 250000) - (1000000 * 1700000000 + 750000))) <= 1.
Proof.
  apply (difference_read_back 1700000001 250000 1700000000 750000);
    vm_compute; (split; congruence) || congruence.
Defined.

(** X29.  The sum of two constructed times reads back as the sum of
    their microsecond counts, to within one microsecond. *)
Theorem sum_read_back (s1 u1 s2 u2 : Z) :
  0 <= s1 -> 0 <= u1 < 1000000 -> 0 <= s2 -> 0 <= u2 < 1000000 ->
  s1 + s2 < 2 ^ 31 ->
  let t := add_assign (RTPTime_of_parts s1 u1) (RTPTime_of_parts s2 u2) in
  Z.abs (1000000 * GetSeconds t + GetMicroSeconds t
         - ((1000000 * s1 + u1) + (1000000 * s2 + u2))) <= 1.
Proof.
  intros Hs1 Hu1 Hs2 Hu2 Hsum. unfold add_assign.
  change (2 ^ 31) with 2147483648 in Hsum.
  assert (Hr1 : 0 <= s1 < 2 ^ 31) by (change (2 ^ 31) with 2147483648; lia).
  assert (Hr2 : 0 <= s2 < 2 ^ 31) by (change (2 ^ 31) with 2147483648; lia).
  destruct (Z.eq_dec (s1 + u1) 0) as [Z1|N1]; destruct (Z.eq_dec (s2 + u2) 0) as [Z2|N2].
  - replace s1 with 0 by lia. replace u1 with 0 by lia.
    replace s2 with 0 by lia. replace u2 with 0 by lia. by vm_compute.
  - replace s1 with 0 by lia. replace u1 with 0 by lia.
    change (m_t (RTPTime_of_parts 0 0)) with 0%float.
    destruct (stored_value s2 u2) as (v2 & P2 & B2 & A2); [done|done|lia|].
    assert (P2' := P2). destruct P2' as (m & e & Hx & _).
    rewrite (float_0_add _ _ _ _ Hx). cbv zeta.
    destruct (reading_pos _ v2 P2) as (_ & _ & R1 & R2); [lia|].
    cbv zeta in R1, R2. lia.
  - replace s2 with 0 by lia. replace u2 with 0 by lia.
    change (m_t (RTPTime_of_parts 0 0)) with 0%float.
    destruct (stored_value s1 u1) as (v1 & P1 & B1 & A1); [done|done|lia|].
    assert (P1' := P1). destruct P1' as (m & e & Hx & _).
    rewrite (float_add_0 _ _ _ _ Hx). cbv zeta.
    destruct (reading_pos _ v1 P1) as (_ & _ & R1 & R2); [lia|].
    cbv zeta in R1, R2. lia.
  - destruct (stored_value s1 u1) as (v1 & P1 & B1 & A1); [done|done|lia|].
    destruct (stored_value s2 u2) as (v2 & P2 & B2 & A2); [done|done|lia|].
    destruct (add_pos _ _ _ _ P1 P2) as (vd & Pd & Nd); [lia|]. unfold near in Nd.
    cbv zeta.
    destruct (reading_pos _ vd Pd) as (_ & _ & R1 & R2); [lia|].
    cbv zeta in R1, R2. lia.
Qed.

Lemma sum_read_back_witness :
  let t := add_assign (RTPTime_of_parts 1000000000 750000)
                      (RTPTime_of_parts 700000000 750000) in
  Z.abs (1000000 * GetSeconds t + GetMicroSeconds t
         - ((1000000 * 1000000000 + 750000) + (1000000 * 700000000 + 750000))) <= 1.
Proof.
  apply (sum_read_back 1000000000 750000 700000000 750000);
    vm_compute; (split; congruence) || congruence.
Defined.

End TimeUtil.

(* ===================================================================== *)
(** * rtpkeyhashtable.h                                                  *)
(* ===================================================================== *)

Module KeyHashTable.

(** The address of a [HashElement] allocated with [RTPNew]; a pointer is
    an address or null ([None]). *)
Definition loc := positive.
Abbreviation ptr := (option loc) (only parsing).

(** ** Neighbours in a list of addresses *)

(** The address that follows [p] in [l], and the one that precedes it. *)
Fixpoint next_of (l : list loc) (p : loc) : ptr :=
  match l with
  | [] => None
  | x :: r => if decide (x = p) then head r else next_of r p
  end.

Definition prev_of (l : list loc) (p : loc) : ptr := next_of (reverse l) p.

(** [l] without [p]. *)
Definition unlink (p : loc) (l : list loc) : list loc := filter (λ q, q ≠ p) l.

Section Neighbours.

Implicit Types (l : list loc) (p q x : loc).

Lemma NoDup_rev l : NoDup l -> NoDup (reverse l).
Proof. by rewrite reverse_Permutation. Qed.

Lemma next_of_notin l p : p ∉ l -> next_of l p = None.
Proof.
  induction l as [|a r IH]; simpl; [done|]. intros Hp.
  apply not_elem_of_cons in Hp as [Hne Hr]. rewrite decide_False by done. auto.
Qed.

Lemma next_of_elem l p q : next_of l p = Some q -> p ∈ l /\ q ∈ l.
Proof.
  induction l as [|a r IH]; simpl; [done|].
  destruct (decide (a = p)) as [->|Hne].
  - intros Hh. split; [left|]. destruct r; simplify_eq/=. right; left.
  - intros Hn. destruct (IH Hn). split; by right.
Qed.

Lemma next_of_split l p q :
  NoDup l -> (next_of l p = Some q <-> exists l1 l2, l = l1 ++ p :: q :: l2).
Proof.
  induction l as [|a r IH]; simpl; intros Hnd.
  - split; [done|]. intros ([|??] & ? & ?); done.
  - apply NoDup_cons in Hnd as [Ha Hnd]. destruct (decide (a = p)) as [->|Hne].
    + split.
      * intros Hh. destruct r as [|b r']; simplify_eq/=. by exists [], r'.
      * intros (l1 & l2 & Heq). destruct l1 as [|c l1]; simplify_eq/=; [done|].
        exfalso. apply Ha. apply elem_of_app. right; left.
    + rewrite IH by done. split.
      * intros (l1 & l2 & ->). by exists (a :: l1), l2.
      * intros (l1 & l2 & Heq). destruct l1 as [|c l1]; simplify_eq/=. by exists l1, l2.
Qed.

Lemma prev_of_split l p q :
  NoDup l -> (prev_of l p = Some q <-> exists l1 l2, l = l1 ++ q :: p :: l2).
Proof.
  intros Hnd. unfold prev_of. rewrite next_of_split by by apply NoDup_rev.
  split; intros (l1 & l2 & Heq).
  - exists (reverse l2), (reverse l1).
    rewrite <- (reverse_involutive l), Heq, reverse_app, !reverse_cons.
    by rewrite <- !app_assoc.
  - exists (reverse l2), (reverse l1).
    rewrite Heq, reverse_app, !reverse_cons. by rewrite <- !app_assoc.
Qed.

(** [q] is followed by [p] exactly when [p] is preceded by [q]. *)
Lemma next_prev l p q : NoDup l -> (next_of l q = Some p <-> prev_of l p = Some q).
Proof. intros Hnd. by rewrite next_of_split, prev_of_split. Qed.

Lemma next_of_None l p : NoDup l -> p ∈ l -> (next_of l p = None <-> last l = Some p).
Proof.
  induction l as [|a r IH]; simpl; intros Hnd Hp; [by apply elem_of_nil in Hp|].
  apply NoDup_cons in Hnd as [Ha Hnd]. destruct (decide (a = p)) as [->|Hne].
  - destruct r as [|b r']; simpl; [done|]. split; [done|]. intros Hl.
    exfalso. apply Ha. by apply last_Some_elem_of in Hl.
  - apply elem_of_cons in Hp as [->|Hp]; [done|]. rewrite IH by done.
    destruct r; [by apply elem_of_nil in Hp|done].
Qed.

Lemma prev_of_None l p : NoDup l -> p ∈ l -> (prev_of l p = None <-> head l = Some p).
Proof.
  intros Hnd Hp. unfold prev_of. rewrite next_of_None, last_reverse; [done| |].
  - by apply NoDup_rev.
  - by apply elem_of_reverse.
Qed.

Lemma prev_of_elem l p q : prev_of l p = Some q -> p ∈ l /\ q ∈ l.
Proof.
  unfold prev_of. intros Hn. apply next_of_elem in Hn. by rewrite !elem_of_reverse in Hn.
Qed.

Lemma prev_of_notin l p : p ∉ l -> prev_of l p = None.
Proof. intros Hp. apply next_of_notin. by rewrite elem_of_reverse. Qed.

(** Appending at the end, as the insertion-order list grows. *)
Lemma next_of_snoc l x p :
  NoDup l -> x ∉ l ->
  next_of (l ++ [x]) p =
    if decide (p = x) then None
    else if decide (last l = Some p) then Some x else next_of l p.
Proof.
  intros Hnd Hx. induction l as [|a r IH]; simpl.
  - destruct (decide (x = p)), (decide (p = x)); congruence.
  - apply NoDup_cons in Hnd as [Ha Hnd]. apply not_elem_of_cons in Hx as [Hxa Hx].
    destruct (decide (a = p)) as [->|Hne].
    + rewrite (decide_False (P := p = x)) by done.
      destruct r as [|b r']; simpl; [by rewrite decide_True|].
      rewrite decide_False; [done|]. intros Hl. apply Ha.
      by apply last_Some_elem_of in Hl.
    + rewrite IH by done. destruct (decide (p = x)); [done|].
      destruct r as [|b r']; simpl; [|done].
      rewrite (decide_False (P := Some a = Some p)) by congruence. done.
Qed.

Lemma prev_of_snoc l x p :
  prev_of (l ++ [x]) p = if decide (x = p) then last l else prev_of l p.
Proof. unfold prev_of. rewrite reverse_snoc. simpl. by rewrite head_reverse. Qed.

(** Pushing at the front, as a bucket chain grows. *)
Lemma prev_of_cons l x p :
  NoDup l -> x ∉ l ->
  prev_of (x :: l) p =
    if decide (p = x) then None
    else if decide (head l = Some p) then Some x else prev_of l p.
Proof.
  intros Hnd Hx. unfold prev_of. rewrite reverse_cons, next_of_snoc.
  - by rewrite last_reverse.
  - by apply NoDup_rev.
  - by rewrite elem_of_reverse.
Qed.

(** Taking an element out. *)
Lemma elem_of_unlink p q l : q ∈ unlink p l <-> q ∈ l /\ q <> p.
Proof. unfold unlink. rewrite list_elem_of_filter. tauto. Qed.

Lemma unlink_notin p l : p ∉ l -> unlink p l = l.
Proof.
  unfold unlink. induction l as [|a r IH]; [done|]. intros Hp.
  apply not_elem_of_cons in Hp as [Hne Hr].
  rewrite filter_cons_True by done. by rewrite IH.
Qed.

Lemma NoDup_unlink p l : NoDup l -> NoDup (unlink p l).
Proof. apply NoDup_filter. Qed.

Lemma unlink_reverse p l : unlink p (reverse l) = reverse (unlink p l).
Proof. apply filter_reverse. Qed.

Lemma head_unlink l p :
  NoDup l -> head (unlink p l) = if decide (head l = Some p) then next_of l p else head l.
Proof.
  intros Hnd. destruct l as [|a r]; [done|]. apply NoDup_cons in Hnd as [Ha Hnd].
  unfold unlink. simpl. destruct (decide (a = p)) as [->|Hne].
  - rewrite filter_cons_False by (intros Hn; by apply Hn).
    rewrite decide_True by done. fold (unlink p r). by rewrite unlink_notin.
  - rewrite filter_cons_True by done. rewrite decide_False by congruence. done.
Qed.

Lemma last_unlink l p :
  NoDup l -> last (unlink p l) = if decide (last l = Some p) then prev_of l p else last l.
Proof.
  intros Hnd. rewrite <- !head_reverse, <- unlink_reverse, head_unlink by by apply NoDup_rev.
  done.
Qed.

Lemma next_of_unlink l p q :
  NoDup l -> q <> p ->
  next_of (unlink p l) q = if decide (next_of l q = Some p) then next_of l p else next_of l q.
Proof.
  intros Hnd Hqp. induction l as [|a r IH]; [done|].
  apply NoDup_cons in Hnd as [Ha Hnd]. specialize (IH Hnd).
  unfold unlink in *. simpl. destruct (decide (a = p)) as [->|Hne].
  - rewrite filter_cons_False by (intros Hn; by apply Hn).
    fold (unlink p r). rewrite unlink_notin by done.
    rewrite (decide_False (P := p = q)) by done.
    rewrite decide_False; [done|]. intros Hn. apply next_of_elem in Hn as [_ Hn]. done.
  - rewrite filter_cons_True by done. simpl.
    destruct (decide (a = q)) as [->|Hnq].
    + pose proof (head_unlink r p Hnd) as Hh. unfold unlink in Hh. by rewrite Hh.
    + by rewrite IH.
Qed.

Lemma prev_of_unlink l p q :
  NoDup l -> q <> p ->
  prev_of (unlink p l) q = if decide (prev_of l q = Some p) then prev_of l p else prev_of l q.
Proof.
  intros Hnd Hqp. unfold prev_of. rewrite <- unlink_reverse.
  by apply next_of_unlink; [apply NoDup_rev|].
Qed.

Lemma next_of_middle l1 p r : NoDup (l1 ++ p :: r) -> next_of (l1 ++ p :: r) p = head r.
Proof.
  induction l1 as [|a l1 IH]; simpl; intros Hnd.
  - by rewrite decide_True.
  - apply NoDup_cons in Hnd as [Ha Hnd]. rewrite decide_False; [auto|].
    intros ->. apply Ha. apply elem_of_app. right; left.
Qed.

Lemma next_of_not_self l p : NoDup l -> next_of l p <> Some p.
Proof.
  intros Hnd Hn. apply next_of_split in Hn as (l1 & l2 & ->); [|done].
  apply NoDup_app in Hnd as (_ & _ & Hnd). apply NoDup_cons in Hnd as [Hp _].
  apply Hp. left.
Qed.

Lemma prev_of_not_self l p : NoDup l -> prev_of l p <> Some p.
Proof. intros Hnd. apply next_of_not_self. by apply NoDup_rev. Qed.

End Neighbours.

Section Table.

Context {Key Element : Type} `{EqDecision Key}.

(** The template parameters [GetIndex] and [hashsize], and the error
    codes of [rtperrors.h], which is not part of the sources at hand. *)
Variable GetIndex : Key -> Z.
Variable hashsize : Z.
Variable ERR_RTP_KEYHASHTABLE_NOCURRENTELEMENT : Z.
Variable ERR_RTP_KEYHASHTABLE_FUNCTIONRETURNEDINVALIDHASHINDEX : Z.
Variable ERR_RTP_KEYHASHTABLE_KEYNOTFOUND : Z.
Variable ERR_RTP_KEYHASHTABLE_KEYALREADYEXISTS : Z.
Variable ERR_RTP_OUTOFMEM : Z.

(** [class HashElement] *)
Record HashElement := mkHashElement {
  hashindex : Z;
  key : Key;
  element : Element;
  hashprev : ptr;
  hashnext : ptr;
  listprev : ptr;
  listnext : ptr
}.

(** [HashElement(k,e,index)]: the four links are null. *)
Definition HashElement_new (k : Key) (e : Element) (index : Z) : HashElement :=
  mkHashElement index k e None None None None.

Definition set_hashprev (v : ptr) (n : HashElement) : HashElement :=
  mkHashElement (hashindex n) (key n) (element n) v (hashnext n) (listprev n) (listnext n).
Definition set_hashnext (v : ptr) (n : HashElement) : HashElement :=
  mkHashElement (hashindex n) (key n) (element n) (hashprev n) v (listprev n) (listnext n).
Definition set_listprev (v : ptr) (n : HashElement) : HashElement :=
  mkHashElement (hashindex n) (key n) (element n) (hashprev n) (hashnext n) v (listnext n).
Definition set_listnext (v : ptr) (n : HashElement) : HashElement :=
  mkHashElement (hashindex n) (key n) (element n) (hashprev n) (hashnext n) (listprev n) v.

(** The table object together with the elements it has allocated: [mem]
    maps the address of each live [HashElement] to its content. *)
Record RTPKeyHashTable := mkTable {
  mem : gmap loc HashElement;
  table : list ptr;
  firsthashelem : ptr;
  lasthashelem : ptr;
  curhashelem : ptr
}.

(** The operations return [None] where the C++ has no defined result:
    a null or dangling pointer is dereferenced, [table] is indexed
    outside its bounds, or a walk along a chain does not end. *)

(** [p->field], [p->field = v] *)
Definition load (m : gmap loc HashElement) (p : ptr) : option HashElement :=
  q ← p; m !! q.

Definition store (f : HashElement -> HashElement) (p : ptr) (t : RTPKeyHashTable)
  : option RTPKeyHashTable :=
  q ← p; _ ← mem t !! q;
  Some (mkTable (alter f q (mem t)) (table t) (firsthashelem t) (lasthashelem t)
          (curhashelem t)).

(** [table[index]], [table[index] = v] *)
Definition table_get (t : RTPKeyHashTable) (index : Z) : option ptr :=
  if index <? 0 then None else table t !! Z.to_nat index.

Definition table_set (index : Z) (v : ptr) (t : RTPKeyHashTable) : option RTPKeyHashTable :=
  if (index <? 0) || (Z.of_nat (length (table t)) <=? index) then None else
  Some (mkTable (mem t) (<[Z.to_nat index := v]> (table t)) (firsthashelem t)
          (lasthashelem t) (curhashelem t)).

Definition set_first (v : ptr) (t : RTPKeyHashTable) : RTPKeyHashTable :=
  mkTable (mem t) (table t) v (lasthashelem t) (curhashelem t).
Definition set_last (v : ptr) (t : RTPKeyHashTable) : RTPKeyHashTable :=
  mkTable (mem t) (table t) (firsthashelem t) v (curhashelem t).
Definition set_cur (v : ptr) (t : RTPKeyHashTable) : RTPKeyHashTable :=
  mkTable (mem t) (table t) (firsthashelem t) (lasthashelem t) v.

(** [RTPDelete(p,...)] *)
Definition RTPDelete (p : loc) (t : RTPKeyHashTable) : RTPKeyHashTable :=
  mkTable (delete p (mem t)) (table t) (firsthashelem t) (lasthashelem t) (curhashelem t).

(** [RTPNew(...) HashElement(k,elem,index)] placing the object at [p]. *)
Definition RTPNew (p : loc) (n : HashElement) (t : RTPKeyHashTable) : RTPKeyHashTable :=
  mkTable (<[p := n]> (mem t)) (table t) (firsthashelem t) (lasthashelem t) (curhashelem t).

(** The constructor; it does not set [curhashelem], whose value is
    whatever [cur0] the storage held. *)
Definition RTPKeyHashTable_new (cur0 : ptr) : RTPKeyHashTable :=
  mkTable ∅ (replicate (Z.to_nat hashsize) None) None None cur0.

Definition GotoFirstElement (t : RTPKeyHashTable) : RTPKeyHashTable :=
  set_cur (firsthashelem t) t.
Definition GotoLastElement (t : RTPKeyHashTable) : RTPKeyHashTable :=
  set_cur (lasthashelem t) t.
Definition HasCurrentElement (t : RTPKeyHashTable) : bool :=
  match curhashelem t with None => false | Some _ => true end.
Definition GetCurrentElement (t : RTPKeyHashTable) : option Element :=
  element <$> load (mem t) (curhashelem t).
Definition GetCurrentKey (t : RTPKeyHashTable) : option Key :=
  key <$> load (mem t) (curhashelem t).

(** The loop
    [while(!found && e != 0) { if (e->GetKey() == k) found = true; else e = e->hashnext; }]
    shared by [GotoElement], [HasElement] and [AddElement]; it yields
    [found] and the final [e].  A walk of more steps than there are live
    elements runs in a cycle and does not end. *)
Fixpoint chain_search (fuel : nat) (m : gmap loc HashElement) (k : Key) (e : ptr)
  : option (bool * ptr) :=
  match e with
  | None => Some (false, None)
  | Some p =>
      match fuel with
      | O => None
      | S fuel' =>
          n ← m !! p;
          if decide (key n = k) then Some (true, Some p)
          else chain_search fuel' m k (hashnext n)
      end
  end.

(** [DeleteCurrentElement], first block: "relink elements in current
    hash bucket"; [tmp1] and [tmp2] are [curhashelem->hashprev] and
    [curhashelem->hashnext]. *)
Definition relink_bucket (index : Z) (tmp1 tmp2 : ptr) (t : RTPKeyHashTable)
  : option RTPKeyHashTable :=
  match tmp1 with
  | None => (* no previous element in hash bucket *)
      t ← table_set index tmp2 t;
      match tmp2 with Some _ => store (set_hashprev None) tmp2 t | None => Some t end
  | Some _ => (* there is a previous element in the hash bucket *)
      t ← store (set_hashnext tmp2) tmp1 t;
      match tmp2 with Some _ => store (set_hashprev tmp1) tmp2 t | None => Some t end
  end.

(** [DeleteCurrentElement], second block: "relink elements in list";
    [tmp1] and [tmp2] are [curhashelem->listprev] and
    [curhashelem->listnext]. *)
Definition relink_list (tmp1 tmp2 : ptr) (t : RTPKeyHashTable) : option RTPKeyHashTable :=
  match tmp1 with
  | None => (* curhashelem is first in list *)
      let t := set_first tmp2 t in
      match tmp2 with
      | Some _ => store (set_listprev None) tmp2 t
      | None => Some (set_last None t) (* curhashelem is also last in list *)
      end
  | Some _ =>
      t ← store (set_listnext tmp2) tmp1 t;
      match tmp2 with
      | Some _ => store (set_listprev tmp1) tmp2 t
      | None => Some (set_last tmp1 t) (* curhashelem is last in list *)
      end
  end.

(** [int DeleteCurrentElement()] *)
Definition DeleteCurrentElement (t : RTPKeyHashTable) : option (Z * RTPKeyHashTable) :=
  match curhashelem t with
  | Some cur =>
      n ← mem t !! cur;
      t ← relink_bucket (hashindex n) (hashprev n) (hashnext n) t;
      n ← mem t !! cur;
      let tmp2 := listnext n in
      t ← relink_list (listprev n) tmp2 t;
      (* finally, with everything being relinked, we can delete curhashelem *)
      let t := RTPDelete cur t in
      Some (0, set_cur tmp2 t) (* Set to next element in list *)
  | None => Some (ERR_RTP_KEYHASHTABLE_NOCURRENTELEMENT, t)
  end.

(** [int GotoElement(const Key &k)] *)
Definition GotoElement (k : Key) (t : RTPKeyHashTable) : option (Z * RTPKeyHashTable) :=
  let index := GetIndex k in
  if hashsize <=? index
  then Some (ERR_RTP_KEYHASHTABLE_FUNCTIONRETURNEDINVALIDHASHINDEX, t) else
  e ← table_get t index;
  '(found, e) ← chain_search (S (size (mem t))) (mem t) k e;
  let t := set_cur e t in
  if negb found then Some (ERR_RTP_KEYHASHTABLE_KEYNOTFOUND, t) else Some (0, t).

(** [bool HasElement(const Key &k)] *)
Definition HasElement (k : Key) (t : RTPKeyHashTable) : option bool :=
  let index := GetIndex k in
  if hashsize <=? index then Some false else
  e ← table_get t index;
  '(found, _) ← chain_search (S (size (mem t))) (mem t) k e;
  Some found.

(** [void GotoNextElement()], [void GotoPreviousElement()] *)
Definition GotoNextElement (t : RTPKeyHashTable) : option RTPKeyHashTable :=
  match curhashelem t with
  | Some cur => n ← mem t !! cur; Some (set_cur (listnext n) t)
  | None => Some t
  end.
Definition GotoPreviousElement (t : RTPKeyHashTable) : option RTPKeyHashTable :=
  match curhashelem t with
  | Some cur => n ← mem t !! cur; Some (set_cur (listprev n) t)
  | None => Some t
  end.

(** [int AddElement(const Key &k,const Element &elem)]; [newelem] is
    what [RTPNew] returns, null when memory is exhausted. *)
Definition AddElement (k : Key) (elem : Element) (newelem : ptr) (t : RTPKeyHashTable)
  : option (Z * RTPKeyHashTable) :=
  let index := GetIndex k in
  if hashsize <=? index
  then Some (ERR_RTP_KEYHASHTABLE_FUNCTIONRETURNEDINVALIDHASHINDEX, t) else
  e ← table_get t index;
  '(found, _) ← chain_search (S (size (mem t))) (mem t) k e;
  if found : bool then Some (ERR_RTP_KEYHASHTABLE_KEYALREADYEXISTS, t) else
  (* Okay, the key doesn't exist, so we can add the new element in the hash table *)
  match newelem with
  | None => Some (ERR_RTP_OUTOFMEM, t)
  | Some new =>
      let t := RTPNew new (HashElement_new k elem index) t in
      e ← table_get t index;
      t ← table_set index newelem t;
      t ← store (set_hashnext e) newelem t;
      t ← match e with Some _ => store (set_hashprev newelem) e t | None => Some t end;
      (* Now, we still got to add it to the linked list *)
      t ← match firsthashelem t with
          | None => Some (set_last newelem (set_first newelem t))
          | Some _ =>
              t ← store (set_listnext newelem) (lasthashelem t) t;
              t ← store (set_listprev (lasthashelem t)) newelem t;
              Some (set_last newelem t)
          end;
      Some (0, t)
  end.

(** [int DeleteElement(const Key &k)] *)
Definition DeleteElement (k : Key) (t : RTPKeyHashTable) : option (Z * RTPKeyHashTable) :=
  '(status, t) ← GotoElement k t;
  if status <? 0 then Some (status, t) else DeleteCurrentElement t.

(** A traversal as the callers write it:
    [for (GotoFirstElement(); HasCurrentElement(); GotoNextElement())],
    collecting [GetCurrentKey()] and [GetCurrentElement()]. *)
Fixpoint visit (fuel : nat) (t : RTPKeyHashTable) : option (list (Key * Element)) :=
  if HasCurrentElement t then
    match fuel with
    | O => None
    | S fuel' =>
        k ← GetCurrentKey t;
        e ← GetCurrentElement t;
        t ← GotoNextElement t;
        rest ← visit fuel' t;
        Some ((k, e) :: rest)
    end
  else Some [].

Definition traverse (t : RTPKeyHashTable) : option (list (Key * Element)) :=
  visit (S (size (mem t))) (GotoFirstElement t).

(** The same traversal backwards:
    [for (GotoLastElement(); HasCurrentElement(); GotoPreviousElement())]. *)
Fixpoint visit_back (fuel : nat) (t : RTPKeyHashTable) : option (list (Key * Element)) :=
  if HasCurrentElement t then
    match fuel with
    | O => None
    | S fuel' =>
        k ← GetCurrentKey t;
        e ← GetCurrentElement t;
        t ← GotoPreviousElement t;
        rest ← visit_back fuel' t;
        Some ((k, e) :: rest)
    end
  else Some [].

Definition traverse_back (t : RTPKeyHashTable) : option (list (Key * Element)) :=
  visit_back (S (size (mem t))) (GotoLastElement t).

(** Emptying the container through the cursor:
    [GotoFirstElement(); while (HasCurrentElement()) DeleteCurrentElement();].
    The result is the number of elements deleted and the table left. *)
Fixpoint delete_loop (fuel : nat) (deleted : nat) (t : RTPKeyHashTable)
  : option (nat * RTPKeyHashTable) :=
  if HasCurrentElement t then
    match fuel with
    | O => None
    | S fuel' =>
        '(_, t) ← DeleteCurrentElement t;
        delete_loop fuel' (S deleted) t
    end
  else Some (deleted, t).

Definition delete_all (t : RTPKeyHashTable) : option (nat * RTPKeyHashTable) :=
  delete_loop (S (size (mem t))) O (GotoFirstElement t).

(** The second loop of [Clear]:
    [while (tmp1 != 0) { tmp2 = tmp1->listnext; RTPDelete(tmp1,...); tmp1 = tmp2; }].
    Each turn frees an element, so a walk that is defined ends within as
    many turns as there are live elements. *)
Fixpoint Clear_loop (fuel : nat) (tmp1 : ptr) (t : RTPKeyHashTable)
  : option RTPKeyHashTable :=
  match tmp1 with
  | None => Some t
  | Some p =>
      match fuel with
      | O => None
      | S fuel' =>
          n ← mem t !! p;
          Clear_loop fuel' (listnext n) (RTPDelete p t)
      end
  end.

(** [void Clear()]: every bucket is set to null, the elements are freed
    along the list, [firsthashelem] and [lasthashelem] are set to null.
    [curhashelem] is not assigned. *)
Definition Clear (t : RTPKeyHashTable) : option RTPKeyHashTable :=
  let t := mkTable (mem t) (replicate (Z.to_nat hashsize) None)
             (firsthashelem t) (lasthashelem t) (curhashelem t) in
  t ← Clear_loop (S (size (mem t))) (firsthashelem t) t;
  Some (set_last None (set_first None t)).

(** ** The container a table represents *)

(** A stored element: where its [HashElement] lives, its key and its
    value.  The container is the list of its elements in the order of
    their insertion. *)
Record entry := mkEntry { e_loc : loc; e_key : Key; e_elem : Element }.

Definition locs (es : list entry) : list loc := e_loc <$> es.
Definition keys (es : list entry) : list Key := e_key <$> es.
Definition contents (es : list entry) : list (Key * Element) :=
  (λ e, (e_key e, e_elem e)) <$> es.
Definition idx (e : entry) : Z := GetIndex (e_key e).

(** The chain of bucket [i]: its elements, the latest first. *)
Definition chain (i : Z) (es : list entry) : list loc :=
  reverse (locs (filter (λ e, idx e = i) es)).

(** The container without the element at [p]. *)
Definition without (p : loc) (es : list entry) : list entry :=
  filter (λ e, e_loc e ≠ p) es.

(** The [HashElement] of [e] when the table holds [es]. *)
Definition node (es : list entry) (e : entry) : HashElement :=
  mkHashElement (idx e) (e_key e) (e_elem e)
    (prev_of (chain (idx e) es) (e_loc e)) (next_of (chain (idx e) es) (e_loc e))
    (prev_of (locs es) (e_loc e)) (next_of (locs es) (e_loc e)).

(** The table [t] represents the container [es]: the bucket chains and
    the insertion-order list are doubly linked lists over the same
    elements, those of [es], and [curhashelem] is null or one of them. *)
Record inv (es : list entry) (t : RTPKeyHashTable) : Prop := mkInv {
  inv_locs : NoDup (locs es);
  inv_keys : NoDup (keys es);
  inv_idx : forall e, e ∈ es -> 0 <= idx e < hashsize;
  inv_mem : forall e, e ∈ es -> mem t !! e_loc e = Some (node es e);
  inv_dom : forall p, p ∉ locs es -> mem t !! p = None;
  inv_len : length (table t) = Z.to_nat hashsize;
  inv_table : forall i, 0 <= i < hashsize -> table t !! Z.to_nat i = Some (head (chain i es));
  inv_first : firsthashelem t = head (locs es);
  inv_last : lasthashelem t = last (locs es);
  inv_cur : forall p, curhashelem t = Some p -> p ∈ locs es
}.

Lemma elem_of_locs (es : list entry) (p : loc) :
  p ∈ locs es <-> exists e, e ∈ es /\ e_loc e = p.
Proof. unfold locs. rewrite list_elem_of_fmap. naive_solver. Qed.

Lemma entry_loc_inj (es : list entry) (e1 e2 : entry) :
  NoDup (locs es) -> e1 ∈ es -> e2 ∈ es -> e_loc e1 = e_loc e2 -> e1 = e2.
Proof.
  intros Hnd H1 H2 Heq. apply list_elem_of_lookup in H1 as [i Hi], H2 as [j Hj].
  assert (i = j) as ->; [|congruence].
  eapply NoDup_lookup; [exact Hnd| |]; unfold locs; rewrite list_lookup_fmap.
  - by rewrite Hi.
  - rewrite Hj. simpl. by rewrite Heq.
Qed.

Lemma entry_key_inj (es : list entry) (e1 e2 : entry) :
  NoDup (keys es) -> e1 ∈ es -> e2 ∈ es -> e_key e1 = e_key e2 -> e1 = e2.
Proof.
  intros Hnd H1 H2 Heq. apply list_elem_of_lookup in H1 as [i Hi], H2 as [j Hj].
  assert (i = j) as ->; [|congruence].
  eapply NoDup_lookup; [exact Hnd| |]; unfold keys; rewrite list_lookup_fmap.
  - by rewrite Hi.
  - rewrite Hj. simpl. by rewrite Heq.
Qed.

Lemma elem_of_chain (i : Z) (es : list entry) (p : loc) :
  p ∈ chain i es <-> exists e, e ∈ es /\ e_loc e = p /\ idx e = i.
Proof.
  unfold chain. rewrite elem_of_reverse, elem_of_locs.
  setoid_rewrite list_elem_of_filter. naive_solver.
Qed.

Lemma NoDup_fmap_filter {A B : Type} (f : A -> B) (P : A -> Prop)
    `{forall x, Decision (P x)} (l : list A) :
  NoDup (f <$> l) -> NoDup (f <$> filter P l).
Proof.
  induction l as [|a r IH]; simpl; [done|]. intros Hnd.
  apply NoDup_cons in Hnd as [Ha Hnd]. destruct (decide (P a)).
  - rewrite filter_cons_True by done. simpl. apply NoDup_cons. split; [|auto].
    intros Hin. apply Ha. apply list_elem_of_fmap in Hin as (b & -> & Hb).
    apply list_elem_of_fmap. exists b. split; [done|].
    by apply list_elem_of_filter in Hb as [_ ?].
  - rewrite filter_cons_False by done. auto.
Qed.

Lemma NoDup_chain (i : Z) (es : list entry) : NoDup (locs es) -> NoDup (chain i es).
Proof. intros Hnd. apply NoDup_rev. by apply NoDup_fmap_filter. Qed.

Lemma chain_snoc (i : Z) (es : list entry) (e : entry) :
  chain i (es ++ [e]) = if decide (idx e = i) then e_loc e :: chain i es else chain i es.
Proof.
  unfold chain, locs. rewrite filter_app. destruct (decide (idx e = i)).
  - rewrite (filter_cons_True _ e []) by done. rewrite filter_nil, fmap_app. simpl.
    by rewrite reverse_snoc.
  - rewrite (filter_cons_False _ e []) by done. by rewrite filter_nil, app_nil_r.
Qed.

Lemma locs_without (p : loc) (es : list entry) : locs (without p es) = unlink p (locs es).
Proof.
  unfold locs, without, unlink. induction es as [|a r IH]; [done|].
  rewrite fmap_cons. destruct (decide (e_loc a = p)).
  - by rewrite !filter_cons_False by (intros Hn; by apply Hn).
  - rewrite !filter_cons_True by done. by rewrite fmap_cons, IH.
Qed.

Lemma chain_without (i : Z) (p : loc) (es : list entry) :
  chain i (without p es) = unlink p (chain i es).
Proof.
  unfold chain. rewrite unlink_reverse. f_equal.
  rewrite <- locs_without. f_equal. unfold without.
  rewrite !list_filter_filter. apply list_filter_iff. tauto.
Qed.

Lemma elem_of_without (p : loc) (es : list entry) (e : entry) :
  e ∈ without p es <-> e ∈ es /\ e_loc e <> p.
Proof. unfold without. rewrite list_elem_of_filter. tauto. Qed.

(** *** Walking a bucket chain *)

Lemma inv_size (es : list entry) (t : RTPKeyHashTable) :
  inv es t -> size (mem t) = length es.
Proof.
  intros I. rewrite <- size_dom.
  assert (dom (mem t) = list_to_set (locs es)) as ->.
  { apply set_eq. intros p. rewrite elem_of_dom, elem_of_list_to_set. split.
    - intros [n Hn]. destruct (decide (p ∈ locs es)) as [|Hnot]; [done|].
      rewrite (inv_dom _ _ I p Hnot) in Hn. done.
    - intros (e & He & <-)%elem_of_locs. rewrite (inv_mem _ _ I e He). by eexists. }
  rewrite size_list_to_set by apply I. unfold locs. by rewrite length_fmap.
Qed.

Lemma chain_length (i : Z) (es : list entry) : (length (chain i es) <= length es)%nat.
Proof.
  unfold chain, locs. rewrite length_reverse, length_fmap. apply length_filter.
Qed.

Lemma find_key_ext (P Q : entry -> Prop)
    `{forall e, Decision (P e)} `{forall e, Decision (Q e)} (es : list entry) :
  (forall e, e ∈ es -> P e <-> Q e) ->
  match list_find P es with
  | Some (_, e) => (true, Some (e_loc e))
  | None => (false, None)
  end =
  match list_find Q es with
  | Some (_, e) => (true, Some (e_loc e))
  | None => (false, None)
  end.
Proof.
  intros Hext. induction es as [|a es IH]; [done|]. simpl.
  assert (Ha := Hext a ltac:(left)).
  repeat case_decide; try tauto; try done.
  assert (IH' := IH ltac:(intros e He; apply Hext; by right)).
  destruct (list_find P es) as [[??]|], (list_find Q es) as [[??]|]; simpl; congruence.
Qed.

Lemma chain_search_walk (es : list entry) (t : RTPKeyHashTable) (k : Key) (i : Z) :
  inv es t ->
  forall c2 c1 fuel, chain i es = c1 ++ c2 -> (length c2 < fuel)%nat ->
    chain_search fuel (mem t) k (head c2) =
      Some (match list_find (λ e, e_loc e ∈ c2 /\ e_key e = k) es with
            | Some (_, e) => (true, Some (e_loc e))
            | None => (false, None)
            end).
Proof.
  intros I. induction c2 as [|p r IH]; intros c1 fuel Hc Hfuel.
  - simpl. destruct fuel; simpl.
    all: destruct (list_find _ es) as [[j e]|] eqn:Hf; [|done];
      apply list_find_Some in Hf as (_ & [Hin _] & _); by apply elem_of_nil in Hin.
  - destruct fuel as [|fuel]; [simpl in Hfuel; lia|]. simpl.
    assert (Hp : p ∈ chain i es) by (rewrite Hc, elem_of_app; right; left).
    apply elem_of_chain in Hp as (e & He & Hloc & Hidx). subst p.
    rewrite (inv_mem _ _ I e He). simpl.
    pose proof (NoDup_chain i es (inv_locs _ _ I)) as Hnd. rewrite Hc in Hnd.
    destruct (decide (e_key e = k)) as [Hk|Hk].
    + f_equal.
      match goal with |- context [list_find ?P es] =>
        destruct (list_find P es) as [[j e']|] eqn:Hf end.
      * apply list_find_Some in Hf as (Hj & [_ Hk'] & _).
        assert (e' = e) as ->; [|done].
        eapply entry_key_inj; [apply I|eapply list_elem_of_lookup_2; eauto|done|congruence].
      * exfalso. eapply list_find_None in Hf. rewrite Forall_forall in Hf.
        apply (Hf e He). split; [left|done].
    + rewrite Hidx, Hc, next_of_middle by done.
      rewrite (IH (c1 ++ [e_loc e]) fuel); [|by rewrite <- app_assoc|simpl in Hfuel; lia].
      f_equal. apply find_key_ext. intros e' He'. rewrite elem_of_cons.
      split; [naive_solver|]. intros [[Hl|Hl] Hk']; [|done]. exfalso. apply Hk.
      by rewrite <- (entry_loc_inj es e' e (inv_locs _ _ I) He' He Hl).
Qed.

(** The walk from the head of the bucket of [k] finds [k] exactly when
    the container has it, and then stops at its element. *)
Lemma chain_search_spec (es : list entry) (t : RTPKeyHashTable) (k : Key) :
  inv es t ->
  chain_search (S (size (mem t))) (mem t) k (head (chain (GetIndex k) es)) =
    Some (match list_find (λ e, e_key e = k) es with
          | Some (_, e) => (true, Some (e_loc e))
          | None => (false, None)
          end).
Proof.
  intros I. rewrite (chain_search_walk es t k (GetIndex k) I _ []); [|done|].
  - f_equal.
    apply find_key_ext. intros e He. split; [tauto|]. intros Hk. split; [|done].
    apply elem_of_chain. exists e. repeat split; try done. unfold idx. by rewrite Hk.
  - rewrite (inv_size es t I). pose proof (chain_length (GetIndex k) es). lia.
Qed.

(** The element of the container with key [k], if any. *)
Definition find_key (k : Key) (es : list entry) : option entry :=
  snd <$> list_find (λ e, e_key e = k) es.

Lemma find_key_Some (k : Key) (es : list entry) (e : entry) :
  find_key k es = Some e -> e ∈ es /\ e_key e = k.
Proof.
  unfold find_key. destruct (list_find _ es) as [[j e']|] eqn:Hf; [|done].
  intros [= ->]. apply list_find_Some in Hf as (Hj & Hk & _).
  split; [by eapply list_elem_of_lookup_2|done].
Qed.

Lemma find_key_None (k : Key) (es : list entry) :
  find_key k es = None <-> k ∉ keys es.
Proof.
  unfold find_key, keys. destruct (list_find _ es) as [[j e']|] eqn:Hf; simpl.
  - apply list_find_Some in Hf as (Hj & Hk & _). split; [done|]. intros Hn.
    exfalso. apply Hn. apply list_elem_of_fmap. exists e'.
    split; [done|by eapply list_elem_of_lookup_2].
  - split; [|done]. intros _ Hin. apply list_elem_of_fmap in Hin as (e & -> & He).
    eapply list_find_None in Hf. rewrite Forall_forall in Hf. by apply (Hf e He).
Qed.

Lemma inv_set_cur (es : list entry) (t : RTPKeyHashTable) (c : ptr) :
  inv es t -> (forall p, c = Some p -> p ∈ locs es) -> inv es (set_cur c t).
Proof. intros I Hc. destruct I. by constructor. Qed.

Lemma table_get_inv (es : list entry) (t : RTPKeyHashTable) (i : Z) :
  inv es t -> 0 <= i < hashsize -> table_get t i = Some (head (chain i es)).
Proof.
  intros I Hi. unfold table_get.
  rewrite (proj2 (Z.ltb_ge _ _)) by lia. by apply I.
Qed.

(** [GotoElement] moves the cursor to the element of key [k], or to
    null when the container has none. *)
Lemma GotoElement_spec (es : list entry) (t : RTPKeyHashTable) (k : Key) :
  inv es t -> 0 <= GetIndex k ->
  GotoElement k t =
    Some (if hashsize <=? GetIndex k
          then (ERR_RTP_KEYHASHTABLE_FUNCTIONRETURNEDINVALIDHASHINDEX, t)
          else match find_key k es with
               | Some e => (0, set_cur (Some (e_loc e)) t)
               | None => (ERR_RTP_KEYHASHTABLE_KEYNOTFOUND, set_cur None t)
               end).
Proof.
  intros I Hk. unfold GotoElement. destruct (hashsize <=? GetIndex k) eqn:Hh; [done|].
  apply Z.leb_gt in Hh. rewrite (table_get_inv es t _ I) by lia. cbn [mbind option_bind].
  rewrite (chain_search_spec es t k I). simpl. unfold find_key.
  by destruct (list_find _ es) as [[j e]|].
Qed.

Lemma HasElement_spec (es : list entry) (t : RTPKeyHashTable) (k : Key) :
  inv es t -> 0 <= GetIndex k ->
  HasElement k t = Some (bool_decide (k ∈ keys es)).
Proof.
  intros I Hk. unfold HasElement. destruct (hashsize <=? GetIndex k) eqn:Hh.
  - apply Z.leb_le in Hh. f_equal. symmetry. apply bool_decide_eq_false.
    intros Hin. apply list_elem_of_fmap in Hin as (e & -> & He).
    pose proof (inv_idx _ _ I e He). unfold idx in *. lia.
  - apply Z.leb_gt in Hh. rewrite (table_get_inv es t _ I) by lia. cbn [mbind option_bind].
    rewrite (chain_search_spec es t k I). simpl.
    pose proof (find_key_None k es) as Hn. unfold find_key in Hn.
    destruct (list_find _ es) as [[j e]|]; simpl in *; f_equal; symmetry.
    + apply bool_decide_eq_true. destruct (decide (k ∈ keys es)); [done|]. naive_solver.
    + apply bool_decide_eq_false. naive_solver.
Qed.

(** *** Traversal *)

Lemma visit_suffix (es : list entry) (t : RTPKeyHashTable) :
  inv es t ->
  forall l2 l1 fuel, es = l1 ++ l2 -> (length l2 < fuel)%nat ->
    visit fuel (set_cur (head (locs l2)) t) = Some (contents l2).
Proof.
  intros I. induction l2 as [|e r IH]; intros l1 fuel Hes Hfuel.
  - by destruct fuel.
  - destruct fuel as [|fuel]; [simpl in Hfuel; lia|].
    assert (He : e ∈ es) by (rewrite Hes, elem_of_app; right; left).
    cbn [visit locs fmap list_fmap head HasCurrentElement set_cur curhashelem].
    unfold GetCurrentKey, GetCurrentElement, GotoNextElement.
    cbn [load mem set_cur curhashelem mbind option_bind].
    rewrite (inv_mem _ _ I e He). cbn [fmap option_fmap option_map mbind option_bind].
    cbn [node key element listnext].
    assert (next_of (locs es) (e_loc e) = head (locs r)) as ->.
    { rewrite Hes. unfold locs. rewrite fmap_app, fmap_cons.
      apply next_of_middle. rewrite <- fmap_cons, <- fmap_app, <- Hes. apply I. }
    replace (set_cur (head (locs r)) (set_cur (Some (e_loc e)) t))
      with (set_cur (head (locs r)) t) by done.
    rewrite (IH (l1 ++ [e]) fuel); [done|by rewrite <- app_assoc|simpl in Hfuel; lia].
Qed.

(** Traversing a table yields the container it represents. *)
Lemma traverse_spec (es : list entry) (t : RTPKeyHashTable) :
  inv es t -> traverse t = Some (contents es).
Proof.
  intros I. unfold traverse, GotoFirstElement. rewrite (inv_first _ _ I).
  apply (visit_suffix es t I es []); [done|]. rewrite (inv_size es t I). lia.
Qed.

(** *** Insertion *)

Definition upd_mem (g : gmap loc HashElement -> gmap loc HashElement)
    (t : RTPKeyHashTable) : RTPKeyHashTable :=
  mkTable (g (mem t)) (table t) (firsthashelem t) (lasthashelem t) (curhashelem t).

Lemma store_Some (f : HashElement -> HashElement) (q : loc) (t : RTPKeyHashTable) :
  is_Some (mem t !! q) -> store f (Some q) t = Some (upd_mem (alter f q) t).
Proof. intros [n Hn]. unfold store. simpl. by rewrite Hn. Qed.

Definition alter_at (f : HashElement -> HashElement) (p : ptr)
    (m : gmap loc HashElement) : gmap loc HashElement :=
  match p with Some q => alter f q m | None => m end.

Lemma lookup_alter_at (f : HashElement -> HashElement) (p : ptr)
    (m : gmap loc HashElement) (q : loc) :
  alter_at f p m !! q = if decide (p = Some q) then f <$> m !! q else m !! q.
Proof.
  destruct p as [x|]; simpl; [|done]. rewrite lookup_alter.
  destruct (decide (x = q)) as [->|Hne].
  - by rewrite decide_True.
  - by rewrite decide_False by congruence.
Qed.

Lemma is_Some_alter_at (f : HashElement -> HashElement) (p : ptr)
    (m : gmap loc HashElement) (q : loc) :
  is_Some (alter_at f p m !! q) <-> is_Some (m !! q).
Proof. rewrite lookup_alter_at. case_decide; [|done]. by rewrite fmap_is_Some. Qed.

(** What [AddElement] leaves in memory after adding [k] at the fresh
    address [p], in terms of the old head [e0] of the bucket and the old
    last element [l0] of the list. *)
Definition mem_added (m : gmap loc HashElement) (k : Key) (v : Element) (p : loc)
    (e0 l0 : ptr) : gmap loc HashElement :=
  alter (set_listprev l0) p
    (alter_at (set_listnext (Some p)) l0
       (alter_at (set_hashprev (Some p)) e0
          (alter (set_hashnext e0) p
             (<[p := HashElement_new k v (GetIndex k)]> m)))).

Lemma AddElement_run (es : list entry) (t : RTPKeyHashTable)
    (k : Key) (v : Element) (p : loc) :
  inv es t -> 0 <= GetIndex k < hashsize -> k ∉ keys es -> p ∉ locs es ->
  exists t', AddElement k v (Some p) t = Some (0, t') /\
    mem t' = mem_added (mem t) k v p (head (chain (GetIndex k) es)) (last (locs es)) /\
    table t' = <[Z.to_nat (GetIndex k) := Some p]> (table t) /\
    firsthashelem t' = head (locs es ++ [p]) /\
    lasthashelem t' = Some p /\
    curhashelem t' = curhashelem t.
Proof.
  intros I Hi Hk Hp. unfold AddElement.
  rewrite (proj2 (Z.leb_gt _ _)) by lia.
  rewrite (table_get_inv es t _ I) by lia. cbn [mbind option_bind].
  rewrite (chain_search_spec es t k I). cbn [mbind option_bind].
  apply find_key_None in Hk. unfold find_key in Hk.
  destruct (list_find _ es) as [[??]|]; [done|]. clear Hk.
  cbn [fst]. unfold table_get, table_set. cbn [table RTPNew].
  rewrite (proj2 (Z.ltb_ge _ _)) by lia. rewrite (inv_table _ _ I) by lia.
  rewrite (proj2 (Z.leb_gt _ _)) by (rewrite (inv_len _ _ I); lia).
  cbn [mbind option_bind orb].
  cbn [mem table firsthashelem lasthashelem curhashelem RTPNew].
  set (e0 := head (chain (GetIndex k) es)).
  assert (He0 : forall q, e0 = Some q -> is_Some (mem t !! q)).
  { intros q Hq. apply head_Some_elem_of in Hq.
    apply elem_of_chain in Hq as (e & He & <- & _). rewrite (inv_mem _ _ I e He). by eexists. }
  assert (Hl0 : forall q, last (locs es) = Some q -> is_Some (mem t !! q)).
  { intros q Hq. apply last_Some_elem_of in Hq.
    apply elem_of_locs in Hq as (e & He & <-). rewrite (inv_mem _ _ I e He). by eexists. }
  rewrite store_Some by (cbn [mem]; rewrite lookup_insert_eq; by eexists).
  cbn [mbind option_bind].
  set (t1 := upd_mem _ _).
  assert (exists t2, match e0 with
                     | Some _ => store (set_hashprev (Some p)) e0 t1
                     | None => Some t1
                     end = Some t2 /\
            t2 = upd_mem (alter_at (set_hashprev (Some p)) e0) t1) as (t2 & -> & Ht2).
  { destruct e0 as [q0|] eqn:E0.
    - rewrite store_Some; [by eexists|]. subst t1. cbn [mem upd_mem].
      rewrite lookup_alter_is_Some, lookup_insert_is_Some'. right. by apply He0.
    - eexists. split; [done|]. by destruct t1. }
  cbn [mbind option_bind].
  assert (firsthashelem t2 = head (locs es)) as -> by (subst t2 t1; cbn; apply I).
  assert (Hlast2 : lasthashelem t2 = last (locs es)) by (subst t2 t1; cbn; apply I).
  destruct (head (locs es)) as [h|] eqn:Hh.
  - destruct (last (locs es)) as [l|] eqn:Hl.
    2:{ apply last_None in Hl. rewrite Hl in Hh. done. }
    rewrite Hlast2. rewrite store_Some.
    2:{ subst t2 t1. cbn [mem upd_mem]. rewrite is_Some_alter_at, lookup_alter_is_Some,
          lookup_insert_is_Some'. right. by apply Hl0. }
    cbn [mbind option_bind]. rewrite store_Some.
    2:{ subst t2 t1. cbn [mem upd_mem]. rewrite lookup_alter_is_Some, is_Some_alter_at,
          lookup_alter_is_Some, lookup_insert_eq. by eexists. }
    cbn [mbind option_bind]. eexists. split; [done|].
    subst t2 t1. cbn in *. rewrite Hlast2. repeat split; try done.
    rewrite (inv_first _ _ I). by destruct (locs es).
  - cbn [mbind option_bind]. eexists. split; [done|].
    assert (locs es = []) as Hnil by (by destruct (locs es)).
    subst t2 t1. cbn. rewrite Hnil. cbn. repeat split; try done.
    unfold mem_added. cbn [alter_at]. apply map_eq. intros q.
    rewrite !lookup_alter. case_decide; [|done]. subst q.
    rewrite lookup_alter_at. case_decide.
    { exfalso. subst e0. match goal with H : head _ = Some p |- _ =>
        apply head_Some_elem_of, elem_of_chain in H as (e & He & Hloc & _) end.
      apply Hp. apply elem_of_locs. eauto. }
    rewrite lookup_alter, decide_True, lookup_insert_eq by done. done.
Qed.

Lemma node_snoc_old (es : list entry) (new e : entry) :
  NoDup (locs es) -> e_loc new ∉ locs es -> e ∈ es ->
  node (es ++ [new]) e =
    mkHashElement (idx e) (e_key e) (e_elem e)
      (if decide (head (chain (idx new) es) = Some (e_loc e)) then Some (e_loc new)
       else prev_of (chain (idx e) es) (e_loc e))
      (next_of (chain (idx e) es) (e_loc e))
      (prev_of (locs es) (e_loc e))
      (if decide (last (locs es) = Some (e_loc e)) then Some (e_loc new)
       else next_of (locs es) (e_loc e)).
Proof.
  intros Hnd Hp He. unfold node.
  assert (Hne : e_loc e <> e_loc new).
  { intros Heq. apply Hp. rewrite <- Heq. apply elem_of_locs. eauto. }
  assert (Hpc : forall i, e_loc new ∉ chain i es).
  { intros i Hin. apply elem_of_chain in Hin as (e' & He' & Hl & _).
    apply Hp. apply elem_of_locs. eauto. }
  f_equal.
  - rewrite chain_snoc. destruct (decide (idx new = idx e)) as [Heq|Hnidx].
    + rewrite prev_of_cons by (by apply NoDup_chain || apply Hpc).
      rewrite decide_False by done. by rewrite Heq.
    + rewrite decide_False; [done|]. intros Hh. apply head_Some_elem_of in Hh.
      apply elem_of_chain in Hh as (e' & He' & Hl & Hi).
      by rewrite (entry_loc_inj es e' e Hnd He' He Hl) in Hi.
  - rewrite chain_snoc. destruct (decide (idx new = idx e)) as [Heq|Hnidx]; [|done].
    simpl. by rewrite decide_False by done.
  - unfold locs. rewrite fmap_app. simpl. rewrite prev_of_snoc.
    by rewrite decide_False by done.
  - unfold locs. rewrite fmap_app. simpl. rewrite next_of_snoc by done.
    by rewrite decide_False by done.
Qed.

Lemma node_snoc_new (es : list entry) (new : entry) :
  NoDup (locs es) -> e_loc new ∉ locs es ->
  node (es ++ [new]) new =
    mkHashElement (idx new) (e_key new) (e_elem new)
      None (head (chain (idx new) es)) (last (locs es)) None.
Proof.
  intros Hnd Hp. unfold node.
  assert (Hpc : e_loc new ∉ chain (idx new) es).
  { intros Hin. apply elem_of_chain in Hin as (e' & He' & Hl & _).
    apply Hp. apply elem_of_locs. eauto. }
  f_equal.
  - rewrite chain_snoc, decide_True by done.
    rewrite prev_of_cons by (by apply NoDup_chain || done). by rewrite decide_True.
  - rewrite chain_snoc, decide_True by done. simpl. by rewrite decide_True.
  - unfold locs. rewrite fmap_app. simpl. rewrite prev_of_snoc. by rewrite decide_True.
  - unfold locs. rewrite fmap_app. simpl. rewrite next_of_snoc by done.
    by rewrite decide_True.
Qed.

Lemma inv_added (es : list entry) (t t' : RTPKeyHashTable)
    (k : Key) (v : Element) (p : loc) :
  inv es t -> 0 <= GetIndex k < hashsize -> k ∉ keys es -> p ∉ locs es ->
  mem t' = mem_added (mem t) k v p (head (chain (GetIndex k) es)) (last (locs es)) ->
  table t' = <[Z.to_nat (GetIndex k) := Some p]> (table t) ->
  firsthashelem t' = head (locs es ++ [p]) ->
  lasthashelem t' = Some p ->
  curhashelem t' = curhashelem t ->
  inv (es ++ [mkEntry p k v]) t'.
Proof.
  intros I Hi Hk Hp Hmem Htab Hfirst Hlast Hcur.
  set (new := mkEntry p k v).
  assert (Hlocs : locs (es ++ [new]) = locs es ++ [p]) by (unfold locs; by rewrite fmap_app).
  constructor.
  - rewrite Hlocs. apply NoDup_app. split; [apply I|]. split; [|apply NoDup_singleton].
    intros x Hx Hx'. apply list_elem_of_singleton in Hx'. by subst.
  - unfold keys. rewrite fmap_app. apply NoDup_app. split; [apply I|].
    split; [|apply NoDup_singleton].
    intros x Hx Hx'. apply list_elem_of_singleton in Hx'. by subst.
  - intros e [He| ->%list_elem_of_singleton]%elem_of_app; [by apply I|done].
  - intros e [He| ->%list_elem_of_singleton]%elem_of_app.
    + assert (Hne : p <> e_loc e).
      { intros Heq. apply Hp. rewrite Heq. apply elem_of_locs. eauto. }
      rewrite (node_snoc_old es new e (inv_locs _ _ I) Hp He).
      rewrite Hmem. unfold mem_added.
      rewrite lookup_alter_ne, !lookup_alter_at, lookup_alter_ne, lookup_insert_ne by done.
      rewrite (inv_mem _ _ I e He). simpl. unfold idx at 1. simpl.
      repeat case_decide; done.
    + rewrite (node_snoc_new es new (inv_locs _ _ I) Hp).
      rewrite Hmem. unfold mem_added. rewrite lookup_alter_eq.
      assert (Hpc : forall i, head (chain i es) <> Some p).
      { intros i Hin. apply head_Some_elem_of, elem_of_chain in Hin as (e' & He' & Hl & _).
        apply Hp. apply elem_of_locs. eauto. }
      assert (Hpl : last (locs es) <> Some p).
      { intros Hin. by apply last_Some_elem_of in Hin. }
      rewrite !lookup_alter_at, !decide_False by done || apply Hpc.
      by rewrite lookup_alter_eq, lookup_insert_eq.
  - intros q Hq. rewrite Hlocs in Hq. apply not_elem_of_app in Hq as [Hq Hqp].
    rewrite list_elem_of_singleton in Hqp.
    rewrite Hmem. unfold mem_added.
    rewrite lookup_alter_ne, !lookup_alter_at, lookup_alter_ne, lookup_insert_ne by done.
    rewrite (inv_dom _ _ I q Hq). by repeat case_decide.
  - rewrite Htab, length_insert. apply I.
  - intros i Hi'. rewrite Htab, chain_snoc. unfold idx at 1. simpl.
    destruct (decide (GetIndex k = i)) as [->|Hne].
    + rewrite list_lookup_insert_eq; [done|]. rewrite (inv_len _ _ I). lia.
    + rewrite list_lookup_insert_ne by lia. by apply I.
  - by rewrite Hfirst, Hlocs.
  - by rewrite Hlast, Hlocs, last_snoc.
  - intros q Hq. rewrite Hcur in Hq. rewrite Hlocs, elem_of_app. left. by apply I.
Qed.

(** Adding a key the container does not have appends it. *)
Lemma AddElement_new (es : list entry) (t : RTPKeyHashTable)
    (k : Key) (v : Element) (p : loc) :
  inv es t -> 0 <= GetIndex k < hashsize -> k ∉ keys es -> p ∉ locs es ->
  exists t', AddElement k v (Some p) t = Some (0, t') /\
             inv (es ++ [mkEntry p k v]) t' /\ curhashelem t' = curhashelem t.
Proof.
  intros I Hi Hk Hp.
  destruct (AddElement_run es t k v p I Hi Hk Hp) as (t' & Hrun & Hm & Ht & Hf & Hl & Hc).
  exists t'. split; [done|]. split; [|done]. by eapply inv_added.
Qed.

(** Adding a key the container has changes nothing, whatever the
    allocator would have returned. *)
Lemma AddElement_existing (es : list entry) (t : RTPKeyHashTable)
    (k : Key) (v : Element) (newelem : ptr) :
  inv es t -> k ∈ keys es ->
  AddElement k v newelem t = Some (ERR_RTP_KEYHASHTABLE_KEYALREADYEXISTS, t).
Proof.
  intros I Hk. unfold AddElement.
  assert (Hi : 0 <= GetIndex k < hashsize).
  { apply list_elem_of_fmap in Hk as (e & -> & He). by apply I. }
  rewrite (proj2 (Z.leb_gt _ _)) by lia.
  rewrite (table_get_inv es t _ I) by lia. cbn [mbind option_bind].
  rewrite (chain_search_spec es t k I). cbn [mbind option_bind].
  pose proof (find_key_None k es) as Hn. unfold find_key in Hn.
  destruct (list_find _ es) as [[??]|]; [done|]. simpl in Hn. naive_solver.
Qed.

Lemma AddElement_invalid (t : RTPKeyHashTable) (k : Key) (v : Element) (newelem : ptr) :
  hashsize <= GetIndex k ->
  AddElement k v newelem t
  = Some (ERR_RTP_KEYHASHTABLE_FUNCTIONRETURNEDINVALIDHASHINDEX, t).
Proof. intros Hi. unfold AddElement. by rewrite (proj2 (Z.leb_le _ _)) by lia. Qed.

Lemma AddElement_outofmem (es : list entry) (t : RTPKeyHashTable) (k : Key) (v : Element) :
  inv es t -> 0 <= GetIndex k < hashsize -> k ∉ keys es ->
  AddElement k v None t = Some (ERR_RTP_OUTOFMEM, t).
Proof.
  intros I Hi Hk. unfold AddElement.
  rewrite (proj2 (Z.leb_gt _ _)) by lia.
  rewrite (table_get_inv es t _ I) by lia. cbn [mbind option_bind].
  rewrite (chain_search_spec es t k I). cbn [mbind option_bind].
  apply find_key_None in Hk. unfold find_key in Hk.
  by destruct (list_find _ es) as [[??]|].
Qed.

(** *** Deletion *)

Lemma store_at (f : HashElement -> HashElement) (x : ptr) (t : RTPKeyHashTable) :
  (forall q, x = Some q -> is_Some (mem t !! q)) ->
  match x with Some _ => store f x t | None => Some t end
  = Some (upd_mem (alter_at f x) t).
Proof.
  intros Hx. destruct x as [q|].
  - rewrite store_Some; [done|]. by apply Hx.
  - by destruct t.
Qed.

Lemma relink_bucket_run (index : Z) (tmp1 tmp2 : ptr) (t : RTPKeyHashTable) :
  0 <= index < Z.of_nat (length (table t)) ->
  (forall q, tmp1 = Some q -> is_Some (mem t !! q)) ->
  (forall q, tmp2 = Some q -> is_Some (mem t !! q)) ->
  exists t', relink_bucket index tmp1 tmp2 t = Some t' /\
    mem t' = alter_at (set_hashprev tmp1) tmp2 (alter_at (set_hashnext tmp2) tmp1 (mem t)) /\
    table t' = match tmp1 with
               | Some _ => table t
               | None => <[Z.to_nat index := tmp2]> (table t)
               end /\
    firsthashelem t' = firsthashelem t /\ lasthashelem t' = lasthashelem t /\
    curhashelem t' = curhashelem t.
Proof.
  intros Hi H1 H2. unfold relink_bucket. destruct tmp1 as [q1|].
  - rewrite store_Some by by apply H1. cbn [mbind option_bind].
    rewrite store_at.
    2:{ intros q Hq. cbn [mem upd_mem]. rewrite lookup_alter_is_Some. by apply H2. }
    eexists. split; [done|]. done.
  - unfold table_set. rewrite (proj2 (Z.ltb_ge _ _)), (proj2 (Z.leb_gt _ _)) by lia.
    cbn [orb mbind option_bind]. rewrite store_at by (cbn [mem]; done).
    eexists. split; [done|]. done.
Qed.

Lemma relink_list_run (tmp1 tmp2 : ptr) (t : RTPKeyHashTable) :
  (forall q, tmp1 = Some q -> is_Some (mem t !! q)) ->
  (forall q, tmp2 = Some q -> is_Some (mem t !! q)) ->
  exists t', relink_list tmp1 tmp2 t = Some t' /\
    mem t' = alter_at (set_listprev tmp1) tmp2 (alter_at (set_listnext tmp2) tmp1 (mem t)) /\
    table t' = table t /\
    firsthashelem t' = match tmp1 with Some _ => firsthashelem t | None => tmp2 end /\
    lasthashelem t' = match tmp2 with Some _ => lasthashelem t | None => tmp1 end /\
    curhashelem t' = curhashelem t.
Proof.
  intros H1 H2. unfold relink_list. destruct tmp1 as [q1|].
  - rewrite store_Some by by apply H1. cbn [mbind option_bind].
    destruct tmp2 as [q2|].
    + rewrite store_Some.
      2:{ cbn [mem upd_mem]. rewrite lookup_alter_is_Some. by apply H2. }
      eexists. split; [done|]. done.
    + eexists. split; [done|]. done.
  - destruct tmp2 as [q2|].
    + rewrite store_Some by (cbn [mem set_first]; by apply H2).
      eexists. split; [done|]. done.
    + eexists. split; [done|]. done.
Qed.

Lemma node_without (es : list entry) (e0 e : entry) :
  NoDup (locs es) -> e0 ∈ es -> e ∈ es -> e_loc e <> e_loc e0 ->
  let p := e_loc e0 in
  let c := chain (idx e0) es in
  node (without p es) e =
    mkHashElement (idx e) (e_key e) (e_elem e)
      (if decide (next_of c p = Some (e_loc e)) then prev_of c p
       else prev_of (chain (idx e) es) (e_loc e))
      (if decide (prev_of c p = Some (e_loc e)) then next_of c p
       else next_of (chain (idx e) es) (e_loc e))
      (if decide (next_of (locs es) p = Some (e_loc e)) then prev_of (locs es) p
       else prev_of (locs es) (e_loc e))
      (if decide (prev_of (locs es) p = Some (e_loc e)) then next_of (locs es) p
       else next_of (locs es) (e_loc e)).
Proof.
  intros Hnd He0 He Hne p c. unfold node.
  assert (Hndc : NoDup c) by by apply NoDup_chain.
  assert (Hother : idx e <> idx e0 ->
            (p ∉ chain (idx e) es) /\ (e_loc e ∉ c)).
  { intros Hidx. split; intros Hin; apply elem_of_chain in Hin as (e' & He' & Hl & Hi).
    - rewrite (entry_loc_inj es e' e0 Hnd He' He0 Hl) in Hi. congruence.
    - rewrite (entry_loc_inj es e' e Hnd He' He Hl) in Hi. congruence. }
  pose proof (next_prev c (e_loc e) p Hndc) as Hc1.
  pose proof (next_prev c p (e_loc e) Hndc) as Hc2.
  pose proof (next_prev (locs es) (e_loc e) p Hnd) as Hl1.
  pose proof (next_prev (locs es) p (e_loc e) Hnd) as Hl2.
  f_equal.
  - rewrite chain_without, prev_of_unlink by (by apply NoDup_chain || done).
    destruct (decide (idx e = idx e0)) as [Heq|Hidx].
    + rewrite Heq. fold c. repeat case_decide; tauto || done.
    + destruct (Hother Hidx) as [H1 H2].
      rewrite decide_False by (intros Hd; apply prev_of_elem in Hd as [_ Hd]; done).
      by rewrite decide_False by (intros Hd; apply next_of_elem in Hd as [_ Hd]; done).
  - rewrite chain_without, next_of_unlink by (by apply NoDup_chain || done).
    destruct (decide (idx e = idx e0)) as [Heq|Hidx].
    + rewrite Heq. fold c. repeat case_decide; tauto || done.
    + destruct (Hother Hidx) as [H1 H2].
      rewrite decide_False by (intros Hd; apply next_of_elem in Hd as [_ Hd]; done).
      by rewrite decide_False by (intros Hd; apply prev_of_elem in Hd as [_ Hd]; done).
  - rewrite locs_without, prev_of_unlink by done. repeat case_decide; tauto || done.
  - rewrite locs_without, next_of_unlink by done. repeat case_decide; tauto || done.
Qed.

(** Deleting the current element takes it out of the container and
    moves the cursor to the element that followed it. *)
Lemma DeleteCurrentElement_spec (es : list entry) (t : RTPKeyHashTable) (p : loc) :
  inv es t -> curhashelem t = Some p ->
  exists t', DeleteCurrentElement t = Some (0, t') /\
             inv (without p es) t' /\ curhashelem t' = next_of (locs es) p.
Proof.
  intros I Hcur.
  destruct (proj1 (elem_of_locs es p) (inv_cur _ _ I p Hcur)) as (e0 & He0 & Hloc).
  pose proof (inv_locs _ _ I) as Hnd.
  set (c := chain (idx e0) es).
  assert (Hndc : NoDup c) by by apply NoDup_chain.
  assert (Hpc : p ∈ c) by (apply elem_of_chain; eauto).
  assert (Hlive : forall q, q ∈ locs es -> is_Some (mem t !! q)).
  { intros q (e & He & <-)%elem_of_locs. rewrite (inv_mem _ _ I e He). by eexists. }
  assert (Hc_live : forall q, q ∈ c -> is_Some (mem t !! q)).
  { intros q (e & He & <- & _)%elem_of_chain. apply Hlive, elem_of_locs. eauto. }
  unfold DeleteCurrentElement. rewrite Hcur, <- Hloc, (inv_mem _ _ I e0 He0).
  cbn [mbind option_bind node hashindex hashprev hashnext]. rewrite Hloc. fold c.
  set (hp := prev_of c p). set (hn := next_of c p).
  set (lp := prev_of (locs es) p). set (ln := next_of (locs es) p).
  destruct (relink_bucket_run (idx e0) hp hn t) as (t1 & -> & Hm1 & Ht1 & Hf1 & Hl1 & Hc1).
  { rewrite (inv_len _ _ I). pose proof (inv_idx _ _ I e0 He0). lia. }
  { intros q Hq. apply Hc_live. by apply prev_of_elem in Hq as [_ ?]. }
  { intros q Hq. apply Hc_live. by apply next_of_elem in Hq as [_ ?]. }
  cbn [mbind option_bind].
  assert (Hhp : hp <> Some p) by by apply prev_of_not_self.
  assert (Hhn : hn <> Some p) by by apply next_of_not_self.
  assert (Hlp : lp <> Some p) by by apply prev_of_not_self.
  assert (Hln : ln <> Some p) by by apply next_of_not_self.
  assert (Hp1 : mem t1 !! p = Some (node es e0)).
  { rewrite Hm1, !lookup_alter_at, !decide_False by done.
    by rewrite <- Hloc, (inv_mem _ _ I e0 He0). }
  rewrite Hp1. cbn [mbind option_bind node listprev listnext]. rewrite Hloc.
  fold lp ln.
  assert (Hlive1 : forall q, q ∈ locs es -> is_Some (mem t1 !! q)).
  { intros q Hq. rewrite Hm1, !is_Some_alter_at. by apply Hlive. }
  destruct (relink_list_run lp ln t1) as (t2 & -> & Hm2 & Ht2 & Hf2 & Hl2 & Hc2).
  { intros q Hq. apply Hlive1. by apply prev_of_elem in Hq as [_ ?]. }
  { intros q Hq. apply Hlive1. by apply next_of_elem in Hq as [_ ?]. }
  cbn [mbind option_bind]. eexists. split; [done|]. split; [|done].
  constructor; cbn [mem table firsthashelem lasthashelem curhashelem set_cur RTPDelete].
  - rewrite locs_without. by apply NoDup_unlink.
  - apply NoDup_fmap_filter. apply I.
  - intros e [He _]%elem_of_without. by apply I.
  - intros e [He Hne]%elem_of_without.
    rewrite lookup_delete_ne by done.
    rewrite <- Hloc, (node_without es e0 e Hnd He0 He) by (by rewrite Hloc).
    rewrite Hloc. fold c hp hn lp ln.
    rewrite Hm2, Hm1, !lookup_alter_at, (inv_mem _ _ I e He).
    unfold node; repeat case_decide; done.
  - intros q Hq. rewrite locs_without in Hq.
    destruct (decide (q = p)) as [->|Hne]; [by rewrite lookup_delete_eq|].
    rewrite lookup_delete_ne by done.
    assert (Hq' : q ∉ locs es).
    { intros Hin. apply Hq. by apply elem_of_unlink. }
    rewrite Hm2, Hm1, !lookup_alter_at, (inv_dom _ _ I q Hq'). by repeat case_decide.
  - rewrite Ht2, Ht1. destruct hp; [|rewrite length_insert]; apply I.
  - intros i Hi. rewrite Ht2, Ht1, chain_without, head_unlink by by apply NoDup_chain.
    destruct (decide (i = idx e0)) as [->|Hne].
    + fold c hn. pose proof (prev_of_None c p Hndc Hpc) as Hhead. fold hp in Hhead.
      destruct hp as [q|].
      * rewrite decide_False by (intros Hh; apply Hhead in Hh; done). by apply I.
      * rewrite decide_True by by apply Hhead.
        rewrite list_lookup_insert_eq; [done|]. rewrite (inv_len _ _ I). lia.
    + rewrite decide_False.
      2:{ intros Hh. apply head_Some_elem_of, elem_of_chain in Hh as (e' & He' & Hl & Hi').
          rewrite <- Hloc in Hl.
          rewrite (entry_loc_inj es e' e0 Hnd He' He0 Hl) in Hi'. congruence. }
      destruct hp; [by apply I|].
      rewrite list_lookup_insert_ne; [by apply I|].
      pose proof (inv_idx _ _ I e0 He0). lia.
  - rewrite Hf2, Hf1, locs_without, head_unlink by done.
    assert (Hpl : p ∈ locs es) by (apply elem_of_locs; eauto).
    pose proof (prev_of_None (locs es) p Hnd Hpl) as Hhead. fold lp in Hhead. fold ln.
    destruct lp as [q|].
    + rewrite decide_False by (intros Hh; apply Hhead in Hh; done). apply I.
    + by rewrite decide_True by by apply Hhead.
  - rewrite Hl2, Hl1, locs_without, last_unlink by done.
    assert (Hpl : p ∈ locs es) by (apply elem_of_locs; eauto).
    pose proof (next_of_None (locs es) p Hnd Hpl) as Hlast. fold ln in Hlast. fold lp.
    destruct ln as [q|].
    + rewrite decide_False by (intros Hh; apply Hlast in Hh; done). apply I.
    + by rewrite decide_True by by apply Hlast.
  - intros q Hq. rewrite locs_without. apply elem_of_unlink.
    split; [|congruence]. subst ln. by apply next_of_elem in Hq as [_ ?].
Qed.

Lemma DeleteCurrentElement_none (t : RTPKeyHashTable) :
  curhashelem t = None ->
  DeleteCurrentElement t = Some (ERR_RTP_KEYHASHTABLE_NOCURRENTELEMENT, t).
Proof. intros Hc. unfold DeleteCurrentElement. by rewrite Hc. Qed.

Lemma find_key_loc (k : Key) (es : list entry) (e : entry) :
  find_key k es = Some e -> e_loc e ∈ locs es.
Proof. intros [He _]%find_key_Some. apply elem_of_locs. eauto. Qed.

(** [DeleteElement] takes the element of key [k] out, when there is
    one. *)
Lemma DeleteElement_spec (es : list entry) (t : RTPKeyHashTable) (k : Key) :
  ERR_RTP_KEYHASHTABLE_FUNCTIONRETURNEDINVALIDHASHINDEX < 0 ->
  ERR_RTP_KEYHASHTABLE_KEYNOTFOUND < 0 ->
  inv es t -> 0 <= GetIndex k ->
  exists status t', DeleteElement k t = Some (status, t') /\
    if hashsize <=? GetIndex k
    then status = ERR_RTP_KEYHASHTABLE_FUNCTIONRETURNEDINVALIDHASHINDEX /\ t' = t
    else match find_key k es with
         | Some e => status = 0 /\ inv (without (e_loc e) es) t' /\
                     curhashelem t' = next_of (locs es) (e_loc e)
         | None => status = ERR_RTP_KEYHASHTABLE_KEYNOTFOUND /\ t' = set_cur None t
         end.
Proof.
  intros Hneg1 Hneg2 I Hk. unfold DeleteElement.
  rewrite (GotoElement_spec es t k I Hk). cbn [mbind option_bind].
  destruct (hashsize <=? GetIndex k) eqn:Hh.
  { rewrite (proj2 (Z.ltb_lt _ _)) by done. eexists _, _. by split. }
  destruct (find_key k es) as [e|] eqn:Hf.
  - cbn [Z.ltb Z.compare].
    destruct (DeleteCurrentElement_spec es (set_cur (Some (e_loc e)) t) (e_loc e))
      as (t' & -> & Hinv & Hc); [|done|].
    { apply inv_set_cur; [done|]. intros q [= <-]. by eapply find_key_loc. }
    eexists _, _. split; [done|]. done.
  - rewrite (proj2 (Z.ltb_lt _ _)) by done. eexists _, _. by split.
Qed.

Lemma GotoNextElement_spec (es : list entry) (t : RTPKeyHashTable) :
  inv es t ->
  exists t', GotoNextElement t = Some t' /\ inv es t' /\
    curhashelem t' = (p ← curhashelem t; next_of (locs es) p).
Proof.
  intros I. unfold GotoNextElement. destruct (curhashelem t) as [p|] eqn:Hc.
  - destruct (proj1 (elem_of_locs es p) (inv_cur _ _ I p Hc)) as (e & He & <-).
    rewrite (inv_mem _ _ I e He). cbn [mbind option_bind node listnext].
    eexists. split; [done|]. split; [|done].
    apply inv_set_cur; [done|]. intros q Hq. by apply next_of_elem in Hq as [_ ?].
  - exists t. by rewrite Hc.
Qed.

Lemma GotoPreviousElement_spec (es : list entry) (t : RTPKeyHashTable) :
  inv es t ->
  exists t', GotoPreviousElement t = Some t' /\ inv es t' /\
    curhashelem t' = (p ← curhashelem t; prev_of (locs es) p).
Proof.
  intros I. unfold GotoPreviousElement. destruct (curhashelem t) as [p|] eqn:Hc.
  - destruct (proj1 (elem_of_locs es p) (inv_cur _ _ I p Hc)) as (e & He & <-).
    rewrite (inv_mem _ _ I e He). cbn [mbind option_bind node listprev].
    eexists. split; [done|]. split; [|done].
    apply inv_set_cur; [done|]. intros q Hq. by apply prev_of_elem in Hq as [_ ?].
  - exists t. by rewrite Hc.
Qed.

(** A table fresh from the constructor represents the empty container
    once the cursor has been set. *)
Lemma inv_new : 0 <= hashsize -> inv [] (RTPKeyHashTable_new None).
Proof.
  intros Hh. constructor; try done.
  - apply NoDup_nil_2.
  - apply NoDup_nil_2.
  - intros e He. by apply elem_of_nil in He.
  - intros e He. by apply elem_of_nil in He.
  - simpl. by rewrite length_replicate.
  - intros i Hi. simpl. apply lookup_replicate_2. lia.
Qed.

(** ** Sequences of operations *)

Inductive op :=
| OpAddElement (k : Key) (elem : Element) (newelem : ptr)
| OpDeleteElement (k : Key)
| OpDeleteCurrentElement
| OpGotoElement (k : Key)
| OpGotoFirstElement
| OpGotoLastElement
| OpGotoNextElement
| OpGotoPreviousElement.

Definition run_op (o : op) (t : RTPKeyHashTable) : option RTPKeyHashTable :=
  match o with
  | OpAddElement k elem newelem => snd <$> AddElement k elem newelem t
  | OpDeleteElement k => snd <$> DeleteElement k t
  | OpDeleteCurrentElement => snd <$> DeleteCurrentElement t
  | OpGotoElement k => snd <$> GotoElement k t
  | OpGotoFirstElement => Some (GotoFirstElement t)
  | OpGotoLastElement => Some (GotoLastElement t)
  | OpGotoNextElement => GotoNextElement t
  | OpGotoPreviousElement => GotoPreviousElement t
  end.

Fixpoint run_ops (ops : list op) (t : RTPKeyHashTable) : option RTPKeyHashTable :=
  match ops with
  | [] => Some t
  | o :: ops => t ← run_op o t; run_ops ops t
  end.






(** C9.  [AddElement] with a key the container has returns
    [ERR_RTP_KEYHASHTABLE_KEYALREADYEXISTS] and the table, the memory
    of its elements included, is the one it was before the call:
    nothing was allocated or relinked, whatever the allocator would have
    returned. *)
Theorem AddElement_duplicate_rejected
    (es : list entry) (t : RTPKeyHashTable) (k : Key) (elem : Element) (newelem : ptr) :
  inv es t -> k ∈ keys es ->
  AddElement k elem newelem t = Some (ERR_RTP_KEYHASHTABLE_KEYALREADYEXISTS, t) /\
  traverse t = Some (contents es).
Proof.
  intros I Hk. split; [by apply (AddElement_existing es)|by apply traverse_spec].
Qed.

(** ** Lookup, deletion and the cursor *)

Lemma keys_contents (es : list entry) : keys es = (contents es).*1.
Proof. unfold keys, contents. rewrite <- list_fmap_compose. done. Qed.

Lemma find_key_elem (es : list entry) (e : entry) :
  NoDup (keys es) -> e ∈ es -> find_key (e_key e) es = Some e.
Proof.
  intros Hnd He. destruct (find_key (e_key e) es) as [e'|] eqn:Hf.
  - apply find_key_Some in Hf as [He' Hk]. f_equal. by eapply entry_key_inj.
  - apply find_key_None in Hf. exfalso. apply Hf. unfold keys.
    apply list_elem_of_fmap. eauto.
Qed.

Lemma current_at (es : list entry) (t : RTPKeyHashTable) (e : entry) :
  inv es t -> e ∈ es -> curhashelem t = Some (e_loc e) ->
  GetCurrentKey t = Some (e_key e) /\ GetCurrentElement t = Some (e_elem e).
Proof.
  intros I He Hc. unfold GetCurrentKey, GetCurrentElement, load. rewrite Hc.
  cbn [mbind option_bind]. by rewrite (inv_mem _ _ I e He).
Qed.

(** X10.  An element just added is found: [HasElement] holds for its key,
    [GotoElement] puts the cursor on it, where [GetCurrentKey] and
    [GetCurrentElement] return what was added, and a traversal visits
    it last. *)
Theorem lookup_after_AddElement
    (es : list entry) (t : RTPKeyHashTable) (k : Key) (v : Element) (p : loc) :
  inv es t -> 0 <= GetIndex k < hashsize -> k ∉ keys es -> p ∉ locs es ->
  exists t1 t2,
    AddElement k v (Some p) t = Some (0, t1) /\
    HasElement k t1 = Some true /\
    GotoElement k t1 = Some (0, t2) /\
    GetCurrentKey t2 = Some k /\ GetCurrentElement t2 = Some v /\
    traverse t1 = Some (contents es ++ [(k, v)]).
Proof.
  intros I Hi Hk Hp.
  destruct (AddElement_new es t k v p I Hi Hk Hp) as (t1 & Hadd & I1 & _).
  set (new := mkEntry p k v) in *.
  assert (Hnew : new ∈ es ++ [new]) by (apply elem_of_app; right; left).
  pose proof (find_key_elem _ new (inv_keys _ _ I1) Hnew) as Hf. cbn [e_key new] in Hf.
  exists t1, (set_cur (Some p) t1). split; [done|]. split; [|split; [|split; [|split]]].
  - rewrite (HasElement_spec _ _ k I1) by lia. f_equal. apply bool_decide_eq_true.
    unfold keys. rewrite fmap_app. apply elem_of_app. right. left.
  - rewrite (GotoElement_spec _ _ k I1) by lia.
    rewrite (proj2 (Z.leb_gt _ _)) by lia. by rewrite Hf.
  - eapply (current_at _ (set_cur (Some p) t1) new); [|done|done].
    apply inv_set_cur; [done|]. intros q [= <-]. apply elem_of_locs. eauto.
  - eapply (current_at _ (set_cur (Some p) t1) new); [|done|done].
    apply inv_set_cur; [done|]. intros q [= <-]. apply elem_of_locs. eauto.
  - rewrite (traverse_spec _ _ I1). unfold contents. by rewrite fmap_app.
Qed.

(** X11.  A key the container does not have: [HasElement] is false;
    [GotoElement] and [DeleteElement] fail alike, with
    [ERR_RTP_KEYHASHTABLE_KEYNOTFOUND] (or with the invalid-index error
    when the hash index is too large), and delete nothing; but a lookup
    that reaches the bucket leaves the cursor null, whatever element it
    was on. *)
Theorem absent_key_lookup (es : list entry) (t : RTPKeyHashTable) (k : Key) :
  ERR_RTP_KEYHASHTABLE_FUNCTIONRETURNEDINVALIDHASHINDEX < 0 ->
  ERR_RTP_KEYHASHTABLE_KEYNOTFOUND < 0 ->
  inv es t -> 0 <= GetIndex k -> k ∉ keys es ->
  HasElement k t = Some false /\
  DeleteElement k t = GotoElement k t /\
  GotoElement k t =
    Some (if hashsize <=? GetIndex k
          then (ERR_RTP_KEYHASHTABLE_FUNCTIONRETURNEDINVALIDHASHINDEX, t)
          else (ERR_RTP_KEYHASHTABLE_KEYNOTFOUND, set_cur None t)) /\
  traverse (set_cur None t) = Some (contents es).
Proof.
  intros Hneg1 Hneg2 I Hi Hk.
  assert (Hg : GotoElement k t =
    Some (if hashsize <=? GetIndex k
          then (ERR_RTP_KEYHASHTABLE_FUNCTIONRETURNEDINVALIDHASHINDEX, t)
          else (ERR_RTP_KEYHASHTABLE_KEYNOTFOUND, set_cur None t))).
  { rewrite (GotoElement_spec es t k I Hi).
    by rewrite (proj2 (find_key_None k es) Hk). }
  split; [|split; [|split; [done|]]].
  - rewrite (HasElement_spec es t k I Hi). f_equal. by apply bool_decide_eq_false.
  - unfold DeleteElement. rewrite Hg. cbn [mbind option_bind].
    destruct (hashsize <=? GetIndex k); by rewrite (proj2 (Z.ltb_lt _ _)).
  - apply traverse_spec. by apply inv_set_cur.
Qed.

(** X12.  [HasElement] answers for the keys a traversal visits, and for
    no other: the bucket chains and the insertion-order list hold the
    same keys. *)
Theorem HasElement_iff_traversed (es : list entry) (t : RTPKeyHashTable) (k : Key) :
  inv es t -> 0 <= GetIndex k ->
  exists visited,
    traverse t = Some visited /\
    HasElement k t = Some (bool_decide (k ∈ visited.*1)).
Proof.
  intros I Hi. exists (contents es). split; [by apply traverse_spec|].
  rewrite (HasElement_spec es t k I Hi). by rewrite keys_contents.
Qed.

Lemma fmap_filter_agree {A B : Type} (f : A -> B) (P : A -> Prop) (Q : B -> Prop)
    `{forall x, Decision (P x)} `{forall y, Decision (Q y)} (l : list A) :
  (forall a, a ∈ l -> (P a <-> Q (f a))) -> f <$> filter P l = filter Q (f <$> l).
Proof.
  induction l as [|a r IH]; intros Hag; [done|]. cbn [fmap list_fmap].
  assert (Hr : forall x, x ∈ r -> (P x <-> Q (f x))) by (intros x Hx; apply Hag; by right).
  destruct (decide (P a)) as [Hp|Hp].
  - rewrite filter_cons_True by done.
    rewrite (filter_cons_True Q) by (apply Hag; [left|done]).
    cbn [fmap list_fmap]. f_equal. by apply IH.
  - rewrite filter_cons_False by done.
    rewrite (filter_cons_False Q) by (intros Hq; apply Hp, Hag; [left|done]).
    by apply IH.
Qed.

Lemma length_unlink (p : loc) (l : list loc) :
  NoDup l -> p ∈ l -> length (unlink p l) = pred (length l).
Proof.
  unfold unlink. induction l as [|a r IH]; intros Hnd Hp; [by apply elem_of_nil in Hp|].
  apply NoDup_cons in Hnd as [Ha Hnd]. destruct (decide (a = p)) as [->|Hne].
  - rewrite filter_cons_False by (intros Hn; by apply Hn).
    fold (unlink p r). by rewrite unlink_notin.
  - rewrite filter_cons_True by done. apply elem_of_cons in Hp as [->|Hp]; [done|].
    cbn [length pred]. rewrite IH by done. destruct r; [by apply elem_of_nil in Hp|done].
Qed.

Lemma contents_without (es : list entry) (e : entry) :
  NoDup (locs es) -> NoDup (keys es) -> e ∈ es ->
  contents (without (e_loc e) es) = filter (λ kv, kv.1 ≠ e_key e) (contents es).
Proof.
  intros Hl Hk He. unfold contents, without.
  apply (fmap_filter_agree (λ a, (e_key a, e_elem a))). intros a Ha. cbn.
  split; intros Hne Heq; apply Hne.
  - by rewrite (entry_key_inj es a e Hk Ha He Heq).
  - by rewrite (entry_loc_inj es a e Hl Ha He Heq).
Qed.

(** X13.  Deleting a key the container has takes out that element and no
    other: afterwards [HasElement] is false for the key, and a traversal
    visits the remaining elements in the order they had. *)
Theorem DeleteElement_removes_key (es : list entry) (t : RTPKeyHashTable) (k : Key) :
  ERR_RTP_KEYHASHTABLE_FUNCTIONRETURNEDINVALIDHASHINDEX < 0 ->
  ERR_RTP_KEYHASHTABLE_KEYNOTFOUND < 0 ->
  inv es t -> k ∈ keys es ->
  exists t',
    DeleteElement k t = Some (0, t') /\
    HasElement k t' = Some false /\
    traverse t' = Some (filter (λ kv, kv.1 ≠ k) (contents es)) /\
    size (mem t') = pred (size (mem t)).
Proof.
  intros Hneg1 Hneg2 I Hk.
  apply list_elem_of_fmap in Hk as (e & -> & He).
  pose proof (inv_idx _ _ I e He) as Hi. unfold idx in Hi.
  destruct (DeleteElement_spec es t (e_key e) Hneg1 Hneg2 I ltac:(lia))
    as (status & t' & Hdel & Hres).
  rewrite (proj2 (Z.leb_gt _ _)) in Hres by lia.
  rewrite (find_key_elem es e (inv_keys _ _ I) He) in Hres.
  destruct Hres as (-> & I' & _).
  exists t'. split; [done|]. split; [|split].
  - rewrite (HasElement_spec _ _ _ I') by lia. f_equal. apply bool_decide_eq_false.
    intros Hin. apply list_elem_of_fmap in Hin as (e' & Hke & He').
    apply elem_of_without in He' as [He' Hne]. apply Hne. f_equal.
    by apply (entry_key_inj es e' e (inv_keys _ _ I)).
  - rewrite (traverse_spec _ _ I').
    by rewrite (contents_without es e (inv_locs _ _ I) (inv_keys _ _ I) He).
  - rewrite (inv_size _ _ I'), (inv_size _ _ I).
    rewrite <- (length_fmap e_loc (without _ _)), <- (length_fmap e_loc es).
    fold (locs (without (e_loc e) es)). fold (locs es). rewrite locs_without.
    apply length_unlink; [apply I|]. apply elem_of_locs. eauto.
Qed.

Lemma filter_all {A : Type} (P : A -> Prop) `{forall x, Decision (P x)} (l : list A) :
  (forall x, x ∈ l -> P x) -> filter P l = l.
Proof.
  induction l as [|a r IH]; intros Hall; [done|].
  rewrite filter_cons_True by (apply Hall; left). f_equal. apply IH.
  intros x Hx. apply Hall. by right.
Qed.

Lemma without_head (e : entry) (r : list entry) :
  NoDup (locs (e :: r)) -> without (e_loc e) (e :: r) = r.
Proof.
  intros Hnd. cbn [locs fmap list_fmap] in Hnd. apply NoDup_cons in Hnd as [He _].
  unfold without. rewrite filter_cons_False by (intros Hn; by apply Hn).
  apply filter_all. intros x Hx Heq. apply He. rewrite <- Heq.
  apply list_elem_of_fmap. eauto.
Qed.

Lemma inv_nil_mem (t : RTPKeyHashTable) : inv [] t -> mem t = ∅ /\ curhashelem t = None.
Proof.
  intros I. split.
  - apply map_empty. intros p. apply (inv_dom _ _ I). apply not_elem_of_nil.
  - destruct (curhashelem t) as [p|] eqn:Hc; [|done].
    by apply (inv_cur _ _ I), elem_of_nil in Hc.
Qed.

Lemma delete_loop_spec (es : list entry) :
  forall (t : RTPKeyHashTable) (fuel deleted : nat),
    inv es t -> curhashelem t = head (locs es) -> (length es < fuel)%nat ->
    exists t', delete_loop fuel deleted t = Some ((deleted + length es)%nat, t') /\ inv [] t'.
Proof.
  induction es as [|e r IH]; intros t fuel deleted I Hc Hfuel.
  - destruct fuel as [|fuel]; [simpl in Hfuel; lia|].
    cbn [delete_loop]. unfold HasCurrentElement. rewrite Hc. cbn.
    exists t. by rewrite Nat.add_0_r.
  - destruct fuel as [|fuel]; [simpl in Hfuel; lia|].
    cbn [locs fmap list_fmap head] in Hc.
    cbn [delete_loop]. unfold HasCurrentElement. rewrite Hc.
    destruct (DeleteCurrentElement_spec _ t (e_loc e) I Hc) as (t1 & -> & I1 & Hc1).
    cbn [mbind option_bind].
    rewrite (without_head e r (inv_locs _ _ I)) in I1.
    cbn [locs fmap list_fmap next_of] in Hc1. rewrite decide_True in Hc1 by done.
    destruct (IH t1 fuel (S deleted) I1 Hc1) as (t' & -> & I'); [simpl in Hfuel; lia|].
    exists t'. split; [|done]. do 2 f_equal. simpl. lia.
Qed.

(** X14.  Deleting at the cursor while walking from the first element
    empties the container: every element is deleted once, each
    [DeleteCurrentElement] moving the cursor to the next; what is left
    is a table with no element in memory, no current element, and on
    which one more [DeleteCurrentElement] fails with
    [ERR_RTP_KEYHASHTABLE_NOCURRENTELEMENT]. *)
Theorem delete_all_empties (es : list entry) (t : RTPKeyHashTable) :
  inv es t ->
  exists t',
    delete_all t = Some (length es, t') /\
    inv [] t' /\ mem t' = ∅ /\ HasCurrentElement t' = false /\
    traverse t' = Some [] /\
    DeleteCurrentElement t' = Some (ERR_RTP_KEYHASHTABLE_NOCURRENTELEMENT, t').
Proof.
  intros I. unfold delete_all.
  destruct (delete_loop_spec es (GotoFirstElement t) (S (size (mem (GotoFirstElement t)))) O)
    as (t' & Hrun & I').
  - apply inv_set_cur; [done|]. intros q Hq. rewrite (inv_first _ _ I) in Hq.
    by apply head_Some_elem_of in Hq.
  - cbn. apply I.
  - cbn [GotoFirstElement set_cur mem]. rewrite (inv_size _ _ I). lia.
  - destruct (inv_nil_mem t' I') as [Hm Hc].
    exists t'. split; [done|]. split; [done|]. split; [done|].
    split; [by unfold HasCurrentElement; rewrite Hc|].
    split; [exact (traverse_spec [] t' I')|]. by apply DeleteCurrentElement_none.
Qed.

(** The list walk of [Clear] from the element at the head of [l2]: the
    elements of [l2] are freed, nothing else is touched. *)
Lemma Clear_loop_spec (es : list entry) :
  NoDup (locs es) ->
  forall (l2 l1 : list entry) (t : RTPKeyHashTable) (fuel : nat),
    es = l1 ++ l2 -> (length l2 < fuel)%nat ->
    (forall e, e ∈ l2 -> mem t !! e_loc e = Some (node es e)) ->
    exists m',
      Clear_loop fuel (head (locs l2)) t
      = Some (mkTable m' (table t) (firsthashelem t) (lasthashelem t) (curhashelem t)) /\
      forall p, m' !! p = if decide (p ∈ locs l2) then None else mem t !! p.
Proof.
  intros Hnd. induction l2 as [|e r IH]; intros l1 t fuel Hes Hfuel Hmem.
  - exists (mem t). split; [by destruct t, fuel|]. intros p.
    rewrite decide_False; [done|]. apply not_elem_of_nil.
  - destruct fuel as [|fuel]; [simpl in Hfuel; lia|].
    cbn [locs fmap list_fmap head Clear_loop].
    rewrite (Hmem e) by left. cbn [mbind option_bind node listnext].
    assert (next_of (locs es) (e_loc e) = head (locs r)) as ->.
    { rewrite Hes. unfold locs. rewrite fmap_app, fmap_cons.
      apply next_of_middle. rewrite <- fmap_cons, <- fmap_app, <- Hes. exact Hnd. }
    assert (Hfresh : e_loc e ∉ locs r).
    { rewrite Hes in Hnd. unfold locs in Hnd. rewrite fmap_app, fmap_cons in Hnd.
      apply NoDup_app in Hnd as (_ & _ & Hnd). by apply NoDup_cons in Hnd as [? _]. }
    destruct (IH (l1 ++ [e]) (RTPDelete (e_loc e) t) fuel) as (m' & -> & Hm').
    + by rewrite <- app_assoc.
    + simpl in Hfuel. lia.
    + intros e' He'. cbn [RTPDelete mem]. rewrite lookup_delete_ne.
      * apply Hmem. by right.
      * intros Heq. apply Hfresh. rewrite Heq. apply list_elem_of_fmap. eauto.
    + exists m'. split; [done|]. intros p. rewrite Hm'. cbn [RTPDelete mem].
      destruct (decide (p = e_loc e)) as [->|Hne].
      * rewrite (decide_True (P := e_loc e ∈ e_loc e :: locs r)) by left.
        destruct (decide (e_loc e ∈ locs r)); [done|]. by rewrite lookup_delete_eq.
      * rewrite lookup_delete_ne by done.
        destruct (decide (p ∈ locs r)) as [Hin|Hnin].
        -- rewrite decide_True; [done|]. by right.
        -- rewrite decide_False; [done|]. intros [?|?]%elem_of_cons; done.
Qed.

(** X15.  [Clear] frees every element and leaves all buckets and both
    ends of the list null, so that the table represents the empty
    container as soon as the cursor is set again.  It does not assign
    the cursor: a cursor that was on an element still says there is a
    current element afterwards, and that element is gone. *)
Theorem Clear_empties (es : list entry) (t : RTPKeyHashTable) :
  inv es t ->
  exists t',
    Clear t = Some t' /\
    mem t' = ∅ /\ curhashelem t' = curhashelem t /\
    inv [] (GotoFirstElement t') /\ traverse t' = Some [] /\
    HasCurrentElement t' = HasCurrentElement t /\
    (HasCurrentElement t = true -> GetCurrentElement t' = None /\ GetCurrentKey t' = None).
Proof.
  intros I. unfold Clear. cbn [mem firsthashelem].
  destruct (Clear_loop_spec es (inv_locs _ _ I) es []
              (mkTable (mem t) (replicate (Z.to_nat hashsize) None) (firsthashelem t)
                 (lasthashelem t) (curhashelem t))
              (S (size (mem t)))) as (m' & Hrun & Hm'); [done| |apply I|].
  { rewrite (inv_size _ _ I). lia. }
  rewrite <- (inv_first _ _ I) in Hrun. rewrite Hrun. clear Hrun.
  cbn [mbind option_bind mem table firsthashelem lasthashelem curhashelem
       set_first set_last] in *.
  assert (Hm : m' = ∅).
  { apply map_empty. intros p. rewrite Hm'.
    destruct (decide (p ∈ locs es)); [done|]. by apply (inv_dom _ _ I). }
  subst m'. eexists. split; [done|]. cbn.
  assert (I0 : inv [] (mkTable ∅ (replicate (Z.to_nat hashsize) None) None None None)).
  { constructor; try done.
    - apply NoDup_nil_2.
    - apply NoDup_nil_2.
    - intros e He. by apply elem_of_nil in He.
    - intros e He. by apply elem_of_nil in He.
    - cbn. by rewrite length_replicate.
    - intros i Hi. cbn. apply lookup_replicate_2. lia. }
  split; [done|]. split; [done|]. split; [exact I0|].
  split; [exact (traverse_spec [] _ I0)|]. split; [done|].
  unfold HasCurrentElement, GetCurrentElement, GetCurrentKey, load. cbn.
  destruct (curhashelem t); [|done]. intros _. cbn. by rewrite lookup_empty.
Qed.

Lemma prev_of_middle (l1 r : list loc) (p : loc) :
  NoDup (l1 ++ p :: r) -> prev_of (l1 ++ p :: r) p = last l1.
Proof.
  intros Hnd. unfold prev_of. rewrite reverse_app, reverse_cons, <- app_assoc. cbn [app].
  rewrite next_of_middle.
  - by rewrite head_reverse.
  - rewrite <- (reverse_involutive (l1 ++ p :: r)) in Hnd.
    apply NoDup_rev in Hnd. rewrite reverse_involutive in Hnd.
    by rewrite reverse_app, reverse_cons, <- app_assoc in Hnd.
Qed.

Lemma visit_back_prefix (es : list entry) (t : RTPKeyHashTable) :
  inv es t ->
  forall l1 l2 fuel, es = l1 ++ l2 -> (length l1 < fuel)%nat ->
    visit_back fuel (set_cur (last (locs l1)) t) = Some (reverse (contents l1)).
Proof.
  intros I. induction l1 as [|e l IH] using rev_ind; intros l2 fuel Hes Hfuel.
  - by destruct fuel.
  - destruct fuel as [|fuel]; [rewrite length_app in Hfuel; simpl in Hfuel; lia|].
    assert (He : e ∈ es) by (rewrite Hes, !elem_of_app; left; right; left).
    unfold locs, contents. rewrite !fmap_app, reverse_app. cbn [fmap list_fmap reverse].
    rewrite last_snoc.
    cbn [visit_back HasCurrentElement set_cur curhashelem].
    unfold GetCurrentKey, GetCurrentElement, GotoPreviousElement.
    cbn [load mem set_cur curhashelem mbind option_bind].
    rewrite (inv_mem _ _ I e He). cbn [fmap option_fmap option_map mbind option_bind].
    cbn [node key element listprev].
    assert (prev_of (locs es) (e_loc e) = last (locs l)) as ->.
    { rewrite Hes, <- app_assoc. unfold locs. rewrite fmap_app. cbn [app fmap list_fmap].
      apply prev_of_middle. pose proof (inv_locs _ _ I) as Hnd.
      rewrite Hes, <- app_assoc in Hnd. unfold locs in Hnd.
      by rewrite fmap_app in Hnd. }
    replace (set_cur (last (locs l)) (set_cur (Some (e_loc e)) t))
      with (set_cur (last (locs l)) t) by done.
    rewrite (IH ([e] ++ l2) fuel); [done|by rewrite Hes, <- app_assoc|].
    rewrite length_app in Hfuel. simpl in Hfuel. lia.
Qed.

(** X16.  Walking from the last element with [GotoPreviousElement]
    visits the stored elements in the reverse of the order of their
    insertion: the same elements as the forward traversal, backwards. *)
Theorem traverse_back_reverses (es : list entry) (t : RTPKeyHashTable) :
  inv es t ->
  exists visited,
    traverse t = Some visited /\ traverse_back t = Some (reverse visited).
Proof.
  intros I. exists (contents es). split; [by apply traverse_spec|].
  unfold traverse_back, GotoLastElement. rewrite (inv_last _ _ I).
  apply (visit_back_prefix es t I es []); [by rewrite app_nil_r|].
  rewrite (inv_size es t I). lia.
Qed.

Lemma set_cur_same (t : RTPKeyHashTable) : set_cur (curhashelem t) t = t.
Proof. by destruct t. Qed.

(** X17.  Adding an element in the middle of a traversal does not
    disturb it: the cursor stays on the element it was on, and going on
    from there visits the elements that were still to come and then the
    new one. *)
Theorem AddElement_during_traversal
    (l1 l2 : list entry) (e : entry) (t : RTPKeyHashTable)
    (k : Key) (v : Element) (p : loc) :
  inv (l1 ++ e :: l2) t -> curhashelem t = Some (e_loc e) ->
  0 <= GetIndex k < hashsize -> k ∉ keys (l1 ++ e :: l2) -> p ∉ locs (l1 ++ e :: l2) ->
  exists t',
    AddElement k v (Some p) t = Some (0, t') /\
    GetCurrentKey t' = Some (e_key e) /\ GetCurrentElement t' = Some (e_elem e) /\
    visit (S (size (mem t'))) t' = Some (contents (e :: l2) ++ [(k, v)]).
Proof.
  intros I Hc Hi Hk Hp.
  destruct (AddElement_new _ t k v p I Hi Hk Hp) as (t' & Hadd & I' & Hc').
  rewrite Hc in Hc'.
  assert (He : e ∈ (l1 ++ e :: l2) ++ [mkEntry p k v]).
  { rewrite !elem_of_app. left. right. left. }
  exists t'. split; [done|]. split; [|split].
  - by apply (current_at _ t' e I' He).
  - by apply (current_at _ t' e I' He).
  - rewrite <- (set_cur_same t') at 2. rewrite Hc'.
    change (Some (e_loc e)) with (head (locs ((e :: l2) ++ [mkEntry p k v]))).
    rewrite (visit_suffix _ t' I' ((e :: l2) ++ [mkEntry p k v]) l1).
    + unfold contents. by rewrite fmap_app.
    + by rewrite <- app_assoc.
    + rewrite (inv_size _ _ I'), !length_app. simpl. lia.
Qed.

(** X18.  An [AddElement] that fails leaves the table as it was: with a
    hash index of [hashsize] or more it returns the invalid-index error
    before looking at the bucket, whatever the allocator would return;
    with a new key and no memory it returns [ERR_RTP_OUTOFMEM]. *)
Theorem AddElement_failure_unchanged
    (es : list entry) (t : RTPKeyHashTable) (k : Key) (v : Element) (newelem : ptr) :
  inv es t -> 0 <= GetIndex k -> k ∉ keys es ->
  (hashsize <= GetIndex k ->
   AddElement k v newelem t
   = Some (ERR_RTP_KEYHASHTABLE_FUNCTIONRETURNEDINVALIDHASHINDEX, t)) /\
  (GetIndex k < hashsize ->
   AddElement k v None t = Some (ERR_RTP_OUTOFMEM, t)) /\
  traverse t = Some (contents es).
Proof.
  intros I Hi Hk. split; [|split].
  - intros Hh. by apply AddElement_invalid.
  - intros Hh. apply (AddElement_outofmem es); [done|lia|done].
  - by apply traverse_spec.
Qed.

Lemma store_set_cur (f : HashElement -> HashElement) (x c : ptr) (t : RTPKeyHashTable) :
  store f x (set_cur c t) = set_cur c <$> store f x t.
Proof. unfold store. destruct x as [q|]; [|done]. cbn. by destruct (mem t !! q). Qed.

Lemma table_set_set_cur (i : Z) (x c : ptr) (t : RTPKeyHashTable) :
  table_set i x (set_cur c t) = set_cur c <$> table_set i x t.
Proof. unfold table_set. cbn. by case_match. Qed.

(** [AddElement] neither reads nor assigns the cursor. *)
Lemma AddElement_set_cur (k : Key) (v : Element) (newelem c : ptr) (t : RTPKeyHashTable) :
  AddElement k v newelem (set_cur c t)
  = (λ r, (r.1, set_cur c r.2)) <$> AddElement k v newelem t.
Proof.
  unfold AddElement. destruct (hashsize <=? GetIndex k); [done|].
  change (table_get (set_cur c t) (GetIndex k)) with (table_get t (GetIndex k)).
  destruct (table_get t (GetIndex k)) as [e|]; [|done]. cbn [mbind option_bind].
  change (mem (set_cur c t)) with (mem t).
  destruct (chain_search _ _ _ _) as [[[] ?]|]; [done| |done]. cbn [mbind option_bind].
  destruct newelem as [new|]; [|done].
  change (RTPNew new (HashElement_new k v (GetIndex k)) (set_cur c t))
    with (set_cur c (RTPNew new (HashElement_new k v (GetIndex k)) t)).
  set (t0 := RTPNew new (HashElement_new k v (GetIndex k)) t).
  change (table_get (set_cur c t0) (GetIndex k)) with (table_get t0 (GetIndex k)).
  destruct (table_get t0 (GetIndex k)) as [e0|]; [|done]. cbn [mbind option_bind].
  rewrite table_set_set_cur. destruct (table_set _ _ t0) as [t1|]; [|done].
  cbn [fmap option_fmap option_map mbind option_bind].
  rewrite store_set_cur. destruct (store _ _ t1) as [t2|]; [|done].
  cbn [fmap option_fmap option_map mbind option_bind].
  assert (E3 : match e0 with
               | Some _ => store (set_hashprev (Some new)) e0 (set_cur c t2)
               | None => Some (set_cur c t2)
               end
               = set_cur c <$> match e0 with
                               | Some _ => store (set_hashprev (Some new)) e0 t2
                               | None => Some t2
                               end).
  { destruct e0; [apply store_set_cur|done]. }
  rewrite E3. clear E3.
  destruct (match e0 with Some _ => _ | None => _ end) as [t3|]; [|done].
  cbn [fmap option_fmap option_map mbind option_bind].
  change (firsthashelem (set_cur c t3)) with (firsthashelem t3).
  destruct (firsthashelem t3); [|done].
  change (lasthashelem (set_cur c t3)) with (lasthashelem t3).
  rewrite store_set_cur. destruct (store _ (lasthashelem t3) t3) as [t4|]; [|done].
  cbn [fmap option_fmap option_map mbind option_bind].
  change (lasthashelem (set_cur c t4)) with (lasthashelem t4).
  rewrite store_set_cur. by destruct (store _ _ t4) as [t5|].
Qed.

(** X19.  A table fresh from the constructor is empty, whatever its
    unassigned cursor holds: a traversal, forwards or backwards, visits
    nothing and no key is found; and the first [AddElement] succeeds
    and makes a container of one element, leaving the cursor as it
    was. *)
Theorem fresh_table_is_empty (cur0 : ptr) (k : Key) (v : Element) (p : loc) :
  0 <= GetIndex k < hashsize ->
  traverse (RTPKeyHashTable_new cur0) = Some [] /\
  traverse_back (RTPKeyHashTable_new cur0) = Some [] /\
  HasElement k (RTPKeyHashTable_new cur0) = Some false /\
  exists t1,
    AddElement k v (Some p) (RTPKeyHashTable_new cur0) = Some (0, t1) /\
    curhashelem t1 = cur0 /\
    traverse t1 = Some [(k, v)].
Proof.
  intros Hi. pose proof (inv_new ltac:(lia)) as I.
  split; [exact (traverse_spec [] _ I)|].
  split; [by unfold traverse_back|].
  split; [exact (HasElement_spec [] _ k I ltac:(lia))|].
  destruct (AddElement_new [] _ k v p I Hi) as (t1 & Hadd & I1 & Hc1).
  { apply not_elem_of_nil. } { apply not_elem_of_nil. }
  exists (set_cur cur0 t1).
  change (RTPKeyHashTable_new cur0) with (set_cur cur0 (RTPKeyHashTable_new None)).
  rewrite AddElement_set_cur, Hadd. split; [done|]. split; [done|].
  exact (traverse_spec _ _ I1).
Qed.

(** X20.  Stepping the cursor.  From an element that has a successor,
    [GotoNextElement] followed by [GotoPreviousElement] comes back to
    it.  From the last element [GotoNextElement] leaves no current
    element, and from there neither [GotoPreviousElement] nor
    [GotoNextElement] finds one again: the position is lost until
    [GotoFirstElement], [GotoLastElement] or [GotoElement]. *)
Theorem cursor_steps (es : list entry) (t : RTPKeyHashTable) (p : loc) :
  inv es t -> curhashelem t = Some p ->
  exists t1,
    GotoNextElement t = Some t1 /\ curhashelem t1 = next_of (locs es) p /\
    match next_of (locs es) p with
    | Some q =>
        q <> p /\ exists t2, GotoPreviousElement t1 = Some t2 /\ curhashelem t2 = Some p
    | None =>
        last (locs es) = Some p /\ HasCurrentElement t1 = false /\
        GotoPreviousElement t1 = Some t1 /\ GotoNextElement t1 = Some t1
    end.
Proof.
  intros I Hc. pose proof (inv_locs _ _ I) as Hnd.
  pose proof (inv_cur _ _ I p Hc) as Hp.
  destruct (GotoNextElement_spec es t I) as (t1 & H1 & I1 & Hc1).
  rewrite Hc in Hc1. cbn [mbind option_bind] in Hc1.
  exists t1. split; [done|]. split; [done|].
  destruct (next_of (locs es) p) as [q|] eqn:Hn.
  - split.
    + intros ->. by apply (next_of_not_self (locs es) p Hnd).
    + destruct (GotoPreviousElement_spec es t1 I1) as (t2 & H2 & _ & Hc2).
      exists t2. split; [done|]. rewrite Hc2, Hc1. cbn [mbind option_bind].
      by apply (next_prev (locs es) q p Hnd).
  - split; [by apply (next_of_None (locs es) p Hnd Hp)|].
    unfold HasCurrentElement, GotoPreviousElement, GotoNextElement. by rewrite Hc1.
Qed.

(** X21.  Storing a new value under a key by deleting it and adding it
    again moves the key to the end of the traversal order: the order is
    that of the insertions, and the deleted element's place is not kept.
    The allocator may hand out the address that was just freed. *)
Theorem readded_key_goes_last
    (es : list entry) (t : RTPKeyHashTable) (k : Key) (v : Element) (p : loc) :
  ERR_RTP_KEYHASHTABLE_FUNCTIONRETURNEDINVALIDHASHINDEX < 0 ->
  ERR_RTP_KEYHASHTABLE_KEYNOTFOUND < 0 ->
  inv es t -> k ∈ keys es ->
  (forall e, e ∈ es -> e_loc e = p -> e_key e = k) ->
  exists t1 t2,
    DeleteElement k t = Some (0, t1) /\
    AddElement k v (Some p) t1 = Some (0, t2) /\
    traverse t2 = Some (filter (λ kv, kv.1 ≠ k) (contents es) ++ [(k, v)]).
Proof.
  intros Hneg1 Hneg2 I Hk Hp.
  apply list_elem_of_fmap in Hk as (e & -> & He).
  pose proof (inv_idx _ _ I e He) as Hi. unfold idx in Hi.
  destruct (DeleteElement_spec es t (e_key e) Hneg1 Hneg2 I ltac:(lia))
    as (status & t1 & Hdel & Hres).
  rewrite (proj2 (Z.leb_gt _ _)) in Hres by lia.
  rewrite (find_key_elem es e (inv_keys _ _ I) He) in Hres.
  destruct Hres as (-> & I1 & _).
  destruct (AddElement_new _ t1 (e_key e) v p I1 Hi) as (t2 & Hadd & I2 & _).
  - intros Hin. apply list_elem_of_fmap in Hin as (e' & Hke & He').
    apply elem_of_without in He' as [He' Hne]. apply Hne. f_equal.
    by apply (entry_key_inj es e' e (inv_keys _ _ I)).
  - intros Hin. apply elem_of_locs in Hin as (e' & He' & Hl).
    apply elem_of_without in He' as [He' Hne]. apply Hne. f_equal.
    apply (entry_key_inj es e' e (inv_keys _ _ I)); [done|done|]. by apply Hp.
  - exists t1, t2. split; [done|]. split; [done|].
    rewrite (traverse_spec _ _ I2). unfold contents at 1. rewrite fmap_app.
    fold (contents (without (e_loc e) es)).
    by rewrite (contents_without es e (inv_locs _ _ I) (inv_keys _ _ I) He).
Qed.

(** X22.  Every element a traversal visits can be looked up by its
    key: [GotoElement] returns 0 and puts the cursor on it, where
    [GetCurrentKey] and [GetCurrentElement] return the key and the
    element the traversal showed; the lookup changes nothing else. *)
Theorem GotoElement_finds_stored
    (es : list entry) (t : RTPKeyHashTable) (k : Key) (v : Element) :
  inv es t -> (k, v) ∈ contents es ->
  exists t',
    GotoElement k t = Some (0, t') /\
    GetCurrentKey t' = Some k /\ GetCurrentElement t' = Some v /\
    HasElement k t = Some true /\
    traverse t' = Some (contents es).
Proof.
  intros I Hkv. apply list_elem_of_fmap in Hkv as (e & [= -> ->] & He).
  pose proof (inv_idx _ _ I e He) as Hi. unfold idx in Hi.
  assert (I' : inv es (set_cur (Some (e_loc e)) t)).
  { apply inv_set_cur; [done|]. intros q [= <-]. apply elem_of_locs. eauto. }
  exists (set_cur (Some (e_loc e)) t). split; [|split; [|split; [|split]]].
  - rewrite (GotoElement_spec es t _ I) by lia.
    rewrite (proj2 (Z.leb_gt _ _)) by lia.
    by rewrite (find_key_elem es e (inv_keys _ _ I) He).
  - by apply (current_at es _ e I' He).
  - by apply (current_at es _ e I' He).
  - rewrite (HasElement_spec es t _ I) by lia. f_equal. apply bool_decide_eq_true.
    apply list_elem_of_fmap. eauto.
  - by apply traverse_spec.
Qed.

End Table.

(** ** An instance: integer keys, four buckets *)

Definition mod4 (k : Z) : Z := k mod 4.

Lemma mod4_nonneg (k : Z) : 0 <= mod4 k.
Proof. unfold mod4. pose proof (Z.mod_pos_bound k 4). lia. Qed.

(** Three insertions (the keys 1 and 5 share a bucket), a deletion by
    key, a deletion at the cursor, a rejected duplicate, a new
    insertion. *)
Definition example_ops : list (@op Z Z) :=
  [OpAddElement 1 10 (Some 1%positive); OpAddElement 5 50 (Some 2%positive);
   OpAddElement 2 20 (Some 3%positive); OpDeleteElement 5;
   OpGotoFirstElement; OpDeleteCurrentElement;
   OpAddElement 2 99 (Some 4%positive); OpAddElement 9 90 (Some 1%positive)].

Example example_ops_traverse :
  (run_ops mod4 4 (-1) (-2) (-3) (-4) (-5) example_ops (RTPKeyHashTable_new 4 None)
     ≫= traverse) = Some [(2, 20); (9, 90)].
Proof. vm_compute. reflexivity. Qed.


(** A table holding the keys 1 and 5. *)
Definition two_elements : list (@entry Z Z) :=
  [mkEntry 1%positive 1 10; mkEntry 2%positive 5 50].

Definition two_elements_table : @RTPKeyHashTable Z Z :=
  mkTable
    (<[2%positive := mkHashElement 1 5 50 None (Some 1%positive) (Some 1%positive) None]>
       (<[1%positive := mkHashElement 1 1 10 (Some 2%positive) None None (Some 2%positive)]> ∅))
    [None; Some 2%positive; None; None] (Some 1%positive) (Some 2%positive) None.

Lemma two_elements_inv : inv mod4 4 two_elements two_elements_table.
Proof.
  destruct (AddElement_new mod4 4 (-2) (-4) (-5) [] (RTPKeyHashTable_new 4 None)
              1 10 1%positive) as (t1 & H1 & I1 & _).
  - apply inv_new. lia.
  - vm_compute. split; congruence.
  - apply not_elem_of_nil.
  - apply not_elem_of_nil.
  - destruct (AddElement_new mod4 4 (-2) (-4) (-5) _ t1 5 50 2%positive I1)
      as (t2 & H2 & I2 & _).
    + vm_compute. split; congruence.
    + refine (bool_decide_unpack _ _). vm_compute. exact I.
    + refine (bool_decide_unpack _ _). vm_compute. exact I.
    + vm_compute in H1. injection H1 as <-.
      vm_compute in H2. injection H2 as <-. exact I2.
Qed.

Lemma AddElement_duplicate_rejected_witness :
  AddElement mod4 4 (-2) (-4) (-5) 5 77 (Some 3%positive) two_elements_table
    = Some (-4, two_elements_table) /\
  traverse two_elements_table = Some (contents two_elements).
Proof.
  apply (AddElement_duplicate_rejected mod4 4 (-2) (-4) (-5)
           two_elements two_elements_table 5 77 (Some 3%positive)).
  - exact two_elements_inv.
  - refine (bool_decide_unpack _ _). vm_compute. exact I.
Defined.

(** ** The properties above on the table of two elements *)

Lemma lookup_after_AddElement_witness :
  exists t1 t2,
    AddElement mod4 4 (-2) (-4) (-5) 2 20 (Some 3%positive) two_elements_table
      = Some (0, t1) /\
    HasElement mod4 4 2 t1 = Some true /\
    GotoElement mod4 4 (-2) (-3) 2 t1 = Some (0, t2) /\
    GetCurrentKey t2 = Some 2 /\ GetCurrentElement t2 = Some 20 /\
    traverse t1 = Some (contents two_elements ++ [(2, 20)]).
Proof.
  apply (lookup_after_AddElement mod4 4 (-2) (-3) (-4) (-5)
           two_elements two_elements_table 2 20 3%positive).
  - exact two_elements_inv.
  - vm_compute. split; congruence.
  - refine (bool_decide_unpack _ _). vm_compute. exact I.
  - refine (bool_decide_unpack _ _). vm_compute. exact I.
Defined.

Lemma absent_key_lookup_witness :
  HasElement mod4 4 9 two_elements_table = Some false /\
  DeleteElement mod4 4 (-1) (-2) (-3) 9 two_elements_table
    = GotoElement mod4 4 (-2) (-3) 9 two_elements_table /\
  GotoElement mod4 4 (-2) (-3) 9 two_elements_table =
    Some (if 4 <=? mod4 9 then (-2, two_elements_table)
          else (-3, set_cur None two_elements_table)) /\
  traverse (set_cur None two_elements_table) = Some (contents two_elements).
Proof.
  apply (absent_key_lookup mod4 4 (-1) (-2) (-3) two_elements two_elements_table 9).
  - lia.
  - lia.
  - exact two_elements_inv.
  - apply mod4_nonneg.
  - refine (bool_decide_unpack _ _). vm_compute. exact I.
Defined.

Lemma HasElement_iff_traversed_witness :
  exists visited,
    traverse two_elements_table = Some visited /\
    HasElement mod4 4 5 two_elements_table = Some (bool_decide (5 ∈ visited.*1)).
Proof.
  apply (HasElement_iff_traversed mod4 4 two_elements two_elements_table 5).
  - exact two_elements_inv.
  - apply mod4_nonneg.
Defined.

Lemma DeleteElement_removes_key_witness :
  exists t',
    DeleteElement mod4 4 (-1) (-2) (-3) 1 two_elements_table = Some (0, t') /\
    HasElement mod4 4 1 t' = Some false /\
    traverse t' = Some (filter (λ kv, kv.1 ≠ 1) (contents two_elements)) /\
    size (mem t') = pred (size (mem two_elements_table)).
Proof.
  apply (DeleteElement_removes_key mod4 4 (-1) (-2) (-3) two_elements two_elements_table 1).
  - lia.
  - lia.
  - exact two_elements_inv.
  - refine (bool_decide_unpack _ _). vm_compute. exact I.
Defined.

Lemma delete_all_empties_witness :
  exists t',
    delete_all (-1) two_elements_table = Some (length two_elements, t') /\
    inv mod4 4 [] t' /\ mem t' = ∅ /\ HasCurrentElement t' = false /\
    traverse t' = Some [] /\
    DeleteCurrentElement (-1) t' = Some (-1, t').
Proof.
  apply (delete_all_empties mod4 4 (-1) two_elements two_elements_table).
  exact two_elements_inv.
Defined.

(** The table of two elements with the cursor on the first. *)
Definition two_elements_at_first : @RTPKeyHashTable Z Z :=
  set_cur (Some 1%positive) two_elements_table.

Lemma two_elements_at_first_inv : inv mod4 4 two_elements two_elements_at_first.
Proof.
  apply inv_set_cur; [exact two_elements_inv|]. intros q [= <-].
  refine (bool_decide_unpack _ _). vm_compute. exact I.
Qed.

Lemma Clear_empties_witness :
  exists t',
    Clear 4 two_elements_at_first = Some t' /\
    mem t' = ∅ /\ curhashelem t' = curhashelem two_elements_at_first /\
    inv mod4 4 [] (GotoFirstElement t') /\ traverse t' = Some [] /\
    HasCurrentElement t' = HasCurrentElement two_elements_at_first /\
    (HasCurrentElement two_elements_at_first = true ->
     GetCurrentElement t' = None /\ GetCurrentKey t' = None).
Proof.
  apply (Clear_empties mod4 4 two_elements two_elements_at_first).
  exact two_elements_at_first_inv.
Defined.

Lemma traverse_back_reverses_witness :
  exists visited,
    traverse two_elements_table = Some visited /\
    traverse_back two_elements_table = Some (reverse visited).
Proof.
  apply (traverse_back_reverses mod4 4 two_elements two_elements_table).
  exact two_elements_inv.
Defined.

Lemma AddElement_during_traversal_witness :
  exists t',
    AddElement mod4 4 (-2) (-4) (-5) 2 20 (Some 3%positive) two_elements_at_first
      = Some (0, t') /\
    GetCurrentKey t' = Some 1 /\ GetCurrentElement t' = Some 10 /\
    visit (S (size (mem t'))) t' = Some ([(1, 10); (5, 50)] ++ [(2, 20)]).
Proof.
  apply (AddElement_during_traversal mod4 4 (-2) (-4) (-5)
           [] [mkEntry 2%positive 5 50] (mkEntry 1%positive 1 10)
           two_elements_at_first 2 20 3%positive).
  - exact two_elements_at_first_inv.
  - reflexivity.
  - vm_compute. split; congruence.
  - refine (bool_decide_unpack _ _). vm_compute. exact I.
  - refine (bool_decide_unpack _ _). vm_compute. exact I.
Defined.

Lemma AddElement_failure_unchanged_witness :
  (4 <= mod4 2 ->
   AddElement mod4 4 (-2) (-4) (-5) 2 20 (Some 3%positive) two_elements_table
   = Some (-2, two_elements_table)) /\
  (mod4 2 < 4 ->
   AddElement mod4 4 (-2) (-4) (-5) 2 20 None two_elements_table
   = Some (-5, two_elements_table)) /\
  traverse two_elements_table = Some (contents two_elements).
Proof.
  apply (AddElement_failure_unchanged mod4 4 (-2) (-4) (-5)
           two_elements two_elements_table 2 20 (Some 3%positive)).
  - exact two_elements_inv.
  - apply mod4_nonneg.
  - refine (bool_decide_unpack _ _). vm_compute. exact I.
Defined.

(** A table fresh from the constructor, over storage whose cursor word
    held the address 7. *)
Definition fresh_table : @RTPKeyHashTable Z Z := RTPKeyHashTable_new 4 (Some 7%positive).

Lemma fresh_table_is_empty_witness :
  traverse fresh_table = Some [] /\
  traverse_back fresh_table = Some [] /\
  HasElement mod4 4 1 fresh_table = Some false /\
  exists t1,
    AddElement mod4 4 (-2) (-4) (-5) 1 10 (Some 1%positive) fresh_table = Some (0, t1) /\
    curhashelem t1 = Some 7%positive /\
    traverse t1 = Some [(1, 10)].
Proof.
  apply (fresh_table_is_empty mod4 4 (-2) (-4) (-5) (Some 7%positive) 1 10 1%positive).
  vm_compute. split; congruence.
Defined.

Lemma cursor_steps_witness :
  exists t1,
    GotoNextElement two_elements_at_first = Some t1 /\
    curhashelem t1 = Some 2%positive /\
    (2%positive <> 1%positive /\
     exists t2, GotoPreviousElement t1 = Some t2 /\ curhashelem t2 = Some 1%positive).
Proof.
  apply (cursor_steps mod4 4 two_elements two_elements_at_first 1%positive).
  - exact two_elements_at_first_inv.
  - reflexivity.
Defined.

Lemma readded_key_goes_last_witness :
  exists t1 t2,
    DeleteElement mod4 4 (-1) (-2) (-3) 1 two_elements_table = Some (0, t1) /\
    AddElement mod4 4 (-2) (-4) (-5) 1 11 (Some 1%positive) t1 = Some (0, t2) /\
    traverse t2 = Some (filter (λ kv, kv.1 ≠ 1) (contents two_elements) ++ [(1, 11)]).
Proof.
  apply (readded_key_goes_last mod4 4 (-1) (-2) (-3) (-4) (-5)
           two_elements two_elements_table 1 11 1%positive).
  - lia.
  - lia.
  - exact two_elements_inv.
  - refine (bool_decide_unpack _ _). vm_compute. exact I.
  - intros e He Hl. unfold two_elements in He.
    apply elem_of_cons in He as [->|He]; [done|].
    apply elem_of_cons in He as [->|He]; [done|]. by apply elem_of_nil in He.
Defined.

(** [Clear] on the table of two elements; deleting both through the
    cursor; the backward traversal. *)
Example two_elements_emptied :
  (mem <$> Clear 4 two_elements_at_first) = Some ∅ /\
  (fst <$> delete_all (-1) two_elements_table) = Some 2%nat /\
  traverse_back two_elements_table = Some [(5, 50); (1, 10)] /\
  ('(_, t1) ← DeleteElement mod4 4 (-1) (-2) (-3) 1 two_elements_table;
   '(_, t2) ← AddElement mod4 4 (-2) (-4) (-5) 1 11 (Some 1%positive) t1;
   traverse t2) = Some [(5, 50); (1, 11)].
Proof. vm_compute. repeat split. Qed.

Lemma GotoElement_finds_stored_witness :
  exists t',
    GotoElement mod4 4 (-2) (-3) 5 two_elements_table = Some (0, t') /\
    GetCurrentKey t' = Some 5 /\ GetCurrentElement t' = Some 50 /\
    HasElement mod4 4 5 two_elements_table = Some true /\
    traverse t' = Some (contents two_elements).
Proof.
  apply (GotoElement_finds_stored mod4 4 (-2) (-3) two_elements two_elements_table 5 50).
  - exact two_elements_inv.
  - refine (bool_decide_unpack _ _). vm_compute. exact I.
Defined.

End KeyHashTable.

(* ===================================================================== *)
(** * rtptcptransmitter.h: the per-socket reassembler                    *)
(* ===================================================================== *)

Module Reassembler.

Abbreviation byte := Byte.byte (only parsing).

(** The value of a byte, [0..255]. *)
Definition byte_val (b : byte) : Z := Z.of_N (Byte.to_N b).

(** ** RFC 4571 framing *)

(** The length a two-byte big-endian prefix announces. *)
Definition frame_length (b0 b1 : byte) : Z := byte_val b0 * 256 + byte_val b1.

(** The frames of a stream: each a two-byte length followed by that many
    bytes; a last frame that is cut short is not a frame.  One unit of
    fuel per frame. *)
Fixpoint parse_frames_fuel (fuel : nat) (s : list byte) : list (list byte) :=
  match fuel, s with
  | S fuel', b0 :: b1 :: rest =>
      let n := Z.to_nat (frame_length b0 b1) in
      if decide (n <= length rest)%nat
      then take n rest :: parse_frames_fuel fuel' (drop n rest)
      else []
  | _, _ => []
  end.

Definition parse_frames (s : list byte) : list (list byte) :=
  parse_frames_fuel (length s) s.

(** No length met while parsing the stream exceeds [maxPackSize], the
    length of a last frame that is cut short included. *)
Inductive lengths_ok (maxPackSize : Z) : list byte -> Prop :=
| lengths_ok_short s :
    (length s < 2)%nat -> lengths_ok maxPackSize s
| lengths_ok_partial b0 b1 rest :
    frame_length b0 b1 <= maxPackSize ->
    (length rest < Z.to_nat (frame_length b0 b1))%nat ->
    lengths_ok maxPackSize (b0 :: b1 :: rest)
| lengths_ok_frame b0 b1 payload rest :
    frame_length b0 b1 <= maxPackSize ->
    length payload = Z.to_nat (frame_length b0 b1) ->
    lengths_ok maxPackSize rest ->
    lengths_ok maxPackSize (b0 :: b1 :: payload ++ rest).

(** ** The reassembler *)

(** [class SocketData], as the header declares it: the two-byte staging
    buffer and its fill, the decoded length, the payload buffer (null or
    an array of [m_dataLength] bytes) and its fill. *)
Record SocketData := mkSocketData {
  m_lengthBuffer : list byte;
  m_lengthBufferOffset : nat;
  m_dataLength : nat;
  m_dataBufferOffset : nat;
  m_pDataBuffer : option (list byte)
}.

Inductive rx_error := ConnectionClosed | OversizedFrame.

(** What one call of the reassembler reports and leaves behind. *)
Record rx_result := mkResult {
  rx_complete : bool;
  rx_error_of : option rx_error;
  rx_state : SocketData;
  rx_socket : list byte
}.

(** A socket is the bytes that arrived and were not read yet.  [recv]
    of up to [n] bytes takes what is there, at most [n]; it takes
    nothing only when nothing is there, which on a socket reported
    readable means the peer has closed. *)
Definition recv (n : nat) (sock : list byte) : list byte * list byte :=
  (take n sock, drop n sock).

(** Storing [bytes] at offset [off] of an array. *)
Definition write_at (off : nat) (bytes array : list byte) : list byte :=
  take off array ++ bytes ++ drop (off + length bytes) array.

(** Modelled from the spec: [SocketData::SocketData] and
    [SocketData::Reset] (declared in the header; their bodies are in
    [rtptcptransmitter.cpp], which is not part of the sources at hand).
    "Reset. Zeroes lenOff, dataLen, dataOff; dataBuf is either harvested
    or freed." *)
Definition Reset (st : SocketData) : SocketData :=
  mkSocketData (m_lengthBuffer st) 0 0 0 None.

(** Modelled from the spec: the reassembler of a destination just
    added, in the length phase with nothing staged. *)
Definition SocketData_new : SocketData :=
  mkSocketData [Byte.x00; Byte.x00] 0 0 0 None.

(** [uint8_t *ExtractDataBuffer()] *)
Definition ExtractDataBuffer (st : SocketData) : option (list byte) * SocketData :=
  (m_pDataBuffer st,
   mkSocketData (m_lengthBuffer st) (m_lengthBufferOffset st) (m_dataLength st)
     (m_dataBufferOffset st) None).

(** [dataLen = (lenBuf[0] << 8) | lenBuf[1]] *)
Definition decode_length (lenBuf : list byte) : Z :=
  match lenBuf with
  | b0 :: b1 :: _ => Z.lor (Z.shiftl (byte_val b0) 8) (byte_val b1)
  | _ => 0
  end.

(** Modelled from the spec: step 1 of [ProcessReadable]
    ([SocketData::ProcessAvailableBytes], whose body is not part of the
    sources at hand).  "While bytes remain and the reassembler is in the
    length phase (lenOff < 2): attempt to read up to 2 - lenOff bytes into
    lenBuf.  A zero-byte read signals peer close (error ConnectionClosed).
    On crossing into lenOff = 2, decode dataLen; if dataLen > maxPackSize,
    return OversizedFrame; allocate dataBuf of size dataLen."  The result
    is the error, if any, and the bytes of the budget that remain. *)
Fixpoint read_length (fuel : nat) (maxPackSize : Z) (avail : nat)
    (st : SocketData) (sock : list byte)
  : option (option rx_error * nat * SocketData * list byte) :=
  if (0 <? avail)%nat && (m_lengthBufferOffset st <? 2)%nat then
    match fuel with
    | O => None
    | S fuel' =>
        let '(got, sock) := recv (2 - m_lengthBufferOffset st) sock in
        if (length got =? 0)%nat then Some (Some ConnectionClosed, avail, st, sock) else
        let st := mkSocketData
                    (write_at (m_lengthBufferOffset st) got (m_lengthBuffer st))
                    (m_lengthBufferOffset st + length got) (m_dataLength st)
                    (m_dataBufferOffset st) (m_pDataBuffer st) in
        let avail := (avail - length got)%nat in
        if (m_lengthBufferOffset st =? 2)%nat then
          let dataLen := decode_length (m_lengthBuffer st) in
          if maxPackSize <? dataLen then Some (Some OversizedFrame, avail, st, sock) else
          let st := mkSocketData (m_lengthBuffer st) 2 (Z.to_nat dataLen) 0
                      (Some (replicate (Z.to_nat dataLen) Byte.x00)) in
          Some (None, avail, st, sock)
        else read_length fuel' maxPackSize avail st sock
    end
  else Some (None, avail, st, sock).

(** Modelled from the spec: step 2.  "While bytes remain and in the
    payload phase: read up to dataLen - dataOff.  A zero-byte read signals
    ConnectionClosed." *)
Fixpoint read_payload (fuel : nat) (avail : nat) (st : SocketData) (sock : list byte)
  : option (option rx_error * nat * SocketData * list byte) :=
  if (0 <? avail)%nat && (m_lengthBufferOffset st =? 2)%nat
     && (m_dataBufferOffset st <? m_dataLength st)%nat then
    match fuel with
    | O => None
    | S fuel' =>
        let '(got, sock) := recv (m_dataLength st - m_dataBufferOffset st) sock in
        if (length got =? 0)%nat then Some (Some ConnectionClosed, avail, st, sock) else
        let st := mkSocketData (m_lengthBuffer st) (m_lengthBufferOffset st)
                    (m_dataLength st) (m_dataBufferOffset st + length got)
                    (write_at (m_dataBufferOffset st) got <$> m_pDataBuffer st) in
        read_payload fuel' (avail - length got)%nat st sock
    end
  else Some (None, avail, st, sock).

(** Modelled from the spec: [ProcessReadable(sock, availableBytes)],
    steps 1 to 4.  A frame is complete "iff lenOff = 2 and dataOff =
    dataLen". *)
Definition ProcessReadable (maxPackSize : Z) (availableBytes : nat)
    (st : SocketData) (sock : list byte) : option rx_result :=
  '(err, avail, st, sock) ← read_length (S availableBytes) maxPackSize availableBytes st sock;
  match err with
  | Some e => Some (mkResult false (Some e) st sock)
  | None =>
      '(err, avail, st, sock) ← read_payload (S avail) avail st sock;
      match err with
      | Some e => Some (mkResult false (Some e) st sock)
      | None =>
          let complete :=
            (m_lengthBufferOffset st =? 2)%nat
            && (m_dataBufferOffset st =? m_dataLength st)%nat in
          Some (mkResult complete None st sock)
      end
  end.

(** Modelled from the spec: the receive path of the transmitter for one
    socket (section 4.5, steps 3 and 4).  "Drive its reassembler until it
    would block or reports an error"; for a completed frame "the caller
    harvests dataBuf ... and issues Reset".  The result is the error, if
    any, the state, what is left in the socket and the payloads emitted. *)
Fixpoint drive (fuel : nat) (maxPackSize : Z) (st : SocketData) (sock : list byte)
    (emitted : list (list byte))
  : option (option rx_error * SocketData * list byte * list (list byte)) :=
  match sock with
  | [] => Some (None, st, sock, emitted)
  | _ :: _ =>
      match fuel with
      | O => None
      | S fuel' =>
          r ← ProcessReadable maxPackSize (length sock) st sock;
          match rx_error_of r with
          | Some e => Some (Some e, rx_state r, rx_socket r, emitted)
          | None =>
              if rx_complete r then
                let '(buf, st) := ExtractDataBuffer (rx_state r) in
                drive fuel' maxPackSize (Reset st) (rx_socket r)
                  (emitted ++ [default [] buf])
              else drive fuel' maxPackSize (rx_state r) (rx_socket r) emitted
          end
      end
  end.

(** The stream arrives in chunks; after each the socket is readable and
    is driven. *)
Fixpoint feed (maxPackSize : Z) (chunks : list (list byte)) (st : SocketData)
    (sock : list byte) (emitted : list (list byte))
  : option (option rx_error * SocketData * list byte * list (list byte)) :=
  match chunks with
  | [] => Some (None, st, sock, emitted)
  | chunk :: later =>
      let sock := sock ++ chunk in
      '(err, st, sock, emitted) ← drive (S (length sock)) maxPackSize st sock emitted;
      match err with
      | Some e => Some (Some e, st, sock, emitted)
      | None => feed maxPackSize later st sock emitted
      end
  end.

(** ** Properties of the framing *)

Lemma byte_val_range (b : byte) : 0 <= byte_val b < 256.
Proof.
  unfold byte_val. pose proof (Byte.to_N_bounded b) as Hb. lia.
Qed.

Lemma lor_shiftl_8 (a b : Z) : 0 <= a -> 0 <= b < 256 -> Z.lor (Z.shiftl a 8) b = a * 256 + b.
Proof.
  intros Ha Hb.
  assert (Hland : Z.land (Z.shiftl a 8) b = 0).
  { apply Z.bits_inj'. intros n Hn. rewrite Z.land_spec, Z.bits_0.
    destruct (Z.ltb_spec n 8).
    - rewrite Z.shiftl_spec_low by lia. done.
    - destruct (Z.eq_dec b 0) as [->|Hb0]; [by rewrite Z.bits_0, andb_false_r|].
      rewrite (Z.bits_above_log2 b n), andb_false_r; [done|lia|].
      assert (Z.log2 b < 8) by (apply Z.log2_lt_pow2; lia). lia. }
  rewrite <- Z.lxor_lor, <- Z.add_nocarry_lxor by done.
  rewrite Z.shiftl_mul_pow2 by lia. done.
Qed.

Lemma decode_length_frame (b0 b1 : byte) (l : list byte) :
  decode_length (b0 :: b1 :: l) = frame_length b0 b1.
Proof.
  unfold decode_length, frame_length.
  pose proof (byte_val_range b0). pose proof (byte_val_range b1).
  apply lor_shiftl_8; lia.
Qed.

Lemma frame_length_nonneg (b0 b1 : byte) : 0 <= frame_length b0 b1.
Proof.
  unfold frame_length.
  pose proof (byte_val_range b0). pose proof (byte_val_range b1). lia.
Qed.

Lemma parse_frames_fuel_enough (f1 : nat) :
  forall f2 s, (length s <= f1)%nat -> (length s <= f2)%nat ->
    parse_frames_fuel f1 s = parse_frames_fuel f2 s.
Proof.
  induction f1 as [|f1 IH]; intros f2 s H1 H2.
  - destruct s; [|simpl in H1; lia]. by destruct f2.
  - destruct s as [|b0 [|b1 rest]]; [by destruct f2|by destruct f2|].
    destruct f2 as [|f2]; [simpl in H2; lia|]. simpl in *.
    case_decide; [|done]. f_equal. apply IH; rewrite length_drop; lia.
Qed.

Lemma parse_frames_fuel_step (fuel : nat) (b0 b1 : byte) (rest : list byte) :
  parse_frames_fuel (S fuel) (b0 :: b1 :: rest) =
    if decide (Z.to_nat (frame_length b0 b1) <= length rest)%nat
    then take (Z.to_nat (frame_length b0 b1)) rest
         :: parse_frames_fuel fuel (drop (Z.to_nat (frame_length b0 b1)) rest)
    else [].
Proof. reflexivity. Qed.

(** A whole frame at the head of the stream is the first frame. *)
Lemma parse_frames_frame (b0 b1 : byte) (payload rest : list byte) :
  length payload = Z.to_nat (frame_length b0 b1) ->
  parse_frames (b0 :: b1 :: payload ++ rest) = payload :: parse_frames rest.
Proof.
  intros Hlen. unfold parse_frames.
  change (length (b0 :: b1 :: payload ++ rest)) with (S (S (length (payload ++ rest)))).
  rewrite parse_frames_fuel_step, <- Hlen.
  rewrite decide_True by (rewrite length_app; lia).
  rewrite take_app_length, drop_app_length. f_equal.
  apply parse_frames_fuel_enough; rewrite ?length_app; lia.
Qed.

(** A frame that is cut short is no frame. *)
Lemma parse_frames_short (s : list byte) : (length s < 2)%nat -> parse_frames s = [].
Proof. intros Hs. unfold parse_frames. by destruct s as [|b0 [|b1 rest]]; [..|simpl in Hs; lia]. Qed.

Lemma parse_frames_partial (b0 b1 : byte) (rest : list byte) :
  (length rest < Z.to_nat (frame_length b0 b1))%nat ->
  parse_frames (b0 :: b1 :: rest) = [].
Proof.
  intros Hlen. unfold parse_frames.
  change (length (b0 :: b1 :: rest)) with (S (S (length rest))).
  rewrite parse_frames_fuel_step. by rewrite decide_False by lia.
Qed.

Lemma lengths_ok_header (maxPackSize : Z) (b0 b1 : byte) (rest : list byte) :
  lengths_ok maxPackSize (b0 :: b1 :: rest) -> frame_length b0 b1 <= maxPackSize.
Proof. inversion 1; subst; [simpl in *; lia|done|done]. Qed.

Lemma lengths_ok_tail (maxPackSize : Z) (b0 b1 : byte) (payload rest : list byte) :
  length payload = Z.to_nat (frame_length b0 b1) ->
  lengths_ok maxPackSize (b0 :: b1 :: payload ++ rest) -> lengths_ok maxPackSize rest.
Proof.
  intros Hlen Hok. inversion Hok as [s Hs|? ? r Hle Hr|? ? p r Hle Hp Hr [Hb0 Hb1 Heq]].
  - subst. simpl in Hs. lia.
  - subst. rewrite length_app in Hr. lia.
  - subst. apply app_inj_1 in Heq as [-> ->]; [done|congruence].
Qed.

Lemma take_write_at (off : nat) (bytes array : list byte) :
  (off <= length array)%nat ->
  take (off + length bytes) (write_at off bytes array) = take off array ++ bytes.
Proof.
  intros Hoff. unfold write_at. rewrite app_assoc.
  rewrite take_app_length'; [done|]. rewrite length_app, length_take. lia.
Qed.

Lemma length_write_at (off : nat) (bytes array : list byte) :
  (off + length bytes <= length array)%nat ->
  length (write_at off bytes array) = length array.
Proof.
  intros Hoff. unfold write_at. rewrite !length_app, length_take, length_drop. lia.
Qed.

(** ** The reassembler follows the framing *)

(** The bytes of the frame under way that the reassembler has read. *)
Definition staged (st : SocketData) : list byte :=
  take (m_lengthBufferOffset st) (m_lengthBuffer st) ++
  (if (m_lengthBufferOffset st =? 2)%nat
   then take (m_dataBufferOffset st) (default [] (m_pDataBuffer st))
   else []).

(** The invariants of section 3 of the spec, between two calls: in the
    length phase nothing of a payload is held; in the payload phase the
    length is decoded, the buffer has that size, and the frame is not
    complete yet. *)
Definition wf (st : SocketData) : Prop :=
  length (m_lengthBuffer st) = 2%nat /\
  ((m_lengthBufferOffset st < 2)%nat /\ m_pDataBuffer st = None /\ m_dataBufferOffset st = O \/
   m_lengthBufferOffset st = 2%nat /\
   Z.of_nat (m_dataLength st) = decode_length (m_lengthBuffer st) /\
   (m_dataBufferOffset st < m_dataLength st)%nat /\
   exists buf, m_pDataBuffer st = Some buf /\ length buf = m_dataLength st).

Lemma wf_new : wf SocketData_new.
Proof. split; [done|]. left. simpl. repeat split; lia. Qed.

Lemma wf_Reset (st : SocketData) : length (m_lengthBuffer st) = 2%nat -> wf (Reset st).
Proof. intros Hl. split; [done|]. left. simpl. repeat split; lia. Qed.

Lemma staged_incomplete (st : SocketData) : wf st -> parse_frames (staged st) = [].
Proof.
  intros [Hlen [(Hoff & Hbuf & Hd)|(Hoff & Hdec & Hd & buf & Hbuf & Hblen)]]; unfold staged.
  - rewrite (proj2 (Nat.eqb_neq _ _)) by lia. rewrite app_nil_r.
    apply parse_frames_short. rewrite length_take. lia.
  - destruct (m_lengthBuffer st) as [|b0 [|b1 [|]]]; try done.
    rewrite decode_length_frame in Hdec. rewrite Hoff, Hbuf. simpl.
    apply parse_frames_partial. rewrite length_take. lia.
Qed.

Lemma read_payload_stop (fuel avail : nat) (st : SocketData) (sock : list byte) :
  (0 <? avail)%nat && (m_lengthBufferOffset st =? 2)%nat
    && (m_dataBufferOffset st <? m_dataLength st)%nat = false ->
  read_payload fuel avail st sock = Some (None, avail, st, sock).
Proof. intros Hc. destruct fuel; simpl; by rewrite Hc. Qed.

(** The payload phase of one call: it takes from the socket what the
    frame still needs, or all there is. *)
Lemma read_payload_run (lb : list byte) (dl off : nat) (buf sock : list byte) :
  length buf = dl -> (off <= dl)%nat ->
  let got := take (dl - off) sock in
  let buf' := if decide (got = []) then buf else write_at off got buf in
  read_payload (S (length sock)) (length sock) (mkSocketData lb 2 dl off (Some buf)) sock
  = Some (None, length (drop (dl - off) sock),
          mkSocketData lb 2 dl (off + length got) (Some buf'), drop (dl - off) sock) /\
  length buf' = dl /\
  take (off + length got) buf' = take off buf ++ got /\
  ((off + length got)%nat = dl \/ drop (dl - off) sock = []).
Proof.
  intros Hbuf Hoff got buf'.
  assert (Hgot : length got = Nat.min (dl - off) (length sock))
    by (subst got; apply length_take).
  assert (Hstop : (off + length got)%nat = dl \/ drop (dl - off) sock = []).
  { destruct (decide (dl - off <= length sock)%nat); [left; lia|right].
    apply drop_ge. lia. }
  subst buf'. destruct (decide (got = [])) as [Hnil|Hne].
  - split; [|split; [|split]]; try done.
    + rewrite Hnil. cbn [length]. rewrite Nat.add_0_r.
      assert (sock = [] \/ dl = off) as [-> | ->].
      { rewrite Hnil in Hgot. simpl in Hgot. destruct sock; [by left|right]. simpl in Hgot. lia. }
      * rewrite drop_nil. done.
      * rewrite Nat.sub_diag, drop_0. apply read_payload_stop. simpl.
        by rewrite Nat.ltb_irrefl, andb_false_r.
    + rewrite Hnil. simpl. by rewrite Nat.add_0_r, app_nil_r.
  - split; [|split; [|split]]; try done.
    + assert (Hlen : (0 < length got)%nat) by (destruct got; [done|simpl; lia]).
      assert (Hcond : (0 <? length sock)%nat && (2 =? 2)%nat && (off <? dl)%nat = true).
      { rewrite (proj2 (Nat.ltb_lt _ _)) by lia. rewrite (proj2 (Nat.ltb_lt _ _)) by lia. done. }
      cbn [read_payload m_lengthBufferOffset m_dataBufferOffset m_dataLength
           m_pDataBuffer m_lengthBuffer].
      rewrite Hcond. unfold recv. fold got.
      rewrite (proj2 (Nat.eqb_neq _ _)) by lia. cbn [fmap option_fmap option_map].
      rewrite read_payload_stop.
      * do 4 f_equal. rewrite length_drop. lia.
      * cbn [m_lengthBufferOffset m_dataBufferOffset m_dataLength].
        destruct Hstop as [Hs|Hs].
        -- rewrite Hs, Nat.ltb_irrefl. by rewrite andb_false_r.
        -- assert (length sock - length got = 0)%nat as ->; [|done].
           apply (f_equal length) in Hs. rewrite length_drop in Hs. simpl in Hs. lia.
    + rewrite length_write_at; lia.
    + apply take_write_at. lia.
Qed.

Lemma ProcessReadable_after_length (maxPackSize : Z) (avail a1 : nat)
    (st st1 : SocketData) (sock sock1 : list byte) :
  read_length (S avail) maxPackSize avail st sock = Some (None, a1, st1, sock1) ->
  ProcessReadable maxPackSize avail st sock =
    '(err, avail, st, sock) ← read_payload (S a1) a1 st1 sock1;
    match err with
    | Some e => Some (mkResult false (Some e) st sock)
    | None =>
        Some (mkResult ((m_lengthBufferOffset st =? 2)%nat
                        && (m_dataBufferOffset st =? m_dataLength st)%nat) None st sock)
    end.
Proof. intros Hl. unfold ProcessReadable. by rewrite Hl. Qed.

Lemma read_length_stop (fuel : nat) (maxPackSize : Z) (avail : nat)
    (st : SocketData) (sock : list byte) :
  (0 <? avail)%nat && (m_lengthBufferOffset st <? 2)%nat = false ->
  read_length fuel maxPackSize avail st sock = Some (None, avail, st, sock).
Proof. intros Hc. destruct fuel; simpl; by rewrite Hc. Qed.

(** The length phase of one call, by what is staged and what is
    there. *)
Lemma read_length_both (fuel : nat) (maxPackSize : Z) (avail : nat)
    (x y a b : byte) (dl : nat) (rest : list byte) :
  frame_length a b <= maxPackSize ->
  read_length (S fuel) maxPackSize (S (S avail)) (mkSocketData [x; y] 0 dl 0 None)
    (a :: b :: rest)
  = Some (None, avail,
          mkSocketData [a; b] 2 (Z.to_nat (frame_length a b)) 0
            (Some (replicate (Z.to_nat (frame_length a b)) Byte.x00)), rest).
Proof.
  intros Hle. unfold read_length, recv.
  cbn [m_lengthBufferOffset m_lengthBuffer m_dataLength m_dataBufferOffset m_pDataBuffer
       Nat.ltb Nat.leb andb Nat.sub].
  assert (take 2 (a :: b :: rest) = [a; b]) as -> by (simpl; by rewrite take_0).
  cbn [drop length Nat.eqb Nat.add Nat.sub write_at take app].
  rewrite decode_length_frame, (proj2 (Z.ltb_ge _ _)) by lia.
  by rewrite Nat.sub_0_r.
Qed.

Lemma read_length_second (fuel : nat) (maxPackSize : Z) (avail : nat)
    (x y a : byte) (dl : nat) (rest : list byte) :
  frame_length x a <= maxPackSize ->
  read_length (S fuel) maxPackSize (S avail) (mkSocketData [x; y] 1 dl 0 None) (a :: rest)
  = Some (None, avail,
          mkSocketData [x; a] 2 (Z.to_nat (frame_length x a)) 0
            (Some (replicate (Z.to_nat (frame_length x a)) Byte.x00)), rest).
Proof.
  intros Hle. unfold read_length, recv.
  cbn [m_lengthBufferOffset m_lengthBuffer m_dataLength m_dataBufferOffset m_pDataBuffer
       Nat.ltb Nat.leb andb Nat.sub].
  assert (take 1 (a :: rest) = [a]) as -> by (simpl; by rewrite take_0).
  cbn [drop length Nat.eqb Nat.add Nat.sub write_at take app].
  rewrite decode_length_frame, (proj2 (Z.ltb_ge _ _)) by lia.
  by rewrite Nat.sub_0_r.
Qed.

Lemma read_length_first (maxPackSize : Z) (x y a : byte) (dl : nat) :
  read_length 2 maxPackSize 1 (mkSocketData [x; y] 0 dl 0 None) [a]
  = Some (None, O, mkSocketData [a; y] 1 dl 0 None, []).
Proof. reflexivity. Qed.

(** The payload phase, then the test for completion. *)
Lemma payload_phase (maxPackSize : Z) (avail : nat) (st : SocketData) (sock : list byte)
    (b0 b1 : byte) (dl off : nat) (buf sock1 : list byte) :
  read_length (S avail) maxPackSize avail st sock
    = Some (None, length sock1, mkSocketData [b0; b1] 2 dl off (Some buf), sock1) ->
  length buf = dl -> (off <= dl)%nat -> dl = Z.to_nat (frame_length b0 b1) ->
  exists r got,
    ProcessReadable maxPackSize avail st sock = Some r /\
    rx_error_of r = None /\
    sock1 = got ++ rx_socket r /\
    ((off < dl)%nat -> sock1 <> [] -> got <> []) /\
    length (m_lengthBuffer (rx_state r)) = 2%nat /\
    if rx_complete r
    then exists payload,
           m_pDataBuffer (rx_state r) = Some payload /\
           b0 :: b1 :: take off buf ++ got = b0 :: b1 :: payload /\
           length payload = Z.to_nat (frame_length b0 b1)
    else wf (rx_state r) /\ rx_socket r = [] /\
         staged (rx_state r) = b0 :: b1 :: take off buf ++ got.
Proof.
  intros Hl Hbuf Hoff Hdl.
  rewrite (ProcessReadable_after_length _ _ _ _ _ _ _ Hl).
  destruct (read_payload_run [b0; b1] dl off buf sock1 Hbuf Hoff) as (-> & Hlen' & Htake & Hstop).
  cbn [mbind option_bind m_lengthBufferOffset m_dataBufferOffset m_dataLength Nat.eqb andb].
  set (got := take (dl - off) sock1) in *.
  set (buf' := if decide (got = []) then buf else write_at off got buf) in *.
  eexists _, got. split; [done|]. cbn [rx_error_of rx_socket rx_state rx_complete].
  split; [done|]. split; [by unfold got; rewrite take_drop|]. split.
  { intros Hlt Hne Hg. subst got. apply (f_equal length) in Hg.
    rewrite length_take in Hg. simpl in Hg. destruct sock1; [done|]. simpl in Hg. lia. }
  split; [done|].
  destruct (off + length got =? dl)%nat eqn:Hc.
  - apply Nat.eqb_eq in Hc. exists buf'. split; [done|]. split; [|lia].
    rewrite <- Htake, Hc, <- Hlen'. by rewrite take_ge by lia.
  - apply Nat.eqb_neq in Hc. destruct Hstop as [?|Hdrop]; [done|].
    assert (Hgot : (length got <= dl - off)%nat) by (subst got; rewrite length_take; lia).
    split; [|split; [done|]].
    + split; [done|]. right. cbn. repeat split; try lia.
      * rewrite lor_shiftl_8; pose proof (byte_val_range b0); pose proof (byte_val_range b1);
          pose proof (frame_length_nonneg b0 b1); unfold frame_length in *; lia.
      * by exists buf'.
    + unfold staged. cbn. by rewrite Htake.
Qed.

(** What one call does when bytes are there: it reads some, and either
    the frame under way is complete, or the socket is drained. *)
Lemma ProcessReadable_step (maxPackSize : Z) (st : SocketData) (sock future : list byte) :
  wf st -> sock <> [] ->
  lengths_ok maxPackSize (staged st ++ sock ++ future) ->
  exists r got, ProcessReadable maxPackSize (length sock) st sock = Some r /\
    rx_error_of r = None /\
    sock = got ++ rx_socket r /\ got <> [] /\
    length (m_lengthBuffer (rx_state r)) = 2%nat /\
    if rx_complete r
    then exists b0 b1 payload,
           m_pDataBuffer (rx_state r) = Some payload /\
           staged st ++ got = b0 :: b1 :: payload /\
           length payload = Z.to_nat (frame_length b0 b1)
    else wf (rx_state r) /\ rx_socket r = [] /\ staged (rx_state r) = staged st ++ got.
Proof.
  intros [Hlen [(Hoff & Hbuf & Hd)|(Hoff & Hdec & Hd & buf & Hbuf & Hblen)]] Hsock Hok.
  - (* length phase *)
    destruct st as [lb lo dl off pbuf]. simpl in *. subst pbuf off.
    destruct lb as [|x [|y [|]]]; try done.
    destruct sock as [|a rest]; [done|].
    destruct lo as [|[|lo]]; [| |lia].
    + destruct rest as [|b rest].
      * (* one byte of the length *)
        eexists _, [a]. unfold ProcessReadable. cbn [length].
        rewrite read_length_first. cbn. split; [done|].
        repeat split; try done. left. cbn. repeat split; lia.
      * (* both bytes of the length *)
        unfold staged in Hok. cbn in Hok. apply lengths_ok_header in Hok as Hhdr.
        destruct (payload_phase maxPackSize (length (a :: b :: rest))
                    (mkSocketData [x; y] 0 dl 0 None) (a :: b :: rest) a b
                    (Z.to_nat (frame_length a b)) 0
                    (replicate (Z.to_nat (frame_length a b)) Byte.x00) rest)
          as (r & got & Hrun & Herr & Hrest & Hgot & Hlb & Hres).
        { cbn [length]. by apply read_length_both. }
        { by rewrite length_replicate. }
        { lia. }
        { done. }
        exists r, (a :: b :: got). split; [done|]. split; [done|].
        split; [by rewrite Hrest|]. split; [done|]. split; [done|].
        unfold staged. cbn. rewrite take_0 in Hres. cbn in Hres.
        destruct (rx_complete r); [|done].
        destruct Hres as (payload & ? & ? & ?). by exists a, b, payload.
    + (* the second byte of the length *)
      unfold staged in Hok. cbn in Hok. apply lengths_ok_header in Hok as Hhdr.
      destruct (payload_phase maxPackSize (length (a :: rest))
                  (mkSocketData [x; y] 1 dl 0 None) (a :: rest) x a
                  (Z.to_nat (frame_length x a)) 0
                  (replicate (Z.to_nat (frame_length x a)) Byte.x00) rest)
        as (r & got & Hrun & Herr & Hrest & Hgot & Hlb & Hres).
      { cbn [length]. by apply read_length_second. }
      { by rewrite length_replicate. }
      { lia. }
      { done. }
      exists r, (a :: got). split; [done|]. split; [done|].
      split; [by rewrite Hrest|]. split; [done|]. split; [done|].
      unfold staged. cbn. rewrite take_0 in Hres. cbn in Hres.
      destruct (rx_complete r); [|done].
      destruct Hres as (payload & ? & ? & ?). by exists x, a, payload.
  - (* payload phase *)
    destruct st as [lb lo dl off pbuf]. simpl in *. subst pbuf lo.
    destruct lb as [|b0 [|b1 [|]]]; try done.
    rewrite decode_length_frame in Hdec.
    destruct (payload_phase maxPackSize (length sock)
                (mkSocketData [b0; b1] 2 dl off (Some buf)) sock b0 b1 dl off buf sock)
      as (r & got & Hrun & Herr & Hrest & Hgot & Hlb & Hres).
    { apply read_length_stop. cbn. by rewrite andb_false_r. }
    { done. }
    { lia. }
    { lia. }
    exists r, got. split; [done|]. split; [done|]. split; [done|].
    split; [by apply Hgot|]. split; [done|].
    unfold staged. cbn.
    destruct (rx_complete r); [|done].
    destruct Hres as (payload & ? & ? & ?). by exists b0, b1, payload.
Qed.

Lemma staged_Reset (st : SocketData) : staged (Reset st) = [].
Proof.
  unfold staged. cbn [Reset m_lengthBufferOffset m_lengthBuffer Nat.eqb].
  by rewrite take_0.
Qed.

(** Driving a readable socket drains it and emits the frames that its
    bytes complete. *)
Lemma drive_spec (maxPackSize : Z) (future : list byte) (fuel : nat) :
  forall st sock emitted,
    wf st -> lengths_ok maxPackSize (staged st ++ sock ++ future) ->
    (length sock < fuel)%nat ->
    exists st' frames,
      drive fuel maxPackSize st sock emitted = Some (None, st', [], emitted ++ frames) /\
      wf st' /\ lengths_ok maxPackSize (staged st' ++ future) /\
      forall X, parse_frames (staged st ++ sock ++ X) = frames ++ parse_frames (staged st' ++ X).
Proof.
  induction fuel as [|fuel IH]; intros st sock emitted Hwf Hok Hfuel; [lia|].
  destruct sock as [|a rest] eqn:Hsock.
  { exists st, []. cbn [drive app] in *. rewrite app_nil_r.
    split; [done|]. split; [done|]. split; done. }
  rewrite <- Hsock in *.
  assert (Hne : sock <> []) by (by rewrite Hsock).
  destruct (ProcessReadable_step maxPackSize st sock future Hwf Hne Hok)
    as (r & got & Hrun & Herr & Hsplit & Hgot & Hlb & Hres).
  assert (Hless : (length (rx_socket r) < fuel)%nat).
  { apply (f_equal length) in Hsplit. rewrite length_app in Hsplit.
    destruct got; [done|]. simpl in Hsplit. lia. }
  assert (Hunfold : drive (S fuel) maxPackSize st sock emitted =
            if rx_complete r then
              drive fuel maxPackSize (Reset (snd (ExtractDataBuffer (rx_state r))))
                (rx_socket r) (emitted ++ [default [] (fst (ExtractDataBuffer (rx_state r)))])
            else drive fuel maxPackSize (rx_state r) (rx_socket r) emitted).
  { rewrite Hsock at 1. cbn [drive]. rewrite <- Hsock, Hrun. cbn [mbind option_bind].
    rewrite Herr. by destruct (rx_complete r). }
  rewrite Hunfold. clear Hunfold. destruct (rx_complete r).
  - destruct Hres as (b0 & b1 & payload & Hbuf & Hframe & Hlen).
    cbn [ExtractDataBuffer fst snd]. rewrite Hbuf. cbn [default from_option]. unfold id.
    assert (Hstream : forall Y, staged st ++ sock ++ Y = b0 :: b1 :: payload ++ rx_socket r ++ Y).
    { intros Y. rewrite Hsplit at 1. rewrite <- app_assoc, app_assoc, Hframe. done. }
    destruct (IH (Reset (mkSocketData (m_lengthBuffer (rx_state r))
                           (m_lengthBufferOffset (rx_state r)) (m_dataLength (rx_state r))
                           (m_dataBufferOffset (rx_state r)) None))
                (rx_socket r) (emitted ++ [payload]))
      as (st' & frames & -> & Hwf' & Hok' & Hparse); [by apply wf_Reset| |done|].
    { rewrite staged_Reset. simpl. eapply lengths_ok_tail; [exact Hlen|].
      by rewrite <- Hstream. }
    exists st', (payload :: frames). rewrite <- app_assoc. split; [done|].
    split; [done|]. split; [done|]. intros X.
    rewrite Hstream, parse_frames_frame by done.
    specialize (Hparse X). rewrite staged_Reset in Hparse. simpl in Hparse.
    by rewrite Hparse.
  - destruct Hres as (Hwf' & Hnil & Hstaged).
    rewrite Hnil in *. rewrite app_nil_r in Hsplit. subst got.
    exists (rx_state r), []. rewrite app_nil_r.
    split; [by destruct fuel|]. split; [done|].
    split; [by rewrite Hstaged, <- app_assoc|].
    intros X. by rewrite Hstaged, <- app_assoc.
Qed.

Lemma feed_spec (maxPackSize : Z) (chunks : list (list byte)) :
  forall st emitted,
    wf st -> lengths_ok maxPackSize (staged st ++ concat chunks) ->
    exists st' frames,
      feed maxPackSize chunks st [] emitted = Some (None, st', [], emitted ++ frames) /\
      wf st' /\ parse_frames (staged st ++ concat chunks) = frames.
Proof.
  induction chunks as [|chunk later IH]; intros st emitted Hwf Hok.
  - exists st, []. simpl. rewrite !app_nil_r. split; [done|]. split; [done|].
    by apply staged_incomplete.
  - cbn [feed concat app] in *.
    destruct (drive_spec maxPackSize (concat later) (S (length chunk)) st chunk emitted)
      as (st1 & frames1 & -> & Hwf1 & Hok1 & Hparse1); [done|done|lia|].
    cbn [mbind option_bind].
    destruct (IH st1 (emitted ++ frames1) Hwf1 Hok1) as (st' & frames & -> & Hwf' & Hparse).
    exists st', (frames1 ++ frames). rewrite app_assoc. split; [done|]. split; [done|].
    by rewrite Hparse1, Hparse.
Qed.

(** C1.  Bytes fed to a fresh reassembler in chunks of any sizes, empty
    ones included: the reassembler reports no error, drains every chunk,
    and the payloads it has emitted after the last are the frames of the
    whole stream, in their order, provided no length met in the stream
    exceeds [maxPackSize]. *)
Theorem reassembly_matches_parsing (maxPackSize : Z) (chunks : list (list byte)) :
  lengths_ok maxPackSize (concat chunks) ->
  exists st',
    feed maxPackSize chunks SocketData_new [] []
    = Some (None, st', [], parse_frames (concat chunks)).
Proof.
  intros Hok.
  destruct (feed_spec maxPackSize chunks SocketData_new [] wf_new) as (st' & frames & Hrun & _ & Hp).
  { done. }
  exists st'. rewrite Hrun. simpl in Hp. by rewrite Hp.
Qed.

(** The scenarios of the spec in one stream: a length split across two
    chunks, a payload split across two chunks, two frames in one chunk,
    a frame of length zero, and a last frame cut short. *)
Definition example_chunks : list (list byte) :=
  [[Byte.x00]; [Byte.x05; Byte.x68; Byte.x65; Byte.x6c]; [];
   [Byte.x6c; Byte.x6f; Byte.x00; Byte.x01; Byte.x41; Byte.x00; Byte.x00; Byte.x00];
   [Byte.x02; Byte.x42]].

Lemma example_chunks_ok : lengths_ok 100 (concat example_chunks).
Proof.
  apply (lengths_ok_frame 100 Byte.x00 Byte.x05
           [Byte.x68; Byte.x65; Byte.x6c; Byte.x6c; Byte.x6f]); [done|done|].
  apply (lengths_ok_frame 100 Byte.x00 Byte.x01 [Byte.x41]); [done|done|].
  apply (lengths_ok_frame 100 Byte.x00 Byte.x00 []); [done|done|].
  apply (lengths_ok_partial 100 Byte.x00 Byte.x02 [Byte.x42]); [done|]. vm_compute. lia.
Qed.

Lemma reassembly_matches_parsing_witness :
  exists st',
    feed 100 example_chunks SocketData_new [] []
    = Some (None, st', [], parse_frames (concat example_chunks)).
Proof.
  apply (reassembly_matches_parsing 100 example_chunks). exact example_chunks_ok.
Defined.

Example example_chunks_frames :
  parse_frames (concat example_chunks)
  = [[Byte.x68; Byte.x65; Byte.x6c; Byte.x6c; Byte.x6f]; [Byte.x41]; []] /\
  fst <$> feed 100 example_chunks SocketData_new [] []
  = Some (None,
          mkSocketData [Byte.x00; Byte.x02] 2 2 1 (Some [Byte.x42; Byte.x00]), []).
Proof. vm_compute. done. Qed.

(** A length above [maxPackSize] is refused. *)
Example oversized_frame_refused :
  (λ r, fst (fst (fst r))) <$> feed 100 [[Byte.xff; Byte.xff; Byte.x41]] SocketData_new [] []
  = Some (Some OversizedFrame).
Proof. vm_compute. done. Qed.

End Reassembler.
